(** * mongoSQL: the SQL front end and its lowering to MongoDB commands

    A shallow embedding of [src/mongoSQL.js]: the tokenizer, the
    recursive-descent parser, the parameter binder and the functions that
    lower an AST to filters, projection expressions and aggregation
    pipelines.  JavaScript values are an inductive type, objects are
    association lists in insertion order, [throw] is an error result and the
    binder's cursor is threaded explicitly. *)

From Stdlib Require Import ZArith Lia Bool Ascii String DecimalString.
From stdpp Require Import base strings list gmap.

Open Scope string_scope.
Open Scope list_scope.

(** ** JavaScript values *)

(** A JavaScript number.  A finite number is a double, kept as the
    shortest decimal [m * 10^e] that denotes it: the one whose digits
    [Number::toString] prints. *)
Inductive number :=
| NaN
| Infinity (negative : bool)
| Fin (m e : Z).

(** The objects of the engine that a property lookup on a plain object
    reaches through its prototype: [Object.prototype] itself and the
    functions it holds, by name. *)
Inductive builtin :=
| ObjectPrototype
| NativeFunction (name : string).

#[local] Unset Elimination Schemes.

(** An object is kept as its own properties, in insertion order. *)
Inductive value :=
| VUndefined
| VNull
| VBool (b : bool)
| VNum (n : number)
| VStr (s : string)
| VArr (items : list value)
| VObj (props : list (string * value))
| VBuiltin (b : builtin).

#[local] Set Elimination Schemes.

Definition VInt (z : Z) : value := VNum (Fin z 0).

(** [Number.isFinite(x)]: false for everything that is not a finite number,
    [null] included. *)
Definition Number_isFinite (v : value) : bool :=
  match v with
  | VNum (Fin _ _) => true
  | _ => false
  end.

(** [Number.isInteger(x)] on the decimal [m * 10^e]. *)
Definition Number_isInteger (v : value) : bool :=
  match v with
  | VNum (Fin m e) => if (0 <=? e)%Z then true else (m mod 10 ^ (- e) =? 0)%Z
  | _ => false
  end.

(** Finite numbers are kept with [e <= 0] and as few decimals as
    possible, so that equal numbers are equal terms: an integer [z] is
    [Fin z 0]. *)
Fixpoint reduce (fuel : nat) (m e : Z) : number :=
  match fuel with
  | O => Fin m e
  | S fuel' =>
      if ((e <? 0) && (m mod 10 =? 0))%Z then reduce fuel' (m / 10) (e + 1)
      else Fin m e
  end.

(** ** Doubles *)

(** A rational that is not negative, [numerator / denominator]. *)
Record ratio := { numerator : Z; denominator : Z }.

(** [b^e] by repeated squaring. *)
Fixpoint power_pos (b : Z) (e : positive) : Z :=
  match e with
  | xH => b
  | xO e' => let y := power_pos b e' in (y * y)%Z
  | xI e' => let y := power_pos b e' in (b * (y * y))%Z
  end.

Definition power (b e : Z) : Z :=
  match e with
  | Zpos p => power_pos b p
  | _ => 1%Z
  end.

(** [m * b^e]. *)
Definition scale (m b e : Z) : ratio :=
  if (0 <=? e)%Z then {| numerator := m * power b e; denominator := 1 |}
  else {| numerator := m; denominator := power b (- e) |}.

Definition ratio_leb (x y : ratio) : bool :=
  (numerator x * denominator y <=? numerator y * denominator x)%Z.

Definition ratio_ltb (x y : ratio) : bool :=
  (numerator x * denominator y <? numerator y * denominator x)%Z.

Definition ratio_eqb (x y : ratio) : bool :=
  (numerator x * denominator y =? numerator y * denominator x)%Z.

(** [x / y]. *)
Definition ratio_div (x y : ratio) : ratio :=
  {| numerator := numerator x * denominator y;
     denominator := denominator x * numerator y |}.

(** The integer nearest to [x], the even one of two that are as near. *)
Definition roundHalfEven (x : ratio) : Z :=
  let q := (numerator x / denominator x)%Z in
  let r := (numerator x mod denominator x)%Z in
  if (2 * r <? denominator x)%Z then q
  else if (denominator x <? 2 * r)%Z then (q + 1)%Z
  else if Z.even q then q else (q + 1)%Z.

(** The exponent [e] with [b^e <= x < b^(e+1)], from an estimate that is
    off by [fuel] at most. *)
Fixpoint exponentFrom (fuel : nat) (b : Z) (x : ratio) (e : Z) : Z :=
  match fuel with
  | O => e
  | S fuel' =>
      if ratio_ltb x (scale 1 b e) then exponentFrom fuel' b x (e - 1)
      else if ratio_leb (scale 1 b (e + 1)) x then exponentFrom fuel' b x (e + 1)
      else e
  end.

Definition exponent2 (x : ratio) : Z :=
  exponentFrom 2 2 x (Z.log2 (numerator x) - Z.log2 (denominator x)).

Definition exponent10 (x : ratio) : Z :=
  exponentFrom 4 10 x
    ((Z.log2 (numerator x) - Z.log2 (denominator x)) * 30103 / 100000).

(** The double nearest to [x > 0], ties to the even mantissa: a mantissa of
    53 bits at most over the exponent of [x], or over the least exponent
    [-1074] for a subnormal.  The result is [2^1024] or more when [x]
    rounds to infinity. *)
Definition nearestDouble (x : ratio) : ratio :=
  let q := Z.max (exponent2 x - 52) (-1074) in
  let m := roundHalfEven (ratio_div x (scale 1 2 q)) in
  scale m 2 q.

(** The digits of a double: [Number::toString] takes the least count [k]
    of digits for which some decimal [s * 10^t] of [k] digits rounds to the
    double [x], and of two such decimals the nearer to [x], the even one if
    they are as near.  Seventeen digits always do. *)
Fixpoint shortestDecimal (fuel : nat) (k : Z) (x : ratio) : Z * Z :=
  let t := (exponent10 x + 1 - k)%Z in
  let lo := (let y := ratio_div x (scale 1 10 t) in
             numerator y / denominator y)%Z in
  let hi := (lo + 1)%Z in
  match fuel with
  | O => (lo, t)
  | S fuel' =>
      let okLo := ratio_eqb (nearestDouble (scale lo 10 t)) x in
      let okHi := ratio_eqb (nearestDouble (scale hi 10 t)) x in
      let twice := {| numerator := 2 * numerator x; denominator := denominator x |} in
      let mid := scale (lo + hi) 10 t in
      if okLo && okHi then
        if ratio_ltb twice mid then (lo, t)
        else if ratio_ltb mid twice then (hi, t)
        else if Z.even lo then (lo, t) else (hi, t)
      else if okLo then (lo, t)
      else if okHi then (hi, t)
      else shortestDecimal fuel' (k + 1) x
  end.

(** The number that the decimal [m * 10^e] denotes: the double nearest to
    it. *)
Definition makeNumber (m e : Z) : number :=
  if (m =? 0)%Z then Fin 0 0
  else
    let x := nearestDouble (scale (Z.abs m) 10 e) in
    if ratio_leb (scale 1 2 1024) x then Infinity (m <? 0)%Z
    else if (numerator x =? 0)%Z then Fin 0 0
    else
      let '(s, t) := shortestDecimal 17 1 x in
      let s := if (m <? 0)%Z then (- s)%Z else s in
      if (0 <=? t)%Z then Fin (s * power 10 t) 0
      else reduce (Z.to_nat (- t)) s t.

(** ** Strings *)

Definition ascii_code (c : ascii) : N := N_of_ascii c.

Definition toUpperChar (c : ascii) : ascii :=
  let n := ascii_code c in
  if ((97 <=? n) && (n <=? 122))%N then ascii_of_N (n - 32) else c.

Definition toLowerChar (c : ascii) : ascii :=
  let n := ascii_code c in
  if ((65 <=? n) && (n <=? 90))%N then ascii_of_N (n + 32) else c.

(** [toUpperCase] and [toLowerCase], on the ASCII letters that identifiers
    are made of. *)
Fixpoint toUpperCase (s : string) : string :=
  match s with
  | EmptyString => EmptyString
  | String c s' => String (toUpperChar c) (toUpperCase s')
  end.

Fixpoint toLowerCase (s : string) : string :=
  match s with
  | EmptyString => EmptyString
  | String c s' => String (toLowerChar c) (toLowerCase s')
  end.

Fixpoint string_repeat (c : ascii) (n : nat) : string :=
  match n with
  | O => EmptyString
  | S n' => String c (string_repeat c n')
  end.

Fixpoint string_take (n : nat) (s : string) : string :=
  match n, s with
  | S n', String c s' => String c (string_take n' s')
  | _, _ => EmptyString
  end.

Fixpoint string_drop (n : nat) (s : string) : string :=
  match n, s with
  | S n', String _ s' => string_drop n' s'
  | _, _ => s
  end.

Definition digits_of (z : Z) : string := NilZero.string_of_uint (N.to_uint (Z.to_N z)).

(** The mantissa without its trailing zeros. *)
Fixpoint stripZeros (fuel : nat) (m e : Z) : Z * Z :=
  match fuel with
  | O => (m, e)
  | S fuel' =>
      if (m mod 10 =? 0)%Z then stripZeros fuel' (m / 10) (e + 1) else (m, e)
  end.

(** [Number::toString]: the digits [s], their count [k] and the exponent
    [n] with value [s * 10^(n-k)]. *)
Definition numberToString (x : number) : string :=
  match x with
  | NaN => "NaN"
  | Infinity neg => if neg then "-Infinity" else "Infinity"
  | Fin m e =>
      if (m =? 0)%Z then "0"
      else
        let sign := if (m <? 0)%Z then "-" else EmptyString in
        let '(m, e) := stripZeros (Z.to_nat (Z.log2 (Z.abs m))) (Z.abs m) e in
        let s := digits_of m in
        let k := Z.of_nat (String.length s) in
        let n := (k + e)%Z in
        let body :=
          if ((k <=? n) && (n <=? 21))%Z then
            s +:+ string_repeat "0" (Z.to_nat (n - k))
          else if ((0 <? n) && (n <=? 21))%Z then
            string_take (Z.to_nat n) s +:+ "." +:+ string_drop (Z.to_nat n) s
          else if ((-6 <? n) && (n <=? 0))%Z then
            "0." +:+ string_repeat "0" (Z.to_nat (- n)) +:+ s
          else
            let ex := (n - 1)%Z in
            let exs := (if (ex <? 0)%Z then "-" else "+") +:+ digits_of (Z.abs ex) in
            if (k =? 1)%Z then s +:+ "e" +:+ exs
            else string_take 1 s +:+ "." +:+ string_drop 1 s +:+ "e" +:+ exs in
        sign +:+ body
  end.

Fixpoint join (sep : string) (l : list string) : string :=
  match l with
  | [] => EmptyString
  | [x] => x
  | x :: l' => x +:+ sep +:+ join sep l'
  end.

(** [String(v)]. *)
Fixpoint String_ (v : value) : string :=
  match v with
  | VUndefined => "undefined"
  | VNull => "null"
  | VBool b => if b then "true" else "false"
  | VNum n => numberToString n
  | VStr s => s
  | VArr items =>
      join "," (map (fun x => match x with
                              | VUndefined | VNull => EmptyString
                              | _ => String_ x
                              end) items)
  | VObj _ => "[object Object]"
  | VBuiltin ObjectPrototype => "[object Object]"
  | VBuiltin (NativeFunction name) => "function " +:+ name +:+ "() { [native code] }"
  end.

(** [a || b] on an optional string: the empty string is falsy too. *)
Definition or_default (a : option string) (b : string) : string :=
  match a with
  | Some s => if String.eqb s EmptyString then b else s
  | None => b
  end.

(** ** Objects: properties in insertion order *)

(** The own property [key] is created at the end, or replaced where it
    is. *)
Fixpoint defineProperty (props : list (string * value)) (key : string) (v : value)
  : list (string * value) :=
  match props with
  | [] => [(key, v)]
  | (k, old) :: rest =>
      if String.eqb k key then (k, v) :: rest
      else (k, old) :: defineProperty rest key v
  end.

(** The assignment [obj[key] = v] on an object made by [{}].  The key
    [__proto__] is an accessor of [Object.prototype]: assigning to it
    creates no property (it changes the prototype of [obj] when [v] is an
    object or [null], and the own properties are all that is kept of an
    object here). *)
Definition objSet (props : list (string * value)) (key : string) (v : value)
  : list (string * value) :=
  if String.eqb key "__proto__" then props else defineProperty props key v.

(** The own property [key], [undefined] when there is none. *)
Fixpoint objGet (props : list (string * value)) (key : string) : value :=
  match props with
  | [] => VUndefined
  | (k, v) :: rest => if String.eqb k key then v else objGet rest key
  end.

Definition hasOwn (props : list (string * value)) (key : string) : bool :=
  existsb (fun kv => String.eqb (fst kv) key) props.

(** The properties of [Object.prototype]. *)
Definition objectPrototype : list (string * value) :=
  [("constructor", VBuiltin (NativeFunction "Object"));
   ("__defineGetter__", VBuiltin (NativeFunction "__defineGetter__"));
   ("__defineSetter__", VBuiltin (NativeFunction "__defineSetter__"));
   ("hasOwnProperty", VBuiltin (NativeFunction "hasOwnProperty"));
   ("__lookupGetter__", VBuiltin (NativeFunction "__lookupGetter__"));
   ("__lookupSetter__", VBuiltin (NativeFunction "__lookupSetter__"));
   ("isPrototypeOf", VBuiltin (NativeFunction "isPrototypeOf"));
   ("propertyIsEnumerable", VBuiltin (NativeFunction "propertyIsEnumerable"));
   ("toString", VBuiltin (NativeFunction "toString"));
   ("valueOf", VBuiltin (NativeFunction "valueOf"));
   ("__proto__", VBuiltin ObjectPrototype);
   ("toLocaleString", VBuiltin (NativeFunction "toLocaleString"))].

(** What a plain object inherits under [key]. *)
Definition inherited (key : string) : value := objGet objectPrototype key.

(** The read [obj[key]] on a plain object: an own property, or else the
    one of [Object.prototype]. *)
Definition propGet (props : list (string * value)) (key : string) : value :=
  if hasOwn props key then objGet props key else inherited key.

(** ** Results: a value or a thrown exception *)

(** [OutOfFuel] is not a JavaScript exception: it marks a run of the model
    that reached its recursion bound.  The code has no bound of its own:
    where its calls nest deeper than the stack of the engine allows, the
    engine throws a [RangeError], and the stack is not part of the model. *)
Inductive exn :=
| Error (message : string)
| TypeError (message : string)
| OutOfFuel.

Inductive result (A : Type) :=
| Ok (a : A)
| Throw (e : exn).
Arguments Ok {A} a.
Arguments Throw {A} e.

(** Code over a mutable state [S] that may throw. *)
Definition State (S A : Type) : Type := S -> result (A * S).

Definition ret {S A} (a : A) : State S A := fun s => Ok (a, s).

Definition throw {S A} (e : exn) : State S A := fun _ => Throw e.

Definition bind {S A B} (c : State S A) (k : A -> State S B) : State S B :=
  fun s => match c s with
           | Ok (a, s') => k a s'
           | Throw e => Throw e
           end.

Notation "x <- c ;; k" := (bind c (fun x => k))
  (at level 100, c at next level, right associativity).

Definition lift {S A} (r : result A) : State S A :=
  fun s => match r with Ok a => Ok (a, s) | Throw e => Throw e end.

Fixpoint mapM {S A B} (f : A -> State S B) (l : list A) : State S (list B) :=
  match l with
  | [] => ret []
  | a :: l' => v <- f a ;; vs <- mapM f l' ;; ret (v :: vs)
  end.

(** A [for (const x of l)] loop that updates [acc]. *)
Fixpoint forM {S A T} (l : list A) (body : T -> A -> State S T) (acc : T)
  : State S T :=
  match l with
  | [] => ret acc
  | x :: l' => acc' <- body acc x ;; forM l' body acc'
  end.

(** ** The AST *)

#[local] Unset Elimination Schemes.

(** Expression nodes, tagged by their [type] field.  [ENullKind] is the
    untyped [{ kind: 'NULL' }] node that [IS [NOT] NULL] has on its right. *)
Inductive expr :=
| ENumber (value : number)
| EString (value : string)
| EBoolean (value : bool)
| ENull
| EParamPos
| EParamNamed (name : string)
| EArray (values : list expr)
| EBetween (from to : expr)
| EField (table : option string) (name : string) (alias : option string)
| ECall (name : string) (args : list expr)
| EBinary (op : string) (left_ right_ : expr)
| EUnary (op : string) (operand : expr)
| EAll
| ENullKind.

#[local] Set Elimination Schemes.

(** The text of [expr.type] in messages. *)
Definition type_of (e : expr) : string :=
  match e with
  | ENumber _ => "Number"
  | EString _ => "String"
  | EBoolean _ => "Boolean"
  | ENull => "Null"
  | EParamPos | EParamNamed _ => "Param"
  | EArray _ => "Array"
  | EBetween _ _ => "Between"
  | EField _ _ _ => "Field"
  | ECall _ _ => "Call"
  | EBinary _ _ _ => "Binary"
  | EUnary _ _ => "Unary"
  | EAll => "All"
  | ENullKind => "undefined"
  end.

Definition isField (e : expr) : bool :=
  match e with EField _ _ _ => true | _ => false end.

Record Table := { t_name : string; t_alias : option string }.

Record SelectItem := { sel_expr : expr; sel_alias : option string }.

Record Join := { j_type : string; j_table : Table; j_on : option expr }.

Record OrderItem := { ob_expr : expr; ob_dir : string }.

Record Select := {
  columns : list SelectItem;
  from : Table;
  joins : list Join;
  where_ : option expr;
  groupBy : list expr;
  having : option expr;
  orderBy : list OrderItem;
  limit : value;
  offset : value
}.

Record Assignment := { set_column : string; set_value : expr }.

(** The columns of [INSERT] are [Field] nodes made from a list of
    identifiers; only their names are kept. *)
Inductive statement :=
| SELECT (s : Select)
| INSERT_VALUES (into : string) (cols : list string) (values : list (list expr))
| INSERT_SELECT (into : string) (cols : list string) (select : Select)
| UPDATE (table : string) (set : list Assignment) (where_ : option expr)
| DELETE (from : string) (where_ : option expr)
| BEGIN
| COMMIT
| ROLLBACK.

(** ** Induction on expressions *)

Section expr_induction.
Variable Q : expr -> Prop.
Hypothesis HNumber : forall v, Q (ENumber v).
Hypothesis HString : forall v, Q (EString v).
Hypothesis HBoolean : forall v, Q (EBoolean v).
Hypothesis HNull : Q ENull.
Hypothesis HParamPos : Q EParamPos.
Hypothesis HParamNamed : forall n, Q (EParamNamed n).
Hypothesis HArray : forall vs, Forall Q vs -> Q (EArray vs).
Hypothesis HBetween : forall f t, Q f -> Q t -> Q (EBetween f t).
Hypothesis HField : forall t n a, Q (EField t n a).
Hypothesis HCall : forall n args, Forall Q args -> Q (ECall n args).
Hypothesis HBinary : forall op l r, Q l -> Q r -> Q (EBinary op l r).
Hypothesis HUnary : forall op e, Q e -> Q (EUnary op e).
Hypothesis HAll : Q EAll.
Hypothesis HNullKind : Q ENullKind.

Fixpoint expr_ind (e : expr) : Q e :=
  let all :=
    fix all (l : list expr) : Forall Q l :=
      match l with
      | [] => List.Forall_nil Q
      | x :: l' => List.Forall_cons Q x l' (expr_ind x) (all l')
      end in
  match e with
  | ENumber v => HNumber v
  | EString v => HString v
  | EBoolean v => HBoolean v
  | ENull => HNull
  | EParamPos => HParamPos
  | EParamNamed n => HParamNamed n
  | EArray vs => HArray vs (all vs)
  | EBetween f t => HBetween f t (expr_ind f) (expr_ind t)
  | EField t n a => HField t n a
  | ECall n args => HCall n args (all args)
  | EBinary op l r => HBinary op l r (expr_ind l) (expr_ind r)
  | EUnary op x => HUnary op x (expr_ind x)
  | EAll => HAll
  | ENullKind => HNullKind
  end.
End expr_induction.

(** ** Parameter binding *)

Record ParamBinder := {
  named : gmap string value;
  positional : list value;
  posIndex : nat
}.

Definition newParamBinder (named : gmap string value) (positional : list value)
  : ParamBinder :=
  {| named := named; positional := positional; posIndex := 0 |}.

(** Code that uses the binder: it reads and advances [posIndex] and may
    throw. *)
Definition M : Type -> Type := State ParamBinder.

(** [this.positional[this.posIndex++]], behind its bounds check. *)
Definition nextPositional : M value :=
  fun b =>
    if decide (length (positional b) <= posIndex b) then
      Throw (Error "Not enough positional params")
    else
      Ok (default VUndefined (positional b !! posIndex b),
          {| named := named b; positional := positional b;
             posIndex := S (posIndex b) |}).

(** [this.named[node.name]]: [named] holds the own properties of the plain
    object that the caller gave, and a name that it lacks is looked up in
    [Object.prototype]. *)
Definition lookupNamed (name : string) : M value :=
  fun b =>
    match default (inherited name) (named b !! name) with
    | VUndefined => Throw (Error ("Missing named param :" +:+ name))
    | v => Ok (v, b)
    end.

Fixpoint bindValue (node : expr) : M value :=
  match node with
  | EParamPos => nextPositional
  | EParamNamed name => lookupNamed name
  | ENumber value => ret (VNum value)
  | EString value => ret (VStr value)
  | EBoolean value => ret (VBool value)
  | ENull => ret VNull
  | EArray values =>
      vs <- (fix go (l : list expr) : M (list value) :=
               match l with
               | [] => ret []
               | v :: l' => x <- bindValue v ;; xs <- go l' ;; ret (x :: xs)
               end) values ;;
      ret (VArr vs)
  | EBetween from to =>
      f <- bindValue from ;;
      t <- bindValue to ;;
      ret (VObj [("from", f); ("to", t)])
  | _ => ret VNull
  end.

(** [bindValue] on a node that may be missing: [if (!node) return null]. *)
Definition bindValue' (node : option expr) : M value :=
  match node with
  | None => ret VNull
  | Some n => bindValue n
  end.

(** ** Utilities *)

Record Qualified := { q_table : string; q_field : string; q_path : string }.

Definition stripLeadingDot (s : string) : string :=
  match s with
  | String "." s' => s'
  | _ => s
  end.

Definition qualifyField (f : expr) (defaultTable : string) : result Qualified :=
  match f with
  | EField table name _ =>
      let table := or_default table defaultTable in
      let path := if String.eqb table EmptyString then name
                  else stripLeadingDot (table +:+ "." +:+ name) in
      Ok {| q_table := table; q_field := name; q_path := path |}
  | _ => Throw (Error "Expected Field")
  end.

Definition projectKey (f : expr) : string :=
  match f with
  | EField _ name alias => or_default alias name
  | _ => "expr"
  end.

Definition exprAlias (e : expr) : string :=
  match e with
  | EField _ _ _ => projectKey e
  | ECall name _ => toLowerCase name
  | EAll => "*"
  | _ => "expr"
  end.

Definition isAggregate (name : string) : bool :=
  bool_decide (toUpperCase name ∈ ["COUNT"; "SUM"; "AVG"; "MIN"; "MAX"]).

Definition eqField (a b : expr) : bool :=
  match a, b with
  | EField ta na _, EField tb nb _ =>
      String.eqb (toLowerCase (default EmptyString ta)) (toLowerCase (default EmptyString tb))
      && String.eqb (toLowerCase na) (toLowerCase nb)
  | _, _ => false
  end.

Definition toArray (v : value) : value :=
  match v with
  | VArr _ => v
  | _ => VArr [v]
  end.

(** The characters of the class [[.*+?^${}()|[\]\\]]. *)
Definition isRegexMeta (c : ascii) : bool :=
  bool_decide (c ∈ ["."; "*"; "+"; "?"; "^"; "$"; "{"; "}"; "("; ")"; "|";
                    "["; "]"; "092"]%char).

(** [s.replace(/c/g, by)] for a one-character pattern. *)
Fixpoint replaceChar (c : ascii) (by_ : string) (s : string) : string :=
  match s with
  | EmptyString => EmptyString
  | String x s' =>
      if Ascii.eqb x c then by_ +:+ replaceChar c by_ s'
      else String x (replaceChar c by_ s')
  end.

Fixpoint escapeRegex (s : string) : string :=
  match s with
  | EmptyString => EmptyString
  | String x s' =>
      if isRegexMeta x then String "092" (String x (escapeRegex s'))
      else String x (escapeRegex s')
  end.

Definition likeToRegex (pattern : string) : value :=
  let escaped := escapeRegex pattern in
  let re := "^" +:+ replaceChar "_" "." (replaceChar "%" ".*" escaped) +:+ "$" in
  VObj [("$regex", VStr re); ("$options", VStr "i")].

Definition obj1 (key : string) (v : value) : value := VObj [(key, v)].

Fixpoint buildMatch (e : expr) (defaultTable : string) : M value :=
  match e with
  | EBinary op left_ right_ =>
      if bool_decide (op = "AND" \/ op = "OR") then
        a <- buildMatch left_ defaultTable ;;
        b <- buildMatch right_ defaultTable ;;
        ret (if String.eqb op "AND" then obj1 "$and" (VArr [a; b])
             else obj1 "$or" (VArr [a; b]))
      else if isField left_ then
        q <- lift (qualifyField left_ defaultTable) ;;
        let key := q_path q in
        val <- bindValue right_ ;;
        if String.eqb op "=" then ret (obj1 key val)
        else if bool_decide (op = "!=" \/ op = "<>") then
          ret (obj1 key (obj1 "$ne" val))
        else if String.eqb op ">" then ret (obj1 key (obj1 "$gt" val))
        else if String.eqb op ">=" then ret (obj1 key (obj1 "$gte" val))
        else if String.eqb op "<" then ret (obj1 key (obj1 "$lt" val))
        else if String.eqb op "<=" then ret (obj1 key (obj1 "$lte" val))
        else if String.eqb op "IN" then ret (obj1 key (obj1 "$in" (toArray val)))
        else if String.eqb op "NOT IN" then
          ret (obj1 key (obj1 "$nin" (toArray val)))
        else if String.eqb op "LIKE" then
          ret (obj1 key (likeToRegex (String_ val)))
        else if String.eqb op "IS" then
          match right_ with
          | ENullKind => ret (obj1 key VNull)
          | _ => throw (Error "Unsupported WHERE clause")
          end
        else if String.eqb op "IS NOT" then
          match right_ with
          | ENullKind => ret (obj1 key (obj1 "$ne" VNull))
          | _ => throw (Error "Unsupported WHERE clause")
          end
        else if String.eqb op "BETWEEN" then
          let '(from, to) := match right_ with
                             | EBetween f t => (Some f, Some t)
                             | _ => (None, None)
                             end in
          lo <- bindValue' from ;;
          hi <- bindValue' to ;;
          ret (obj1 key (VObj [("$gte", lo); ("$lte", hi)]))
        else throw (Error ("Unsupported operator in WHERE: " +:+ op))
      else throw (Error "Unsupported WHERE clause")
  | EUnary op operand =>
      if String.eqb op "NOT" then
        inner <- buildMatch operand defaultTable ;;
        ret (obj1 "$nor" (VArr [inner]))
      else ret VUndefined
  | _ => throw (Error "Unsupported WHERE expression")
  end.

(** [buildMatch] on a clause that may be absent: [if (!expr) return {}]. *)
Definition buildMatch' (e : option expr) (defaultTable : string) : M value :=
  match e with
  | None => ret (VObj [])
  | Some e => buildMatch e defaultTable
  end.

Definition buildUpdate (setList : list Assignment) : M value :=
  props <- forM setList
             (fun props s =>
                v <- bindValue (set_value s) ;;
                ret (objSet props (set_column s) v))
             [] ;;
  ret (obj1 "$set" (VObj props)).

(** ** Built-in SQL functions *)

Definition FunctionTable := list (string * (list value -> value)).

(** [args[i]]. *)
Definition arg (args : list value) (i : nat) : value :=
  default VUndefined (args !! i).

(** [v == null]. *)
Definition isNullish (v : value) : bool :=
  match v with
  | VUndefined | VNull => true
  | _ => false
  end.

Definition buildBuiltinFunctions : FunctionTable :=
  [ ("LOWER", fun args => obj1 "$toLower" (arg args 0));
    ("UPPER", fun args => obj1 "$toUpper" (arg args 0));
    ("CONCAT", fun args => obj1 "$concat" (VArr args));
    ("COALESCE", fun args =>
       obj1 "$ifNull"
         (VArr [arg args 0; if isNullish (arg args 1) then VNull else arg args 1]));
    ("ABS", fun args => obj1 "$abs" (arg args 0));
    ("ROUND", fun args =>
       let x := arg args 0 in
       let d := arg args 1 in
       if negb (isNullish d) then obj1 "$round" (VArr [x; d])
       else obj1 "$round" (VArr [VStr "$$_internal"; VInt 0])) ].

Fixpoint lookupFunction (fns : FunctionTable) (name : string)
  : option (list value -> value) :=
  match fns with
  | [] => None
  | (k, impl) :: rest =>
      if String.eqb k name then Some impl else lookupFunction rest name
  end.

(** ** Projection expressions and aggregates *)

Definition mainTable (main : Table) : string :=
  or_default (t_alias main) (t_name main).

(** [functions] is [None] where the caller passes no table at all
    ([toMongoAgg]); indexing it is then a [TypeError]. *)
Fixpoint toMongoExpr (e : expr) (main : Table) (joins : list Join)
    (functions : option FunctionTable) : M value :=
  match e with
  | ENumber value => ret (VNum value)
  | EString value => ret (VStr value)
  | EBoolean value => ret (VBool value)
  | EParamPos | EParamNamed _ => bindValue e
  | EField _ _ _ =>
      q <- lift (qualifyField e (mainTable main)) ;;
      ret (VStr ("$" +:+ q_path q))
  | EAll => ret (VStr "$$ROOT")
  | ECall name args =>
      match functions with
      | None => throw (TypeError "Cannot read properties of undefined")
      | Some fns =>
          match lookupFunction fns (toUpperCase name) with
          | None => throw (Error ("Unknown function: " +:+ name))
          | Some fn =>
              vs <- (fix go (l : list expr) : M (list value) :=
                       match l with
                       | [] => ret []
                       | a :: l' =>
                           x <- toMongoExpr a main joins functions ;;
                           xs <- go l' ;;
                           ret (x :: xs)
                       end) args ;;
              ret (fn vs)
          end
      end
  | EBinary op left_ right_ =>
      l <- toMongoExpr left_ main joins functions ;;
      r <- toMongoExpr right_ main joins functions ;;
      if String.eqb op "+" then ret (obj1 "$add" (VArr [l; r]))
      else if String.eqb op "-" then ret (obj1 "$subtract" (VArr [l; r]))
      else if String.eqb op "*" then ret (obj1 "$multiply" (VArr [l; r]))
      else if String.eqb op "/" then ret (obj1 "$divide" (VArr [l; r]))
      else throw (Error ("Unsupported binary op in projection: " +:+ op))
  | _ => throw (Error ("Unsupported expression in projection: " +:+ type_of e))
  end.

(** [toMongoExpr] on an argument that may be missing: reading [expr.type]
    of [undefined] is a [TypeError]. *)
Definition toMongoExpr' (e : option expr) (main : Table) (joins : list Join)
    (functions : option FunctionTable) : M value :=
  match e with
  | None => throw (TypeError "Cannot read properties of undefined")
  | Some e => toMongoExpr e main joins functions
  end.

Definition isAll (e : option expr) : bool :=
  match e with Some EAll => true | _ => false end.

(** [toMongoAgg(callExpr, ...)] for [callExpr = { name, args }]. *)
Definition toMongoAgg (name : string) (args : list expr) (main : Table)
    (joins : list Join) : M value :=
  let name := toUpperCase name in
  let arg := args !! 0%nat in
  if String.eqb name "COUNT" then
    if bool_decide (arg = None) || isAll arg then ret (obj1 "$sum" (VInt 1))
    else
      x <- toMongoExpr' arg main joins None ;;
      ret (obj1 "$sum"
             (obj1 "$cond" (VArr [obj1 "$gt" (VArr [x; VNull]); VInt 1; VInt 0])))
  else if String.eqb name "SUM" then
    x <- toMongoExpr' arg main joins None ;; ret (obj1 "$sum" x)
  else if String.eqb name "AVG" then
    x <- toMongoExpr' arg main joins None ;; ret (obj1 "$avg" x)
  else if String.eqb name "MIN" then
    x <- toMongoExpr' arg main joins None ;; ret (obj1 "$min" x)
  else if String.eqb name "MAX" then
    x <- toMongoExpr' arg main joins None ;; ret (obj1 "$max" x)
  else throw (Error ("Unsupported aggregate " +:+ name)).

Definition buildHaving (e : expr) : M value :=
  match e with
  | EBinary op left_ right_ =>
      rightVal <- bindValue right_ ;;
      let key := match left_ with
                 | ECall name _ => toLowerCase name
                 | EField _ _ _ => projectKey left_
                 | _ => "expr"
                 end in
      let field := key in
      if String.eqb op "=" then ret (obj1 field rightVal)
      else if bool_decide (op = "!=" \/ op = "<>") then
        ret (obj1 field (obj1 "$ne" rightVal))
      else if String.eqb op ">" then ret (obj1 field (obj1 "$gt" rightVal))
      else if String.eqb op ">=" then ret (obj1 field (obj1 "$gte" rightVal))
      else if String.eqb op "<" then ret (obj1 field (obj1 "$lt" rightVal))
      else if String.eqb op "<=" then ret (obj1 field (obj1 "$lte" rightVal))
      else throw (Error "Unsupported HAVING operator")
  | _ => throw (Error "Unsupported HAVING")
  end.

(** ** The engine *)

(** [tables] maps a lower-cased table name to its collection. *)
Record MongoSQL := {
  tables : gmap string string;
  functions : FunctionTable
}.

Definition _getCollection (this : MongoSQL) (tableName : string) : result string :=
  match tables this !! toLowerCase tableName with
  | None => Throw (Error ("Unknown table: " +:+ tableName))
  | Some collection => Ok collection
  end.

(** [pipeline.push(stage)]. *)
Definition push (pipeline : list value) (stage : value) : list value :=
  pipeline ++ [stage].

Definition joinName (j : Join) : string :=
  or_default (t_alias (j_table j)) (t_name (j_table j)).

Definition isSelectAll (cols : list SelectItem) : bool :=
  match cols with
  | [c] => match sel_expr c with EAll => true | _ => false end
  | _ => false
  end.

Definition isAggregateCall (e : expr) : bool :=
  match e with
  | ECall name _ => isAggregate name
  | _ => false
  end.

Definition selectKey (sel : SelectItem) : string :=
  or_default (sel_alias sel) (exprAlias (sel_expr sel)).

(** One iteration of the [JOINS] loop. *)
Definition lowerJoin (this : MongoSQL) (main : Table)
    (pipeline : list value) (j : Join) : M (list value) :=
  if negb (String.eqb (j_type j) "INNER") && negb (String.eqb (j_type j) "LEFT")
  then throw (Error ("Unsupported JOIN type: " +:+ j_type j))
  else
    match j_on j with
    | Some (EBinary op left_ right_) =>
        if negb (String.eqb op "=") || negb (isField left_)
           || negb (isField right_) then
          throw (Error "JOIN ... ON must be equality between two fields")
        else
          localField <- lift (qualifyField left_ (mainTable main)) ;;
          foreignField <- lift (qualifyField right_ (joinName j)) ;;
          collectionName <- lift (_getCollection this (t_name (j_table j))) ;;
          let lookup :=
            obj1 "$lookup"
              (VObj [("from", VStr collectionName);
                     ("localField", VStr (q_field localField));
                     ("foreignField", VStr (q_field foreignField));
                     ("as", VStr (joinName j))]) in
          let pipeline := push pipeline lookup in
          if String.eqb (j_type j) "INNER" then
            ret (push pipeline
                   (obj1 "$unwind"
                      (VObj [("path", VStr ("$" +:+ joinName j));
                             ("preserveNullAndEmptyArrays", VBool false)])))
          else
            ret (push pipeline
                   (obj1 "$unwind"
                      (VObj [("path", VStr ("$" +:+ joinName j));
                             ("preserveNullAndEmptyArrays", VBool true)])))
    | _ => throw (Error "JOIN ... ON must be equality between two fields")
    end.

(** [_execSelect] up to the call of [col.aggregate]: the collection and the
    pipeline it is called with. *)
Definition _execSelect (this : MongoSQL) (ast : Select) : M (string * list value) :=
  let main := from ast in
  col <- lift (_getCollection this (t_name main)) ;;
  let pipeline := [] in
  (* WHERE *)
  pipeline <-
    match where_ ast with
    | Some w =>
        m <- buildMatch w (mainTable main) ;;
        ret (push pipeline (obj1 "$match" m))
    | None => ret pipeline
    end ;;
  (* JOINS *)
  pipeline <- forM (joins ast) (lowerJoin this main) pipeline ;;
  pipeline <-
    match groupBy ast with
    | _ :: _ =>
        (* GROUP BY *)
        idExpr <- forM (groupBy ast)
                    (fun idExpr g =>
                       x <- toMongoExpr g main (joins ast) (Some (functions this)) ;;
                       ret (objSet idExpr (projectKey g) x))
                    [] ;;
        group <- forM (columns ast)
                   (fun group sel =>
                      match sel_expr sel with
                      | ECall name args =>
                          if isAggregate name then
                            a <- toMongoAgg name args main (joins ast) ;;
                            ret (objSet group (selectKey sel) a)
                          else ret group
                      | _ => ret group
                      end)
                   [("_id", VObj idExpr)] ;;
        let pipeline := push pipeline (obj1 "$group" (VObj group)) in
        (* HAVING *)
        pipeline <-
          match having ast with
          | Some h => m <- buildHaving h ;; ret (push pipeline (obj1 "$match" m))
          | None => ret pipeline
          end ;;
        (* Re-project grouped keys to top-level fields *)
        let project :=
          fold_left (fun project k => objSet project k (VStr ("$_id." +:+ k)))
            (map fst idExpr) [] in
        let project :=
          fold_left (fun project sel =>
                       if isAggregateCall (sel_expr sel)
                       then objSet project (selectKey sel) (VInt 1)
                       else project)
            (columns ast) project in
        ret (push pipeline (obj1 "$project" (VObj project)))
    | [] =>
        (* No GROUP BY: simple projection *)
        if isSelectAll (columns ast) then ret pipeline
        else
          project <- forM (columns ast)
                       (fun project sel =>
                          x <- toMongoExpr (sel_expr sel) main (joins ast)
                                 (Some (functions this)) ;;
                          ret (objSet project (selectKey sel) x))
                       [] ;;
          ret (push pipeline (obj1 "$project" (VObj project)))
    end ;;
  (* ORDER BY *)
  let pipeline :=
    match orderBy ast with
    | _ :: _ =>
        let sort :=
          fold_left (fun sort ob =>
                       let key := if isField (ob_expr ob) then projectKey (ob_expr ob)
                                  else exprAlias (ob_expr ob) in
                       objSet sort key
                         (if String.eqb (ob_dir ob) "DESC" then VInt (-1) else VInt 1))
            (orderBy ast) [] in
        push pipeline (obj1 "$sort" (VObj sort))
    | [] => pipeline
    end in
  (* OFFSET / LIMIT *)
  let pipeline :=
    if Number_isFinite (offset ast) then push pipeline (obj1 "$skip" (offset ast))
    else pipeline in
  let pipeline :=
    if Number_isFinite (limit ast) then push pipeline (obj1 "$limit" (limit ast))
    else pipeline in
  ret (col, pipeline).

(** [_execUpdate] up to the call of [col.updateMany]. *)
Definition _execUpdate (this : MongoSQL) (table : string)
    (set : list Assignment) (where_ : option expr)
  : M (string * value * value) :=
  col <- lift (_getCollection this table) ;;
  filter <- buildMatch' where_ table ;;
  update <- buildUpdate set ;;
  ret (col, filter, update).

(** [_execDelete] up to the call of [col.deleteMany]. *)
Definition _execDelete (this : MongoSQL) (from : string) (where_ : option expr)
  : M (string * value) :=
  col <- lift (_getCollection this from) ;;
  filter <- buildMatch' where_ from ;;
  ret (col, filter).

(** [_execInsert] with [VALUES], up to the call of [col.insertMany]. *)
Definition _execInsert (this : MongoSQL) (into : string) (cols : list string)
    (values : list (list expr)) : M (string * list value) :=
  col <- lift (_getCollection this into) ;;
  docs <- mapM (fun row =>
                  doc <- forM (imap (fun i c => (i, c)) cols)
                           (fun doc '(i, c) =>
                              v <- bindValue' (row !! i) ;;
                              ret (objSet doc c v))
                           [] ;;
                  ret (VObj doc))
            values ;;
  ret (col, docs).

(** ** Tokenizer *)

Inductive token :=
| Teof
| Tstring (value : string)
| Tnumber (value : string)
| Tident (value : string)
| Tparam_named (value : string)
| Tparam_pos
| Top (value : string).

(** The tokenizer only reads [input] from index [i] on: [rest] is that
    unread suffix, empty once [i] has reached or passed the end.
    Characters are code units below 256. *)
Record Tokenizer := { rest : string; peeked : option token }.

Definition newTokenizer (input : string) : Tokenizer :=
  {| rest := input; peeked := None |}.

Definition in_range (lo hi : N) (c : ascii) : bool :=
  ((lo <=? ascii_code c) && (ascii_code c <=? hi))%N.

Definition _isSpace (c : ascii) : bool :=
  in_range 9 13 c || in_range 32 32 c || in_range 160 160 c.

Definition _isDigit (c : ascii) : bool := in_range 48 57 c.

Definition _isIdentStart (c : ascii) : bool :=
  in_range 65 90 c || in_range 97 122 c || Ascii.eqb c "_".

Definition _isIdent (c : ascii) : bool :=
  in_range 65 90 c || in_range 97 122 c || _isDigit c
  || Ascii.eqb c "_" || Ascii.eqb c "$".

Fixpoint takeWhile (p : ascii -> bool) (s : string) : string :=
  match s with
  | EmptyString => EmptyString
  | String c s' => if p c then String c (takeWhile p s') else EmptyString
  end.

Fixpoint dropWhile (p : ascii -> bool) (s : string) : string :=
  match s with
  | EmptyString => EmptyString
  | String c s' => if p c then dropWhile p s' else s
  end.

Definition startsWith (c : ascii) (s : string) : bool :=
  match s with
  | String x _ => Ascii.eqb x c
  | EmptyString => false
  end.

Definition newline : ascii := "010".
Definition backslash : ascii := "092".
Definition dquote : ascii := "034".

(** The scan for the end of a block comment: stops at [*/] or at the end. *)
Fixpoint skipBlock (s : string) : string :=
  match s with
  | EmptyString => EmptyString
  | String c s' =>
      if Ascii.eqb c "*" && startsWith "/" s' then s else skipBlock s'
  end.

(** The body of a string literal after its opening quote: the value and
    what follows the literal.  Past the end, [s[this.i++]] is [undefined],
    which [val +=] appends as text. *)
Fixpoint scanString (quote : ascii) (val : string) (s : string) : string * string :=
  match s with
  | EmptyString => (val, EmptyString)
  | String ch s' =>
      if Ascii.eqb ch backslash then
        match s' with
        | EmptyString => (val +:+ "undefined", EmptyString)
        | String c2 s'' => scanString quote (val +:+ String c2 EmptyString) s''
        end
      else if Ascii.eqb ch quote then (val, s')
      else scanString quote (val +:+ String ch EmptyString) s'
  end.

Definition twoOps : list string := [">="; "<="; "<>"; "!="].

Definition singles : string := ",().=*+/-<>".

Fixpoint includes (s : string) (c : ascii) : bool :=
  match s with
  | EmptyString => false
  | String x s' => Ascii.eqb x c || includes s' c
  end.

(** [next()] with nothing peeked, on the unread input [s]. *)
Fixpoint scan (fuel : nat) (s : string) : result (token * string) :=
  match fuel with
  | O => Throw OutOfFuel
  | S fuel' =>
      let s := dropWhile _isSpace s in
      match s with
      | EmptyString => Ok (Teof, EmptyString)
      | String c s1 =>
          if Ascii.eqb c "-" && startsWith "-" s1 then
            scan fuel' (dropWhile (fun x => negb (Ascii.eqb x newline)) s)
          else if Ascii.eqb c "/" && startsWith "*" s1 then
            scan fuel' (string_drop 2 (skipBlock (string_drop 2 s)))
          else if Ascii.eqb c "'" || Ascii.eqb c dquote then
            let '(val, r) := scanString c EmptyString s1 in
            Ok (Tstring val, r)
          else if _isDigit c then
            let p := fun x => _isDigit x || Ascii.eqb x "." in
            Ok (Tnumber (takeWhile p s), dropWhile p s)
          else if _isIdentStart c then
            Ok (Tident (takeWhile _isIdent s), dropWhile _isIdent s)
          else if Ascii.eqb c ":" then
            Ok (Tparam_named (takeWhile _isIdent s1), dropWhile _isIdent s1)
          else if Ascii.eqb c "?" then Ok (Tparam_pos, s1)
          else
            let two := string_take 2 s in
            if bool_decide (two ∈ twoOps) then Ok (Top two, string_drop 2 s)
            else if includes singles c then Ok (Top (String c EmptyString), s1)
            else Throw (Error ("Unexpected character: " +:+ String c EmptyString))
      end
  end.

Definition P : Type -> Type := State Tokenizer.

Definition next : P token :=
  fun t =>
    match peeked t with
    | Some tok => Ok (tok, {| rest := rest t; peeked := None |})
    | None =>
        match scan (S (String.length (rest t))) (rest t) with
        | Ok (tok, r) => Ok (tok, {| rest := r; peeked := None |})
        | Throw e => Throw e
        end
    end.

Definition peek : P token :=
  fun t =>
    match peeked t with
    | Some tok => Ok (tok, t)
    | None =>
        match next t with
        | Ok (tok, t') => Ok (tok, {| rest := rest t'; peeked := Some tok |})
        | Throw e => Throw e
        end
    end.

(** [Number(text)] for the text of a number token, a run of digits and
    dots that starts with a digit. *)
Fixpoint digitsZ (acc : Z) (s : string) : Z :=
  match s with
  | EmptyString => acc
  | String c s' => digitsZ (acc * 10 + Z.of_N (ascii_code c - 48)) s'
  end.

Definition Number_ (text : string) : number :=
  let ip := takeWhile _isDigit text in
  match dropWhile _isDigit text with
  | EmptyString => makeNumber (digitsZ 0 ip) 0
  | String "." fp =>
      if bool_decide (dropWhile _isDigit fp = EmptyString) then
        makeNumber (digitsZ 0 (ip +:+ fp)) (- Z.of_nat (String.length fp))
      else NaN
  | _ => NaN
  end.

(** ** Parser *)

Definition kwEq (a b : string) : bool := String.eqb (toUpperCase a) (toUpperCase b).

Definition _expectIdent : P string :=
  t <- next ;;
  match t with
  | Tident value => ret value
  | _ => throw (Error "Expected identifier")
  end.

Definition _peekIdent : P bool :=
  p <- peek ;; ret (match p with Tident _ => true | _ => false end).

Definition _maybeIdent : P (option string) :=
  p <- peek ;;
  match p with
  | Tident value => _ <- next ;; ret (Some value)
  | _ => ret None
  end.

Definition _expectKW (kw : string) : P string :=
  t <- _expectIdent ;;
  if kwEq t kw then ret t else throw (Error ("Expected " +:+ kw)).

Definition _eatKW (kw : string) : P bool :=
  p <- peek ;;
  match p with
  | Tident value => if kwEq value kw then _ <- next ;; ret true else ret false
  | _ => ret false
  end.

Definition _tryKW (kw : string) : P bool :=
  p <- peek ;;
  ret (match p with Tident value => kwEq value kw | _ => false end).

Definition _expectOp (op : string) : P string :=
  t <- next ;;
  match t with
  | Top value =>
      if String.eqb value op then ret value
      else throw (Error ("Expected '" +:+ op +:+ "'"))
  | _ => throw (Error ("Expected '" +:+ op +:+ "'"))
  end.

Definition _eatOp (op : string) : P bool :=
  p <- peek ;;
  match p with
  | Top value => if String.eqb value op then _ <- next ;; ret true else ret false
  | _ => ret false
  end.

(** [do { xs.push(item()) } while (this._eatOp(','))]. *)
Fixpoint commaList {A} (fuel : nat) (item : P A) : P (list A) :=
  match fuel with
  | O => throw OutOfFuel
  | S fuel' =>
      x <- item ;;
      more <- _eatOp "," ;;
      if more then xs <- commaList fuel' item ;; ret (x :: xs) else ret [x]
  end.

Definition parseField : P expr :=
  a <- _expectIdent ;;
  dot <- _eatOp "." ;;
  if dot then b <- _expectIdent ;; ret (EField (Some a) b None)
  else ret (EField None a None).

Definition parseUnary (parsePrimary : P expr) : P expr :=
  minus <- _eatOp "-" ;;
  if minus then x <- parsePrimary ;; ret (ECall "NEG" [x])
  else parsePrimary.

(** The [while (true)] loop of [parseMul] and [parseAdd] over the
    operators [ops]. *)
Fixpoint binaryLoop (fuel : nat) (ops : list string) (operand : P expr)
    (left_ : expr) : P expr :=
  match fuel with
  | O => throw OutOfFuel
  | S fuel' =>
      p <- peek ;;
      match p with
      | Top value =>
          if bool_decide (value ∈ ops) then
            _ <- next ;;
            right_ <- operand ;;
            binaryLoop fuel' ops operand (EBinary value left_ right_)
          else ret left_
      | _ => ret left_
      end
  end.

Definition parseMul (fuel : nat) (parseUnary : P expr) : P expr :=
  left_ <- parseUnary ;; binaryLoop fuel ["*"; "/"] parseUnary left_.

Definition parseAdd (fuel : nat) (parseMul : P expr) : P expr :=
  left_ <- parseMul ;; binaryLoop fuel ["+"; "-"] parseMul left_.

Definition parseComparison (fuel : nat) (parseAdd parseValue : P expr) : P expr :=
  left_ <- parseAdd ;;
  nxt <- peek ;;
  let kw := match nxt with Tident value => toUpperCase value | _ => EmptyString end in
  if String.eqb kw "IS" then
    _ <- next ;;
    neg <- _eatKW "NOT" ;;
    if neg then _ <- _expectKW "NULL" ;; ret (EBinary "IS NOT" left_ ENullKind)
    else _ <- _expectKW "NULL" ;; ret (EBinary "IS" left_ ENullKind)
  else if String.eqb kw "IN" then
    _ <- next ;;
    _ <- _expectOp "(" ;;
    closed <- _eatOp ")" ;;
    values <- (if closed then ret []
               else vs <- commaList fuel parseValue ;;
                    _ <- _expectOp ")" ;; ret vs) ;;
    ret (EBinary "IN" left_ (EArray values))
  else if String.eqb kw "BETWEEN" then
    _ <- next ;;
    from <- parseValue ;;
    _ <- _expectKW "AND" ;;
    to <- parseValue ;;
    ret (EBinary "BETWEEN" left_ (EBetween from to))
  else if String.eqb kw "LIKE" then
    _ <- next ;;
    pat <- parseValue ;;
    ret (EBinary "LIKE" left_ pat)
  else
    opTok <- peek ;;
    match opTok with
    | Top value =>
        if bool_decide (value ∈ ["="; "!="; "<>"; ">"; ">="; "<"; "<="]) then
          _ <- next ;;
          right_ <- parseAdd ;;
          ret (EBinary value left_ right_)
        else ret left_
    | _ => ret left_
    end.

Definition parseNot (parseComparison : P expr) : P expr :=
  neg <- _eatKW "NOT" ;;
  if neg then e <- parseComparison ;; ret (EUnary "NOT" e)
  else parseComparison.

(** The [while (this._eatKW(kw))] loop of [parseOr] and [parseAnd]. *)
Fixpoint keywordLoop (fuel : nat) (kw : string) (operand : P expr)
    (left_ : expr) : P expr :=
  match fuel with
  | O => throw OutOfFuel
  | S fuel' =>
      more <- _eatKW kw ;;
      if more then
        right_ <- operand ;;
        keywordLoop fuel' kw operand (EBinary kw left_ right_)
      else ret left_
  end.

Definition parseAnd (fuel : nat) (parseNot : P expr) : P expr :=
  left_ <- parseNot ;; keywordLoop fuel "AND" parseNot left_.

Definition parseOr (fuel : nat) (parseAnd : P expr) : P expr :=
  left_ <- parseAnd ;; keywordLoop fuel "OR" parseAnd left_.

(** [parseExpr] above a given [parsePrimary]. *)
Definition parseExprWith (fuel : nat) (parsePrimary : P expr) : P expr :=
  parseOr fuel
    (parseAnd fuel
       (parseNot
          (parseComparison fuel
             (parseAdd fuel (parseMul fuel (parseUnary parsePrimary)))
             parsePrimary))).

Fixpoint parsePrimary (fuel : nat) : P expr :=
  match fuel with
  | O => throw OutOfFuel
  | S fuel' =>
      let parseExpr := parseExprWith fuel' (parsePrimary fuel') in
      p <- peek ;;
      match p with
      | Tnumber value => _ <- next ;; ret (ENumber (Number_ value))
      | Tstring value => _ <- next ;; ret (EString value)
      | Tparam_pos => _ <- next ;; ret EParamPos
      | Tparam_named value => _ <- next ;; ret (EParamNamed value)
      | Tident _ =>
          id <- _expectIdent ;;
          let up := toUpperCase id in
          if String.eqb up "NULL" then ret ENull
          else if String.eqb up "TRUE" then ret (EBoolean true)
          else if String.eqb up "FALSE" then ret (EBoolean false)
          else
            call <- _eatOp "(" ;;
            if call then
              closed <- _eatOp ")" ;;
              args <- (if closed then ret []
                       else xs <- commaList fuel' parseExpr ;;
                            _ <- _expectOp ")" ;; ret xs) ;;
              ret (ECall id args)
            else
              dot <- _eatOp "." ;;
              if dot then id2 <- _expectIdent ;; ret (EField (Some id) id2 None)
              else ret (EField None id None)
      | _ =>
          paren <- _eatOp "(" ;;
          if paren then e <- parseExpr ;; _ <- _expectOp ")" ;; ret e
          else
            star <- _eatOp "*" ;;
            if star then ret EAll
            else throw (Error "Unexpected token in expression")
      end
  end.

Definition parseExpr (fuel : nat) : P expr :=
  parseExprWith fuel (parsePrimary fuel).

Definition parseValue (fuel : nat) : P expr := parsePrimary fuel.

Definition parseTableRef : P Table :=
  name <- _expectIdent ;;
  as_ <- _eatKW "AS" ;;
  if as_ then
    alias <- _expectIdent ;; ret {| t_name := name; t_alias := Some alias |}
  else
    id <- _peekIdent ;;
    if id then alias <- _maybeIdent ;; ret {| t_name := name; t_alias := alias |}
    else ret {| t_name := name; t_alias := None |}.

Definition parseTableRefNoAlias : P string := _expectIdent.

Definition parseSelectItem (fuel : nat) : P SelectItem :=
  star <- _eatOp "*" ;;
  if star then ret {| sel_expr := EAll; sel_alias := None |}
  else
    e <- parseExpr fuel ;;
    as_ <- _eatKW "AS" ;;
    if as_ then
      alias <- _expectIdent ;; ret {| sel_expr := e; sel_alias := Some alias |}
    else
      id <- _peekIdent ;;
      if id then alias <- _maybeIdent ;; ret {| sel_expr := e; sel_alias := alias |}
      else ret {| sel_expr := e; sel_alias := None |}.

Definition parseSelectList (fuel : nat) : P (list SelectItem) :=
  commaList fuel (parseSelectItem fuel).

Definition parseOrderByList (fuel : nat) : P (list OrderItem) :=
  commaList fuel
    (e <- parseExpr fuel ;;
     asc <- _eatKW "ASC" ;;
     if asc then ret {| ob_expr := e; ob_dir := "ASC" |}
     else
       desc <- _eatKW "DESC" ;;
       ret {| ob_expr := e; ob_dir := if desc then "DESC" else "ASC" |}).

Definition parseFieldList (fuel : nat) : P (list expr) := commaList fuel parseField.

Definition parseJoinCondition : P expr :=
  left_ <- parseField ;;
  op <- _expectOp "=" ;;
  right_ <- parseField ;;
  ret (EBinary op left_ right_).

Definition parseValueList (fuel : nat) : P (list expr) :=
  commaList fuel (parseValue fuel).

Definition parseIdentList (fuel : nat) : P (list string) :=
  commaList fuel _expectIdent.

Definition parseNumberLit : P value :=
  n <- next ;;
  match n with
  | Tnumber value => ret (VNum (Number_ value))
  | _ => throw (Error "Expected number")
  end.

(** The [while] loop over the joins of [parseSelect]. *)
Fixpoint parseJoins (fuel : nat) (joins : list Join) : P (list Join) :=
  match fuel with
  | O => throw OutOfFuel
  | S fuel' =>
      a <- _tryKW "JOIN" ;;
      b <- (if a then ret true else _tryKW "INNER JOIN") ;;
      c <- (if b then ret true else _tryKW "LEFT JOIN") ;;
      d <- (if c then ret true else _tryKW "LEFT OUTER JOIN") ;;
      if d then
        l1 <- _eatKW "LEFT" ;;
        l2 <- (if l1 then ret true else _eatKW "LEFT OUTER") ;;
        type <- (if l2 then ret "LEFT"
                 else
                   i <- _eatKW "INNER" ;;
                   if i then ret "INNER"
                   else
                     j <- _eatKW "JOIN" ;;
                     if j then ret "INNER"
                     else _ <- _expectKW "JOIN" ;; ret "INNER") ;;
        table <- parseTableRef ;;
        _ <- _expectKW "ON" ;;
        on <- parseJoinCondition ;;
        parseJoins fuel'
          (joins ++ [{| j_type := type; j_table := table; j_on := Some on |}])
      else ret joins
  end.

(** [parseSelect]; [parseSelectAfterInitial] has the same body. *)
Definition parseSelect (fuel : nat) : P Select :=
  columns <- parseSelectList fuel ;;
  _ <- _expectKW "FROM" ;;
  from <- parseTableRef ;;
  joins <- parseJoins fuel [] ;;
  w <- _eatKW "WHERE" ;;
  where_ <- (if w then e <- parseExpr fuel ;; ret (Some e) else ret None) ;;
  g <- _eatKW "GROUP" ;;
  groupBy <- (if g then _ <- _expectKW "BY" ;; parseFieldList fuel else ret []) ;;
  h <- _eatKW "HAVING" ;;
  having <- (if h then e <- parseExpr fuel ;; ret (Some e) else ret None) ;;
  o <- _eatKW "ORDER" ;;
  orderBy <- (if o then _ <- _expectKW "BY" ;; parseOrderByList fuel else ret []) ;;
  l <- _eatKW "LIMIT" ;;
  limit <- (if l then parseNumberLit else ret VNull) ;;
  f <- _eatKW "OFFSET" ;;
  offset <- (if f then parseNumberLit else ret VNull) ;;
  ret {| columns := columns; from := from; joins := joins; where_ := where_;
         groupBy := groupBy; having := having; orderBy := orderBy;
         limit := limit; offset := offset |}.

Definition parseSelectAfterInitial (fuel : nat) : P Select := parseSelect fuel.

Definition parseInsert (fuel : nat) : P statement :=
  _ <- _expectKW "INTO" ;;
  into <- parseTableRefNoAlias ;;
  paren <- _eatOp "(" ;;
  columns <- (if paren then ids <- parseIdentList fuel ;;
                            _ <- _expectOp ")" ;; ret ids
              else ret []) ;;
  v <- _eatKW "VALUES" ;;
  if v then
    values <- commaList fuel
                (_ <- _expectOp "(" ;;
                 row <- parseValueList fuel ;;
                 _ <- _expectOp ")" ;;
                 ret row) ;;
    ret (INSERT_VALUES into columns values)
  else
    s <- _eatKW "SELECT" ;;
    if s then
      select <- parseSelectAfterInitial fuel ;;
      ret (INSERT_SELECT into columns select)
    else throw (Error "INSERT supports VALUES or SELECT").

Definition parseUpdate (fuel : nat) : P statement :=
  table <- parseTableRefNoAlias ;;
  _ <- _expectKW "SET" ;;
  set <- commaList fuel
           (col <- _expectIdent ;;
            _ <- _expectOp "=" ;;
            value <- parseValue fuel ;;
            ret {| set_column := col; set_value := value |}) ;;
  w <- _eatKW "WHERE" ;;
  where_ <- (if w then e <- parseExpr fuel ;; ret (Some e) else ret None) ;;
  ret (UPDATE table set where_).

Definition parseDelete (fuel : nat) : P statement :=
  _ <- _expectKW "FROM" ;;
  from <- parseTableRefNoAlias ;;
  w <- _eatKW "WHERE" ;;
  where_ <- (if w then e <- parseExpr fuel ;; ret (Some e) else ret None) ;;
  ret (DELETE from where_).

Definition parseStatement (fuel : nat) : P statement :=
  tok <- _expectIdent ;;
  let kw := toUpperCase tok in
  if String.eqb kw "SELECT" then s <- parseSelect fuel ;; ret (SELECT s)
  else if String.eqb kw "INSERT" then parseInsert fuel
  else if String.eqb kw "UPDATE" then parseUpdate fuel
  else if String.eqb kw "DELETE" then parseDelete fuel
  else if String.eqb kw "BEGIN" then ret BEGIN
  else if String.eqb kw "COMMIT" then ret COMMIT
  else if String.eqb kw "ROLLBACK" then ret ROLLBACK
  else throw (Error ("Unsupported statement: " +:+ kw)).

(** ** The entry point *)

(** What [query] hands to the MongoDB driver. *)
Inductive command :=
| Begin
| Commit
| Rollback
| InsertMany (collection : string) (docs : list value)
| InsertFromAggregate (collection : string) (cols : list string)
    (source : string) (pipeline : list value)
| UpdateMany (collection : string) (filter update : value)
| DeleteMany (collection : string) (filter : value)
| Aggregate (collection : string) (pipeline : list value).

Definition execute (this : MongoSQL) (ast : statement) : M command :=
  match ast with
  | BEGIN => ret Begin
  | COMMIT => ret Commit
  | ROLLBACK => ret Rollback
  | INSERT_VALUES into cols values =>
      r <- _execInsert this into cols values ;;
      let '(col, docs) := r in
      ret (InsertMany col docs)
  | INSERT_SELECT into cols select =>
      col <- lift (_getCollection this into) ;;
      r <- _execSelect this select ;;
      let '(source, pipeline) := r in
      ret (InsertFromAggregate col cols source pipeline)
  | UPDATE table set where_ =>
      r <- _execUpdate this table set where_ ;;
      let '(col, filter, update) := r in
      ret (UpdateMany col filter update)
  | DELETE from where_ =>
      r <- _execDelete this from where_ ;;
      let '(col, filter) := r in
      ret (DeleteMany col filter)
  | SELECT s =>
      r <- _execSelect this s ;;
      let '(col, pipeline) := r in
      ret (Aggregate col pipeline)
  end.

(** [query(sql, namedParams, positionalParams)] up to the driver call.  The
    recursion bound of the parser is the length of the text. *)
Definition query (this : MongoSQL) (sql : string) (namedParams : gmap string value)
    (positionalParams : list value) : result command :=
  let fuel := S (String.length sql) in
  match parseStatement fuel (newTokenizer sql) with
  | Throw e => Throw e
  | Ok (ast, _) =>
      match execute this ast (newParamBinder namedParams positionalParams) with
      | Throw e => Throw e
      | Ok (cmd, _) => Ok cmd
      end
  end.

(** ** Source order of the positional markers

    The reading of "the n-th [?] in source order" that the lowering is
    compared with: markers are counted left to right through a node, and
    the marker with [k] markers before it stands for entry [n + k] of the
    positional list. *)

Fixpoint markers (e : expr) : nat :=
  match e with
  | EParamPos => 1
  | EArray values =>
      (fix go (l : list expr) : nat :=
         match l with [] => 0 | v :: l' => markers v + go l' end) values
  | EBetween from to => markers from + markers to
  | ECall _ args =>
      (fix go (l : list expr) : nat :=
         match l with [] => 0 | v :: l' => markers v + go l' end) args
  | EBinary _ left_ right_ => markers left_ + markers right_
  | EUnary _ operand => markers operand
  | _ => 0
  end.


(** Literals, [?] and lists of them. *)
Fixpoint simpleValue (e : expr) : bool :=
  match e with
  | ENumber _ | EString _ | EBoolean _ | ENull | EParamPos => true
  | EArray values =>
      (fix go (l : list expr) : bool :=
         match l with [] => true | v :: l' => simpleValue v && go l' end) values
  | _ => false
  end.

(** The value of a simple node whose first marker stands for entry [n]. *)
Fixpoint valueAt (ps : list value) (n : nat) (e : expr) : value :=
  match e with
  | EParamPos => default VUndefined (ps !! n)
  | ENumber value => VNum value
  | EString value => VStr value
  | EBoolean value => VBool value
  | EArray values =>
      VArr ((fix go (n : nat) (l : list expr) : list value :=
               match l with
               | [] => []
               | v :: l' => valueAt ps n v :: go (n + markers v) l'
               end) n values)
  | _ => VNull
  end.

Definition leafOps : list string :=
  ["="; "!="; "<>"; ">"; ">="; "<"; "<="; "IN"; "NOT IN"; "LIKE"].


Definition fieldPath (f : expr) (defaultTable : string) : string :=
  match qualifyField f defaultTable with
  | Ok q => q_path q
  | Throw _ => EmptyString
  end.

Definition leafFilter (op : string) (v : value) : value :=
  if String.eqb op "=" then v
  else if bool_decide (op = "!=" \/ op = "<>") then obj1 "$ne" v
  else if String.eqb op ">" then obj1 "$gt" v
  else if String.eqb op ">=" then obj1 "$gte" v
  else if String.eqb op "<" then obj1 "$lt" v
  else if String.eqb op "<=" then obj1 "$lte" v
  else if String.eqb op "IN" then obj1 "$in" (toArray v)
  else if String.eqb op "NOT IN" then obj1 "$nin" (toArray v)
  else likeToRegex (String_ v).



Definition advance (b : ParamBinder) (k : nat) : ParamBinder :=
  {| named := named b; positional := positional b; posIndex := posIndex b + k |}.

(** ** What the store does with the emitted operators

    The regular expressions that [likeToRegex] emits are made of [^], [$],
    [.], [.*] and escaped or plain literal characters.  Matching follows
    JavaScript's [RegExp]: [.] matches every character but a line
    terminator, [$] the end of the subject, and option [i] compares
    letters without case. *)

Inductive reItem :=
| ReChar (c : ascii)
| ReAny
| ReAnyStar.

(** The items after [^], up to the final [$]. *)
Fixpoint parseRegexBody (s : string) : option (list reItem) :=
  match s with
  | EmptyString => None
  | String c s' =>
      if Ascii.eqb c backslash then
        match s' with
        | String x s'' =>
            if isRegexMeta x then cons (ReChar x) <$> parseRegexBody s'' else None
        | EmptyString => None
        end
      else if Ascii.eqb c "$" then
        match s' with EmptyString => Some [] | _ => None end
      else if Ascii.eqb c "." then
        match s' with
        | String "*" s'' => cons ReAnyStar <$> parseRegexBody s''
        | _ => cons ReAny <$> parseRegexBody s'
        end
      else if isRegexMeta c then None
      else cons (ReChar c) <$> parseRegexBody s'
  end.

Definition parseRegex (s : string) : option (list reItem) :=
  match s with
  | String "^" body => parseRegexBody body
  | _ => None
  end.

Definition isLineTerminator (c : ascii) : bool :=
  Ascii.eqb c "010" || Ascii.eqb c "013".

Definition charMatches (ignoreCase : bool) (c x : ascii) : bool :=
  if ignoreCase then Ascii.eqb (toLowerChar c) (toLowerChar x) else Ascii.eqb c x.

Fixpoint matchItems (ignoreCase : bool) (items : list reItem) (s : string) : bool :=
  match items with
  | [] => match s with EmptyString => true | _ => false end
  | ReChar c :: items' =>
      match s with
      | String x s' => charMatches ignoreCase c x && matchItems ignoreCase items' s'
      | EmptyString => false
      end
  | ReAny :: items' =>
      match s with
      | String x s' => negb (isLineTerminator x) && matchItems ignoreCase items' s'
      | EmptyString => false
      end
  | ReAnyStar :: items' =>
      (fix star (s : string) : bool :=
         matchItems ignoreCase items' s
         || match s with
            | String x s' => negb (isLineTerminator x) && star s'
            | EmptyString => false
            end) s
  end.

(** The items of a pattern made of literal characters only. *)
Fixpoint literalItems (p : string) : list reItem :=
  match p with
  | EmptyString => []
  | String c p' => ReChar c :: literalItems p'
  end.

(** Whether the string [s] satisfies the filter [{ $regex, $options }]. *)
Definition regexTest (filter : value) (s : string) : bool :=
  match filter with
  | VObj [("$regex", VStr re); ("$options", VStr opts)] =>
      match parseRegex re with
      | Some items => matchItems (includes opts "i") items s
      | None => false
      end
  | _ => false
  end.

(** The character [c] does not occur in [s]. *)
Fixpoint absent (c : ascii) (s : string) : bool :=
  match s with
  | EmptyString => true
  | String x s' => negb (Ascii.eqb x c) && absent c s'
  end.

(** A LIKE pattern without [%] and [_]. *)
Definition noWildcard (p : string) : bool := absent "%" p && absent "_" p.

(** Equality of two strings without regard to the case of letters. *)
Fixpoint caselessEq (p s : string) : bool :=
  match p, s with
  | EmptyString, EmptyString => true
  | String a p', String b s' => charMatches true a b && caselessEq p' s'
  | _, _ => false
  end.

Fixpoint singleLine (s : string) : bool :=
  match s with
  | EmptyString => true
  | String c s' => negb (isLineTerminator c) && singleLine s'
  end.

Section accumulators.

(** The value of an operand of an aggregation expression in a document,
    as the store computes it. *)
Variable evalOperand : value -> value -> value.

(** What [{ $sum: e }] adds for one member of a group, for the two
    operands that COUNT compiles to: a constant, or
    [{ $cond: [{ $gt: [x, null] }, a, b] }].  In the store's order of
    values everything but a null or missing value is greater than null. *)
Definition sumIncrement (accumulator : value) (doc : value) : option Z :=
  match accumulator with
  | VObj [("$sum", VNum (Fin z 0))] => Some z
  | VObj [("$sum", VObj [("$cond", VArr [VObj [("$gt", VArr [x; VNull])];
                                          VNum (Fin a 0); VNum (Fin b 0)])])] =>
      Some (if isNullish (evalOperand doc x) then b else a)
  | _ => None
  end.

(** The value of the accumulator over the members of a group. *)
Fixpoint sumOver (accumulator : value) (docs : list value) : option Z :=
  match docs with
  | [] => Some 0%Z
  | d :: docs' =>
      match sumIncrement accumulator d, sumOver accumulator docs' with
      | Some x, Some y => Some (x + y)%Z
      | _, _ => None
      end
  end.

End accumulators.

(** A field path [$a.b] read in a document of nested objects;
    [VUndefined] when the field is missing. *)
Fixpoint getPath (doc : value) (path : list string) : value :=
  match path with
  | [] => doc
  | k :: path' =>
      match doc with
      | VObj props => getPath (objGet props k) path'
      | _ => VUndefined
      end
  end.

Fixpoint splitDots (cur : string) (s : string) : list string :=
  match s with
  | EmptyString => [cur]
  | String c s' =>
      if Ascii.eqb c "." then cur :: splitDots EmptyString s'
      else splitDots (cur +:+ String c EmptyString) s'
  end.

Definition readPath (doc : value) (operand : value) : value :=
  match operand with
  | VStr (String "$" path) => getPath doc (splitDots EmptyString path)
  | _ => operand
  end.

(** ** The layout of a SELECT pipeline *)

Definition lookupStage (collection localField foreignField as_ : string) : value :=
  obj1 "$lookup"
    (VObj [("from", VStr collection); ("localField", VStr localField);
           ("foreignField", VStr foreignField); ("as", VStr as_)]).

Definition unwindStage (as_ : string) (preserve : bool) : value :=
  obj1 "$unwind"
    (VObj [("path", VStr ("$" +:+ as_));
           ("preserveNullAndEmptyArrays", VBool preserve)]).

(** The two stages of the join [j]: the lookup on the names of the two
    fields of its [ON] equality, then the unwind of the alias. *)
Definition joinLowered (this : MongoSQL) (j : Join) (pair : list value) : Prop :=
  exists lt ln la rt rn ra collection preserve,
    j_on j = Some (EBinary "=" (EField lt ln la) (EField rt rn ra))
    /\ tables this !! toLowerCase (t_name (j_table j)) = Some collection
    /\ (preserve = true <-> j_type j = "LEFT")
    /\ (preserve = false <-> j_type j = "INNER")
    /\ pair = [lookupStage collection ln rn (joinName j);
               unwindStage (joinName j) preserve].

Definition skipStage (ast : Select) : list value :=
  if Number_isFinite (offset ast) then [obj1 "$skip" (offset ast)] else [].

Definition limitStage (ast : Select) : list value :=
  if Number_isFinite (limit ast) then [obj1 "$limit" (limit ast)] else [].

(** The stages of a SELECT compiled from the binder [b], in order: the
    filter of WHERE, a lookup and an unwind per join, the stages of GROUP
    BY or the projection, the sort, the skip and the limit. *)
Definition selectLayout (this : MongoSQL) (ast : Select) (b : ParamBinder)
    (pipeline : list value) : Prop :=
  exists wh pairs body so,
    pipeline = wh ++ concat pairs ++ body ++ so ++ skipStage ast ++ limitStage ast
    /\ match where_ ast with
       | Some w =>
           exists m b1,
             buildMatch w (mainTable (from ast)) b = Ok (m, b1)
             /\ wh = [obj1 "$match" m]
       | None => wh = []
       end
    /\ Forall2 (joinLowered this) (joins ast) pairs
    /\ match groupBy ast with
       | _ :: _ =>
           exists g hv p,
             body = [obj1 "$group" g] ++ hv ++ [obj1 "$project" p]
             /\ match having ast with
                | Some hx =>
                    exists h b2 b3,
                      buildHaving hx b2 = Ok (h, b3) /\ hv = [obj1 "$match" h]
                | None => hv = []
                end
       | [] =>
           if isSelectAll (columns ast) then body = []
           else exists p, body = [obj1 "$project" p]
       end
    /\ match orderBy ast with
       | _ :: _ => exists s, so = [obj1 "$sort" s]
       | [] => so = []
       end.

(** ** Unary minus *)

(** Whether a [Call] node named [NEG], as [parseUnary] makes them, occurs
    in an expression. *)
Fixpoint containsNeg (e : expr) : bool :=
  match e with
  | ECall name args =>
      String.eqb name "NEG"
      || (fix go (l : list expr) : bool :=
            match l with [] => false | a :: l' => containsNeg a || go l' end) args
  | EArray values =>
      (fix go (l : list expr) : bool :=
         match l with [] => false | a :: l' => containsNeg a || go l' end) values
  | EBetween from to => containsNeg from || containsNeg to
  | EBinary _ left_ right_ => containsNeg left_ || containsNeg right_
  | EUnary _ operand => containsNeg operand
  | _ => false
  end.

(** A table of functions without [NEG], or no table at all. *)
Definition lacksNeg (functions : option FunctionTable) : Prop :=
  forall fns, functions = Some fns -> lookupFunction fns (toUpperCase "NEG") = None.

(** ** Unterminated string literals *)

(** No closing [quote] in [s], the text after an opening quote. *)
Fixpoint unterminated (quote : ascii) (s : string) : bool :=
  match s with
  | EmptyString => true
  | String c s' =>
      if Ascii.eqb c backslash then
        match s' with
        | EmptyString => true
        | String _ s'' => unterminated quote s''
        end
      else if Ascii.eqb c quote then false
      else unterminated quote s'
  end.

(** The text with its escape markers resolved: each backslash is dropped
    and the character after it kept. *)
Fixpoint resolveEscapes (s : string) : string :=
  match s with
  | EmptyString => EmptyString
  | String c s' =>
      if Ascii.eqb c backslash then
        match s' with
        | EmptyString => EmptyString
        | String c2 s'' => String c2 (resolveEscapes s'')
        end
      else String c (resolveEscapes s')
  end.

(** The text ends with an escape marker that has nothing to escape. *)
Fixpoint danglingEscape (s : string) : bool :=
  match s with
  | EmptyString => false
  | String c s' =>
      if Ascii.eqb c backslash then
        match s' with
        | EmptyString => true
        | String _ s'' => danglingEscape s''
        end
      else danglingEscape s'
  end.

(** ** Sample data *)

Definition db : MongoSQL :=
  {| tables := {[ "users" := "users"; "orders" := "orders";
                  "products" := "products"; "t" := "t" ]};
     functions := buildBuiltinFunctions |}.


(** The AST of a SELECT statement text, if it parses. *)
Definition parseSelectText (sql : string) : option Select :=
  match parseStatement (S (String.length sql)) (newTokenizer sql) with
  | Ok (SELECT s, _) => Some s
  | _ => None
  end.

Definition sample_join_sql : string :=
  "SELECT u.name AS name, COUNT(o._id) AS orders FROM users u JOIN orders o ON o.userId = u._id WHERE u.age > 18 GROUP BY u.name HAVING orders > 3 ORDER BY orders DESC LIMIT 10 OFFSET 5".

Definition sample_join_select : Select :=
  default
    {| columns := []; from := {| t_name := EmptyString; t_alias := None |};
       joins := []; where_ := None; groupBy := []; having := None;
       orderBy := []; limit := VNull; offset := VNull |}
    (parseSelectText sample_join_sql).

Definition left_join : Join :=
  {| j_type := "LEFT";
     j_table := {| t_name := "orders"; t_alias := Some "o" |};
     j_on := Some (EBinary "=" (EField (Some "o") "userId" None)
                               (EField (Some "u") "_id" None)) |}.

Definition inner_join : Join :=
  {| j_type := "INNER";
     j_table := {| t_name := "products"; t_alias := None |};
     j_on := Some (EBinary "=" (EField None "sku" None)
                               (EField (Some "products") "sku" None)) |}.

Definition sample_two_joins : Select :=
  {| columns := [{| sel_expr := EAll; sel_alias := None |}];
     from := {| t_name := "users"; t_alias := Some "u" |};
     joins := [left_join; inner_join];
     where_ := None; groupBy := []; having := None; orderBy := [];
     limit := VNull; offset := VNull |}.

Definition comparisonOps : list string := ["="; "!="; "<>"; ">"; ">="; "<"; "<="].

Definition having_sql : string :=
  "SELECT city AS c, COUNT(*) AS n FROM users u GROUP BY city HAVING age > 3".

Definition dangling_input : string := "'abc" +:+ String backslash EmptyString.

Definition countAll : value := obj1 "$sum" (VInt 1).

Definition countField (x : value) : value :=
  obj1 "$sum" (obj1 "$cond" (VArr [obj1 "$gt" (VArr [x; VNull]); VInt 1; VInt 0])).


Definition sample_group : list value :=
  [VObj [("o", VObj [("_id", VInt 1)])];
   VObj [("o", VObj [("_id", VNull)])];
   VObj [("name", VStr "x")]].

Definition having_select : Select :=
  default
    {| columns := []; from := {| t_name := EmptyString; t_alias := None |};
       joins := []; where_ := None; groupBy := []; having := None;
       orderBy := []; limit := VNull; offset := VNull |}
    (parseSelectText having_sql).

(** ** Registering tables *)

(** [new MongoSQL({ db })]: no table yet, the built-in functions. *)
Definition newMongoSQL : MongoSQL :=
  {| tables := ∅; functions := buildBuiltinFunctions |}.

(** [registerTable(name, options)], where [collection] is
    [options.collection]: [None] when [options] or the property is
    missing.  The empty string is falsy as well. *)
Definition registerTable (this : MongoSQL) (name : string)
    (collection : option string) : result MongoSQL :=
  match collection with
  | Some c =>
      if String.eqb c EmptyString then
        Throw (Error "registerTable requires a collection")
      else
        Ok {| tables := <[toLowerCase name := c]> (tables this);
              functions := functions this |}
  | None => Throw (Error "registerTable requires a collection")
  end.

(** ** Transactions *)

(** The calls that [_begin], [_commit] and [_rollback] make on the driver. *)
Inductive driverCall :=
| StartSession
| StartTransaction
| CommitTransaction
| AbortTransaction
| EndSession.

(** The part of the engine that the transaction statements use:
    whether a client was given, whether [this.session] is set, and the
    calls made on the driver so far. *)
Record Connection := {
  client : bool;
  session : bool;
  calls : list driverCall
}.

Definition setSession (s : Connection) (active : bool) : Connection :=
  {| client := client s; session := active; calls := calls s |}.

(** Code that keeps the changes it made to the engine when it throws. *)
Definition T (A : Type) : Type := Connection -> result A * Connection.

Section driver.

(** Whether the driver rejects a call, given the calls made so far. *)
Variable rejects : list driverCall -> driverCall -> option exn.

Definition invoke (c : driverCall) : T unit :=
  fun s =>
    match rejects (calls s) c with
    | Some e => (Throw e, s)
    | None =>
        (Ok tt, {| client := client s; session := session s;
                   calls := calls s ++ [c] |})
    end.

Definition _begin : T value :=
  fun s =>
    if negb (client s) then
      (Throw (Error "BEGIN requires a Mongo client to create sessions"), s)
    else if session s then (Throw (Error "Transaction already started"), s)
    else
      match invoke StartSession s with
      | (Throw e, s) => (Throw e, s)
      | (Ok _, s) =>
          let s := setSession s true in
          match invoke StartTransaction s with
          | (Throw e, s) => (Throw e, s)
          | (Ok _, s) => (Ok (VObj [("ok", VInt 1); ("started", VBool true)]), s)
          end
      end.

Definition _commit : T value :=
  fun s =>
    if negb (session s) then (Throw (Error "No active transaction"), s)
    else
      match invoke CommitTransaction s with
      | (Throw e, s) => (Throw e, s)
      | (Ok _, s) =>
          match invoke EndSession s with
          | (Throw e, s) => (Throw e, s)
          | (Ok _, s) =>
              (Ok (VObj [("ok", VInt 1); ("committed", VBool true)]),
               setSession s false)
          end
      end.

Definition _rollback : T value :=
  fun s =>
    if negb (session s) then (Throw (Error "No active transaction"), s)
    else
      match invoke AbortTransaction s with
      | (Throw e, s) => (Throw e, s)
      | (Ok _, s) =>
          match invoke EndSession s with
          | (Throw e, s) => (Throw e, s)
          | (Ok _, s) =>
              (Ok (VObj [("ok", VInt 1); ("rolledBack", VBool true)]),
               setSession s false)
          end
      end.

(** The transaction part of [query]'s dispatch; the other statements
    leave the session as it is. *)
Definition transact (c : command) : T (option value) :=
  fun s =>
    match c with
    | Begin => let '(r, s) := _begin s in
               (match r with Ok v => Ok (Some v) | Throw e => Throw e end, s)
    | Commit => let '(r, s) := _commit s in
                (match r with Ok v => Ok (Some v) | Throw e => Throw e end, s)
    | Rollback => let '(r, s) := _rollback s in
                  (match r with Ok v => Ok (Some v) | Throw e => Throw e end, s)
    | _ => (Ok None, s)
    end.

(** A run of statements on one engine, whatever each of them returns. *)
Definition transactAll (cs : list command) (s : Connection) : Connection :=
  fold_left (fun s c => snd (transact c s)) cs s.

End driver.

(** A driver that rejects no call. *)
Definition reliable : list driverCall -> driverCall -> option exn :=
  fun _ _ => None.

(** The logs of driver calls in which every session is opened with its
    transaction, then committed or aborted once, then ended, one session
    at a time; the flag tells whether the last session is still open. *)
Inductive txLog : bool -> list driverCall -> Prop :=
| txLog_idle : txLog false []
| txLog_begin log :
    txLog false log -> txLog true (log ++ [StartSession; StartTransaction])
| txLog_commit log :
    txLog true log -> txLog false (log ++ [CommitTransaction; EndSession])
| txLog_rollback log :
    txLog true log -> txLog false (log ++ [AbortTransaction; EndSession]).

(** The sessions that a log of driver calls has started and not ended. *)
Fixpoint opened (log : list driverCall) : Z :=
  match log with
  | [] => 0
  | StartSession :: log' => opened log' + 1
  | EndSession :: log' => opened log' - 1
  | _ :: log' => opened log'
  end.

(** A driver that rejects every commit. *)
Definition neverCommits : list driverCall -> driverCall -> option exn :=
  fun _ c =>
    match c with
    | CommitTransaction => Some (Error "WriteConflict")
    | _ => None
    end.

(** ** INSERT rows *)

(** The row [row] cut or filled with NULL to [n] values. *)
Definition fitRow (n : nat) (row : list expr) : list expr :=
  take n (row ++ replicate n ENull).

(** The documents that [INSERT ... SELECT] builds from the rows of the
    select, [doc[c.name] = r[c.alias || c.name]]: the columns of an INSERT
    have no alias.  The rows are the plain objects that the driver
    returns. *)
Definition insertSelectDocs (cols : list string)
    (rows : list (list (string * value))) : list value :=
  map (fun r => VObj (fold_left (fun doc c => objSet doc c (propGet r c)) cols []))
      rows.

(** ** Whitespace and comments *)

Fixpoint allSpace (s : string) : bool :=
  match s with
  | EmptyString => true
  | String c s' => _isSpace c && allSpace s'
  end.

(** No [*/] in [s]. *)
Fixpoint noClose (s : string) : bool :=
  match s with
  | EmptyString => true
  | String c s' => negb (Ascii.eqb c "*" && startsWith "/" s') && noClose s'
  end.

(** Runs of whitespace, line comments up to their newline and closed
    block comments. *)
Inductive trivia : string -> Prop :=
| trivia_nil : trivia EmptyString
| trivia_space w s : allSpace w = true -> trivia s -> trivia (w +:+ s)
| trivia_line c s :
    absent newline c = true -> trivia s ->
    trivia ("--" +:+ c +:+ String newline s)
| trivia_block c s :
    noClose c = true -> trivia s -> trivia ("/*" +:+ c +:+ "*/" +:+ s).

(** The comments at the front of [s], between runs of whitespace: [next]
    skips each of them by a call of itself.  A comment takes a character at
    least, so [fuel] above the length of [s] counts them all. *)
Fixpoint comments (fuel : nat) (s : string) : nat :=
  match fuel with
  | O => 0
  | S fuel' =>
      match dropWhile _isSpace s with
      | EmptyString => 0
      | String c s1 =>
          if Ascii.eqb c "-" && startsWith "-" s1 then
            S (comments fuel'
                 (dropWhile (fun x => negb (Ascii.eqb x newline)) (String c s1)))
          else if Ascii.eqb c "/" && startsWith "*" s1 then
            S (comments fuel'
                 (string_drop 2 (skipBlock (string_drop 2 (String c s1)))))
          else 0
      end
  end.

Definition commentsAhead (s : string) : nat := comments (String.length s) s.

(** ** Parameters and the cursor *)

(** The binder [b] with more positional values after its own. *)
Definition extend (b : ParamBinder) (extra : list value) : ParamBinder :=
  {| named := named b; positional := positional b ++ extra;
     posIndex := posIndex b |}.

(** Code that only reads the parameters and moves the cursor forward,
    within the list, and that does not see the values past the cursor's
    last position. *)
Definition respects {A} (c : M A) : Prop :=
  forall b a b',
    c b = Ok (a, b') ->
    named b' = named b
    /\ positional b' = positional b
    /\ posIndex b <= posIndex b'
    /\ (posIndex b <= length (positional b) -> posIndex b' <= length (positional b))
    /\ forall extra, c (extend b extra) = Ok (a, extend b' extra).

(** The nodes that [bindValue] has no case for. *)
Definition unbound (e : expr) : bool :=
  match e with
  | EField _ _ _ | ECall _ _ | EBinary _ _ _ | EUnary _ _ | EAll | ENullKind => true
  | _ => false
  end.

(** Whether a function call occurs in an arithmetic expression. *)
Fixpoint containsCall (e : expr) : bool :=
  match e with
  | ECall _ _ => true
  | EBinary _ left_ right_ => containsCall left_ || containsCall right_
  | _ => false
  end.

(** ** LIKE patterns *)

(** The pattern as the store's matcher reads it: [%], [_] and the other
    characters. *)
Fixpoint likeItems (p : string) : list reItem :=
  match p with
  | EmptyString => []
  | String c p' =>
      (if Ascii.eqb c "%" then ReAnyStar
       else if Ascii.eqb c "_" then ReAny
       else ReChar c) :: likeItems p'
  end.

(** SQL's LIKE without regard to the case of letters: [%] stands for any
    run of characters, [_] for one character, and no character escapes
    them. *)
Fixpoint likeMatch (p : string) (s : string) {struct p} : bool :=
  match p with
  | EmptyString => match s with EmptyString => true | _ => false end
  | String c p' =>
      if Ascii.eqb c "%" then
        (fix star (s : string) : bool :=
           likeMatch p' s
           || match s with
              | String _ s' => star s'
              | EmptyString => false
              end) s
      else
        match s with
        | String x s' =>
            (Ascii.eqb c "_" || charMatches true c x) && likeMatch p' s'
        | EmptyString => false
        end
  end.

(** ** More sample data *)

Definition inner_join_sql : string :=
  "SELECT * FROM users u JOIN orders o ON o.userId = u._id JOIN products p ON sku = p.sku".

Definition grouped_sql : string :=
  "SELECT city, UPPER(city) AS shout, -x AS neg, COUNT(*) AS n FROM users u GROUP BY city".

Definition grouped_select : Select :=
  default
    {| columns := []; from := {| t_name := EmptyString; t_alias := None |};
       joins := []; where_ := None; groupBy := []; having := None;
       orderBy := []; limit := VNull; offset := VNull |}
    (parseSelectText grouped_sql).

Definition ungrouped_count : Select :=
  {| columns := [{| sel_expr := ECall "count" [EAll]; sel_alias := Some "n" |}];
     from := {| t_name := "users"; t_alias := Some "u" |};
     joins := []; where_ := None; groupBy := []; having := None; orderBy := [];
     limit := VNull; offset := VNull |}.

(** ** Progress of the parser *)

(** What is left to read: the characters of the unread input, and the
    token that was peeked unless it is the end of the input. *)
Definition pending (t : Tokenizer) : nat :=
  match peeked t with
  | Some Teof | None => 0
  | Some _ => 1
  end + String.length (rest t).

(** From the tokenizer [t] the parser [p] does not reach the recursion
    bound of the model, and it gives no input back. *)
Definition ok {A} (p : P A) (t : Tokenizer) : Prop :=
  p t <> Throw OutOfFuel
  /\ forall a t', p t = Ok (a, t') -> pending t' <= pending t.

(** [p] is [ok] when less than [bound] is left to read. *)
Definition safe {A} (bound : nat) (p : P A) : Prop :=
  forall t, pending t < bound -> ok p t.

(** [p] reads at least one token when it succeeds. *)
Definition consumes {A} (p : P A) : Prop :=
  forall t a t', p t = Ok (a, t') -> pending t' < pending t.

(** [p] and [q] do the same when less than [bound] is left to read. *)
Definition agree {A} (bound : nat) (p q : P A) : Prop :=
  forall t, pending t < bound -> p t = q t.

(** Code over the binder that throws JavaScript exceptions only. *)
Definition jsOnly {A} (c : M A) : Prop := forall b, c b <> Throw OutOfFuel.

(** ** ORDER BY *)

(** The item with the table qualifier of its column removed. *)
Definition unqualified (ob : OrderItem) : OrderItem :=
  match ob_expr ob with
  | EField _ name alias =>
      {| ob_expr := EField None name alias; ob_dir := ob_dir ob |}
  | _ => ob
  end.

(** ** The joins that the parser builds *)

Definition equalityOfFields (e : expr) : bool :=
  match e with
  | EBinary op (EField _ _ _) (EField _ _ _) => String.eqb op "="
  | _ => false
  end.

(** An INNER join on an equality of two fields. *)
Definition parsedJoin (j : Join) : bool :=
  String.eqb (j_type j) "INNER"
  && match j_on j with
     | Some e => equalityOfFields e
     | None => false
     end.

(** The SELECT statement in the comment that heads the source file. *)
Definition header_sql : string :=
  "SELECT u._id as userId, u.name, COUNT(o._id) AS orders FROM users u LEFT JOIN orders o ON o.userId = u._id WHERE u.country = :country GROUP BY u._id, u.name HAVING COUNT(o._id) > ? ORDER BY orders DESC LIMIT 10 OFFSET 0".

(** The same statement with [JOIN] for [LEFT JOIN]. *)
Definition header_join_sql : string :=
  "SELECT u._id as userId, u.name, COUNT(o._id) AS orders FROM users u JOIN orders o ON o.userId = u._id WHERE u.country = :country GROUP BY u._id, u.name HAVING COUNT(o._id) > ? ORDER BY orders DESC LIMIT 10 OFFSET 0".

Definition header_select : Select :=
  default
    {| columns := []; from := {| t_name := EmptyString; t_alias := None |};
       joins := []; where_ := None; groupBy := []; having := None;
       orderBy := []; limit := VNull; offset := VNull |}
    (parseSelectText header_join_sql).

Definition sorted_sql : string :=
  "SELECT * FROM users u WHERE u.age > 1 ORDER BY u.age DESC, name".

Definition sorted_select : Select :=
  default
    {| columns := []; from := {| t_name := EmptyString; t_alias := None |};
       joins := []; where_ := None; groupBy := []; having := None;
       orderBy := []; limit := VNull; offset := VNull |}
    (parseSelectText sorted_sql).
(** * Properties *)

(** ** Stepping through sequenced code *)

Lemma bind_Ok {S A B} (c : State S A) (k : A -> State S B) s r :
  bind c k s = Ok r -> exists a s', c s = Ok (a, s') /\ k a s' = Ok r.
Proof.
  unfold bind. destruct (c s) as [[a s']|e]; [|discriminate].
  intros H. eauto.
Qed.

Lemma ret_Ok {S A} (a : A) (s : S) r : ret a s = Ok r -> r = (a, s).
Proof. unfold ret. congruence. Qed.

Lemma lift_Ok {S A} (x : result A) (s : S) r :
  lift x s = Ok r -> exists a, x = Ok a /\ r = (a, s).
Proof. unfold lift. destruct x; [|discriminate]. intros [= <-]. eauto. Qed.

Ltac step H :=
  let a := fresh "a" in
  let s := fresh "s" in
  let H1 := fresh "Hstep" in
  apply bind_Ok in H as (a & s & H1 & H).

Tactic Notation "bstep" hyp(H) "as" ident(a) ident(s) ident(H1) :=
  apply bind_Ok in H as (a & s & H1 & H).

Lemma string_eqb_true a b : String.eqb a b = true -> a = b.
Proof. apply String.eqb_eq. Qed.

Lemma string_eqb_false a b : String.eqb a b = false -> a <> b.
Proof. apply String.eqb_neq. Qed.

(** ** Positional parameters *)

Lemma advance_0 b : advance b 0 = b.
Proof. destruct b; unfold advance; simpl; f_equal; lia. Qed.

Lemma advance_advance b j k : advance (advance b j) k = advance b (j + k).
Proof. unfold advance; simpl; f_equal; lia. Qed.

Lemma nextPositional_spec b :
  nextPositional b =
    match positional b !! posIndex b with
    | Some v => Ok (v, advance b 1)
    | None => Throw (Error "Not enough positional params")
    end.
Proof.
  unfold nextPositional, advance.
  destruct (decide (length (positional b) <= posIndex b)) as [Hge|Hlt].
  - rewrite (lookup_ge_None_2 _ _ Hge). reflexivity.
  - destruct (lookup_lt_is_Some_2 (positional b) (posIndex b)) as [v Hv]; [lia|].
    rewrite Hv. simpl. do 3 f_equal. lia.
Qed.

(** Binding a simple node takes its markers' values from the cursor on,
    left to right, or fails when too few are left. *)
Lemma bindValue_simple e :
  simpleValue e = true ->
  forall b, posIndex b <= length (positional b) ->
  bindValue e b =
    if decide (posIndex b + markers e <= length (positional b)) then
      Ok (valueAt (positional b) (posIndex b) e, advance b (markers e))
    else Throw (Error "Not enough positional params").
Proof.
  induction e using expr_ind; simpl; try discriminate; intros Hs b Hb;
    try (rewrite Nat.add_0_r, decide_True by lia; rewrite advance_0; reflexivity).
  - (* ? *)
    rewrite nextPositional_spec.
    destruct (decide (posIndex b + 1 <= length (positional b))) as [Hle|Hgt].
    + destruct (lookup_lt_is_Some_2 (positional b) (posIndex b)) as [v Hv]; [lia|].
      rewrite Hv. reflexivity.
    + rewrite lookup_ge_None_2 by lia. reflexivity.
  - (* Array *)
    unfold bind at 1.
    set (goB := fix go (l : list expr) : M (list value) :=
                  match l with
                  | [] => ret []
                  | v :: l' => x <- bindValue v;; xs <- go l';; ret (x :: xs)
                  end).
    set (goM := fix go (l : list expr) : nat :=
                  match l with [] => 0 | v :: l' => markers v + go l' end).
    set (goV := fix go (n : nat) (l : list expr) : list value :=
                  match l with
                  | [] => []
                  | v :: l' => valueAt (positional b) n v :: go (n + markers v) l'
                  end).
    set (goS := fix go (l : list expr) : bool :=
                  match l with [] => true | v :: l' => simpleValue v && go l' end) in Hs.
    assert (Hgo : forall b', positional b' = positional b ->
              posIndex b' <= length (positional b') ->
              goB vs b' =
                if decide (posIndex b' + goM vs <= length (positional b')) then
                  Ok (goV (posIndex b') vs, advance b' (goM vs))
                else Throw (Error "Not enough positional params")).
    { clear Hb. induction vs as [|v vs IHvs]; intros b' Hp Hb'; simpl.
      - rewrite Nat.add_0_r, decide_True by lia. rewrite advance_0. reflexivity.
      - simpl in Hs. apply andb_prop in Hs as [Hv Hvs].
        inversion H as [|? ? HQv HQvs]; subst.
        unfold bind at 1. rewrite (HQv Hv b' Hb').
        destruct (decide (posIndex b' + markers v <= length (positional b'))) as [Hle|Hgt].
        + unfold bind at 1.
          rewrite (IHvs HQvs Hvs (advance b' (markers v))); [|exact Hp|simpl; lia].
          simpl.
          destruct (decide (posIndex b' + markers v + goM vs <= length (positional b')))
            as [Hle2|Hgt2].
          * rewrite decide_True by lia. unfold ret. rewrite Hp, advance_advance.
            reflexivity.
          * rewrite decide_False by lia. reflexivity.
        + rewrite decide_False by lia. reflexivity. }
    rewrite (Hgo b eq_refl Hb).
    destruct (decide (posIndex b + goM vs <= length (positional b))); reflexivity.
Qed.

Lemma qualifyField_field f dt :
  isField f = true ->
  exists q, qualifyField f dt = Ok q /\ q_path q = fieldPath f dt.
Proof.
  destruct f; try discriminate. intros _.
  eexists; split; reflexivity.
Qed.


(** A comparison leaf of a simple WHERE clause. *)
Lemma buildMatch_leaf op l r dt b :
  isField l = true -> op ∈ leafOps -> simpleValue r = true ->
  posIndex b <= length (positional b) ->
  buildMatch (EBinary op l r) dt b =
    if decide (posIndex b + markers r <= length (positional b)) then
      Ok (obj1 (fieldPath l dt) (leafFilter op (valueAt (positional b) (posIndex b) r)),
          advance b (markers r))
    else Throw (Error "Not enough positional params").
Proof.
  intros Hf Hop Hr Hb.
  assert (Hnot : bool_decide (op = "AND" \/ op = "OR") = false).
  { apply bool_decide_eq_false.
    intros [->| ->]; apply list_elem_of_In in Hop; simpl in Hop;
      intuition discriminate. }
  destruct (qualifyField_field l dt Hf) as (q & Hq & Hpath).
  cbn [buildMatch]. rewrite Hnot, Hf.
  unfold bind at 1. rewrite Hq. cbn [lift]. rewrite Hpath.
  unfold bind at 1. rewrite (bindValue_simple r Hr b Hb).
  destruct (decide (posIndex b + markers r <= length (positional b))); [|reflexivity].
  unfold leafOps in Hop. set_unfold.
  destruct Hop as [->|[->|[->|[->|[->|[->|[->|[->|[->|[->|[]]]]]]]]]]]; reflexivity.
Qed.




(** ** Joins *)

Lemma lowerJoin_Ok this main pipeline j b r :
  lowerJoin this main pipeline j b = Ok r ->
  exists pair, r = (pipeline ++ pair, b) /\ joinLowered this j pair.
Proof.
  unfold lowerJoin.
  destruct (String.eqb (j_type j) "INNER") eqn:HI;
    destruct (String.eqb (j_type j) "LEFT") eqn:HL; simpl;
    try discriminate.
  all: destruct (j_on j) as [[]|] eqn:Hon; try discriminate.
  all: destruct (String.eqb op "=") eqn:Hop; simpl; try discriminate.
  all: apply string_eqb_true in Hop; subst op.
  all: destruct left_; simpl; try discriminate.
  all: destruct right_; simpl; try discriminate.
  all: intros H; step H; apply lift_Ok in Hstep as (? & ? & ?); simplify_eq.
  all: step H; apply lift_Ok in Hstep as (? & ? & ?); simplify_eq.
  all: step H; apply lift_Ok in Hstep as (c & Hc & ?); simplify_eq.
  all: unfold _getCollection in Hc;
    destruct (tables this !! toLowerCase (t_name (j_table j))) as [coll|] eqn:Hcoll;
    [|discriminate]; simplify_eq.
  all: apply ret_Ok in H; subst r; unfold push; rewrite <- app_assoc; simpl.
  all: eexists; split; [reflexivity|].
  all: unfold joinLowered; do 8 eexists.
  all: split; [exact Hon|]; split; [exact Hcoll|].
  all: split; [|split; [|reflexivity]].
  all: apply String.eqb_eq in HI || apply String.eqb_neq in HI.
  all: apply String.eqb_eq in HL || apply String.eqb_neq in HL.
  all: split; intros; congruence.
Qed.

Lemma joins_Ok this main js :
  forall pipeline b r,
  forM js (lowerJoin this main) pipeline b = Ok r ->
  exists pairs, r = (pipeline ++ concat pairs, b)
                /\ Forall2 (joinLowered this) js pairs.
Proof.
  induction js as [|j js IH]; intros pipeline b r H; simpl in H.
  - apply ret_Ok in H. subst r. exists []. simpl. rewrite app_nil_r. auto.
  - step H. apply lowerJoin_Ok in Hstep as (pair & [= -> ->] & Hpair).
    apply IH in H as (pairs & -> & Hpairs).
    exists (pair :: pairs). simpl. rewrite app_assoc. auto.
Qed.

(** ** The layout of the pipeline *)

Lemma execSelect_layout this ast b col pipeline b' :
  _execSelect this ast b = Ok ((col, pipeline), b') ->
  selectLayout this ast b pipeline.
Proof.
  unfold _execSelect. intros H.
  bstep H as c0 s0 Hcol. apply lift_Ok in Hcol as (? & _ & [= _ ->]).
  bstep H as wh s1 Hwh.
  bstep H as p2 s2 Hjoins. apply joins_Ok in Hjoins as (pairs & [= -> ->] & Hpairs).
  bstep H as p3 s3 Hbody.
  apply ret_Ok in H. injection H as _ Hp _.
  assert (Hwh' : match where_ ast with
                 | Some w =>
                     exists m b1,
                       buildMatch w (mainTable (from ast)) b = Ok (m, b1)
                       /\ wh = [obj1 "$match" m]
                 | None => wh = []
                 end).
  { destruct (where_ ast).
    - bstep Hwh as m s4 Hm. apply ret_Ok in Hwh. injection Hwh as -> _. eauto.
    - apply ret_Ok in Hwh. injection Hwh as -> _. reflexivity. }
  assert (Hbody' : exists body, p3 = wh ++ concat pairs ++ body /\
            match groupBy ast with
            | _ :: _ =>
                exists g hv p,
                  body = [obj1 "$group" g] ++ hv ++ [obj1 "$project" p]
                  /\ match having ast with
                     | Some hx =>
                         exists h b2 b3,
                           buildHaving hx b2 = Ok (h, b3)
                           /\ hv = [obj1 "$match" h]
                     | None => hv = []
                     end
            | [] =>
                if isSelectAll (columns ast) then body = []
                else exists p, body = [obj1 "$project" p]
            end).
  { destruct (groupBy ast) as [|g0 gs].
    - destruct (isSelectAll (columns ast)).
      + apply ret_Ok in Hbody. injection Hbody as -> _.
        exists []. rewrite app_nil_r. auto.
      + bstep Hbody as pr s4 Hpr. apply ret_Ok in Hbody. injection Hbody as -> _.
        unfold push. rewrite <- !app_assoc.
        eexists. split; [reflexivity|]. eauto.
    - bstep Hbody as idExpr s4 Hid. bstep Hbody as group s5 Hgroup.
      bstep Hbody as p4 s6 Hhaving.
      apply ret_Ok in Hbody. injection Hbody as -> _.
      destruct (having ast).
      + bstep Hhaving as h s7 Hh. apply ret_Ok in Hhaving.
        injection Hhaving as -> _.
        unfold push. rewrite <- !app_assoc.
        eexists. split; [reflexivity|].
        do 3 eexists. split; [reflexivity|]. eauto.
      + apply ret_Ok in Hhaving. injection Hhaving as -> _.
        unfold push. rewrite <- !app_assoc.
        eexists. split; [reflexivity|].
        eexists _, [], _. split; reflexivity. }
  destruct Hbody' as (body & -> & Hbody').
  exists wh, pairs, body,
    (match orderBy ast with
     | _ :: _ =>
         [obj1 "$sort"
            (VObj
               (fold_left
                  (fun sort ob =>
                     objSet sort
                       (if isField (ob_expr ob) then projectKey (ob_expr ob)
                        else exprAlias (ob_expr ob))
                       (if String.eqb (ob_dir ob) "DESC" then VInt (-1) else VInt 1))
                  (orderBy ast) []))]
     | [] => []
     end).
  split; [|split; [exact Hwh'|split; [exact Hpairs|split; [exact Hbody'|]]]].
  - rewrite Hp. unfold skipStage, limitStage, push.
    destruct (orderBy ast); destruct (Number_isFinite (offset ast));
      destruct (Number_isFinite (limit ast));
      rewrite <- ?app_assoc, ?app_nil_r; reflexivity.
  - destruct (orderBy ast); eauto.
Qed.






(** C2 (amended).  The stages of every compiled SELECT pipeline come in
    this order: the match stage of WHERE if there is one; a lookup and an
    unwind per join, in the order of the joins; with GROUP BY the group
    stage, the match stage of HAVING if there is one and the
    re-projection, without GROUP BY the projection of the select list,
    left out for the single wildcard; the sort stage of ORDER BY; the skip
    stage of OFFSET and then the limit stage of LIMIT, each present exactly
    when its value is a finite number, whole or not. *)
Theorem C2_pipeline_stage_order this ast b col pipeline b' :
  _execSelect this ast b = Ok ((col, pipeline), b') ->
  exists wh pairs body so,
    pipeline = wh ++ concat pairs ++ body ++ so ++ skipStage ast ++ limitStage ast
    /\ match where_ ast with
       | Some _ => exists m, wh = [obj1 "$match" m]
       | None => wh = []
       end
    /\ Forall2 (joinLowered this) (joins ast) pairs
    /\ match groupBy ast with
       | _ :: _ =>
           exists g hv p,
             body = [obj1 "$group" g] ++ hv ++ [obj1 "$project" p]
             /\ match having ast with
                | Some _ => exists h, hv = [obj1 "$match" h]
                | None => hv = []
                end
       | [] =>
           if isSelectAll (columns ast) then body = []
           else exists p, body = [obj1 "$project" p]
       end
    /\ match orderBy ast with
       | _ :: _ => exists s, so = [obj1 "$sort" s]
       | [] => so = []
       end.
Proof.
  intros H.
  apply execSelect_layout in H as (wh & pairs & body & so & Hp & Hwh & Hj & Hb & Hs).
  exists wh, pairs, body, so.
  split; [exact Hp|]. split; [|split; [exact Hj|split; [|exact Hs]]].
  - destruct (where_ ast); [|exact Hwh].
    destruct Hwh as (m & b1 & _ & Hwh). eauto.
  - destruct (groupBy ast); [exact Hb|].
    destruct Hb as (g & hv & pr & Hbody & Hh). exists g, hv, pr.
    split; [exact Hbody|]. destruct (having ast); [|exact Hh].
    destruct Hh as (h & b2 & b3 & _ & Hh). eauto.
Qed.

Lemma C2_pipeline_stage_order_witness :
  parseSelectText sample_join_sql = Some sample_join_select
  /\ exists col pipeline b',
       _execSelect db sample_join_select (newParamBinder ∅ [])
       = Ok ((col, pipeline), b')
       /\ length pipeline = 9
       /\ exists wh pairs body so,
            pipeline = wh ++ concat pairs ++ body ++ so
                       ++ skipStage sample_join_select
                       ++ limitStage sample_join_select
            /\ length wh = 1 /\ length pairs = 1 /\ length body = 3
            /\ length so = 1.
Proof.
  split; [vm_compute; reflexivity|].
  eexists _, _, _. split; [vm_compute; reflexivity|].
  split; [reflexivity|].
  edestruct (C2_pipeline_stage_order db sample_join_select (newParamBinder ∅ []))
    as (wh & pairs & body & so & Hp & Hwh & Hj & Hb & Hs);
    [vm_compute; reflexivity|].
  exists wh, pairs, body, so. split; [exact Hp|].
  cbn in Hwh, Hj, Hb, Hs.
  destruct Hwh as [m ->]. destruct Hb as (g & hv & pr & -> & [h ->]).
  destruct Hs as [s ->]. apply Forall2_length in Hj.
  repeat split; try reflexivity. symmetry. exact Hj.
Defined.

(** C2 as stated fails: [LIMIT 1.5] is not a whole number, and the limit
    stage is emitted all the same. *)
Lemma C2_counterexample :
  Number_isInteger (VNum (Number_ "1.5")) = false
  /\ query db "SELECT * FROM t AS t LIMIT 1.5" ∅ []
     = Ok (Aggregate "t" [obj1 "$limit" (VNum (Number_ "1.5"))]).
Proof. split; vm_compute; reflexivity. Qed.

(** The lowering of one join that is well formed. *)
Lemma lowerJoin_emits this main pipeline j b lt ln la rt rn ra collection :
  j_on j = Some (EBinary "=" (EField lt ln la) (EField rt rn ra)) ->
  tables this !! toLowerCase (t_name (j_table j)) = Some collection ->
  j_type j = "INNER" \/ j_type j = "LEFT" ->
  lowerJoin this main pipeline j b =
    Ok (pipeline ++ [lookupStage collection ln rn (joinName j);
                     unwindStage (joinName j) (bool_decide (j_type j = "LEFT"))],
        b).
Proof.
  intros Hon Hcoll Htype. unfold lowerJoin, _getCollection.
  rewrite Hon, Hcoll.
  destruct Htype as [Ht|Ht]; rewrite Ht; simpl;
    unfold bind, lift, ret, push; rewrite <- app_assoc; reflexivity.
Qed.

(** C6.  In every compiled SELECT pipeline each join of the statement has,
    after the match stage of WHERE and in the order of the joins, its
    lookup stage immediately followed by its unwind stage: the lookup reads
    the collection of the joined table, is keyed by the names of the two
    fields of the ON equality (the left one local, the right one foreign)
    and stores the matches under the join alias; the unwind is over that
    alias and preserves null and empty exactly when the join is LEFT, and
    drops the rows without a match exactly when it is INNER. *)
Theorem C6_join_lookup_then_unwind this ast b col pipeline b' :
  _execSelect this ast b = Ok ((col, pipeline), b') ->
  exists wh pairs rest,
    pipeline = wh ++ concat pairs ++ rest
    /\ length wh = (if where_ ast is Some _ then 1 else 0)
    /\ Forall2
         (fun j pair =>
            exists lt ln la rt rn ra collection preserve,
              j_on j = Some (EBinary "=" (EField lt ln la) (EField rt rn ra))
              /\ tables this !! toLowerCase (t_name (j_table j)) = Some collection
              /\ (preserve = true <-> j_type j = "LEFT")
              /\ (preserve = false <-> j_type j = "INNER")
              /\ pair = [lookupStage collection ln rn (joinName j);
                         unwindStage (joinName j) preserve])
         (joins ast) pairs.
Proof.
  intros H. apply execSelect_layout in H as (wh & pairs & body & so & -> & Hwh & Hj & _).
  exists wh, pairs, (body ++ so ++ skipStage ast ++ limitStage ast).
  split; [reflexivity|]. split; [|exact Hj].
  destruct (where_ ast); [destruct Hwh as (m & b1 & _ & ->)|subst wh]; reflexivity.
Qed.

Lemma C6_join_lookup_then_unwind_witness :
  _execSelect db sample_two_joins (newParamBinder ∅ [])
  = Ok (("users",
         [lookupStage "orders" "userId" "_id" "o"; unwindStage "o" true;
          lookupStage "products" "sku" "sku" "products";
          unwindStage "products" false]),
        newParamBinder ∅ [])
  /\ exists wh pairs rest,
       [lookupStage "orders" "userId" "_id" "o"; unwindStage "o" true;
        lookupStage "products" "sku" "sku" "products";
        unwindStage "products" false] = wh ++ concat pairs ++ rest
       /\ length wh = 0
       /\ length pairs = 2.
Proof.
  split; [vm_compute; reflexivity|].
  destruct (C6_join_lookup_then_unwind db sample_two_joins (newParamBinder ∅ [])
              "users"
              [lookupStage "orders" "userId" "_id" "o"; unwindStage "o" true;
               lookupStage "products" "sku" "sku" "products";
               unwindStage "products" false]
              (newParamBinder ∅ []))
    as (wh & pairs & rest & Heq & Hwh & Hpairs); [vm_compute; reflexivity|].
  exists wh, pairs, rest. split; [exact Heq|]. split; [exact Hwh|].
  apply Forall2_length in Hpairs. symmetry. exact Hpairs.
Defined.

(** ** HAVING *)

(** A HAVING comparison on a field: the filter is keyed by the name of the
    field. *)
Lemma buildHaving_field op t n a rhs b v b' :
  op ∈ comparisonOps ->
  bindValue rhs b = Ok (v, b') ->
  buildHaving (EBinary op (EField t n a) rhs) b
  = Ok (obj1 (or_default a n) (leafFilter op v), b').
Proof.
  intros Hop Hv. unfold buildHaving. unfold bind. rewrite Hv.
  unfold comparisonOps in Hop. apply list_elem_of_In in Hop. simpl in Hop.
  destruct Hop as [<-|[<-|[<-|[<-|[<-|[<-|[<-|[]]]]]]]]; reflexivity.
Qed.

Lemma buildHaving_field_Ok op t n a rhs b h b' :
  op ∈ comparisonOps ->
  buildHaving (EBinary op (EField t n a) rhs) b = Ok (h, b') ->
  exists v, h = obj1 (or_default a n) (leafFilter op v).
Proof.
  intros Hop H.
  destruct (bindValue rhs b) as [[v b1]|err] eqn:Hv.
  - rewrite (buildHaving_field op t n a rhs b v b1 Hop Hv) in H.
    injection H as <- _. eauto.
  - unfold buildHaving, bind in H. rewrite Hv in H. discriminate.
Qed.

(** C3 (amended).  A HAVING comparison whose left operand is a field
    compiles to a filter keyed by the name of that field, whatever the
    GROUP BY list and the select list are: [buildHaving] is not given
    them, and a field that was neither grouped nor aggregated raises
    nothing.  A grouped SELECT with such a clause has that filter as a
    match stage of its pipeline. *)
Theorem C3_having_field_is_not_checked
    this ast b col pipeline b' op t n a rhs b0 v b1 :
  op ∈ comparisonOps ->
  bindValue rhs b0 = Ok (v, b1) ->
  groupBy ast <> [] ->
  having ast = Some (EBinary op (EField t n a) rhs) ->
  _execSelect this ast b = Ok ((col, pipeline), b') ->
  buildHaving (EBinary op (EField t n a) rhs) b0
  = Ok (obj1 (or_default a n) (leafFilter op v), b1)
  /\ exists v', obj1 "$match" (obj1 (or_default a n) (leafFilter op v')) ∈ pipeline.
Proof.
  intros Hop Hv Hg Hh H.
  split; [exact (buildHaving_field op t n a rhs b0 v b1 Hop Hv)|].
  apply execSelect_layout in H
    as (wh & pairs & body & so & -> & _ & _ & Hbody & _).
  destruct (groupBy ast) as [|g0 gs]; [contradiction|].
  destruct Hbody as (g & hv & pr & -> & Hhv). rewrite Hh in Hhv.
  destruct Hhv as (h & b2 & b3 & Hbuild & ->).
  apply buildHaving_field_Ok in Hbuild as [v' ->]; [|exact Hop].
  exists v'. rewrite !elem_of_app. right. right. left. right. left.
  apply list_elem_of_In. simpl. auto.
Qed.

Lemma C3_having_field_is_not_checked_witness :
  ">" ∈ comparisonOps
  /\ parseSelectText having_sql = Some having_select
  /\ groupBy having_select <> []
  /\ having having_select
     = Some (EBinary ">" (EField None "age" None) (ENumber (Fin 3 0)))
  /\ (exists r, _execSelect db having_select (newParamBinder ∅ []) = Ok r)
  /\ buildHaving (EBinary ">" (EField None "age" None) (ENumber (Fin 3 0)))
       (newParamBinder ∅ [])
     = Ok (obj1 "age" (obj1 "$gt" (VInt 3)), newParamBinder ∅ []).
Proof.
  assert (Hop : ">" ∈ comparisonOps) by (apply list_elem_of_In; simpl; tauto).
  assert (Hg : groupBy having_select <> []) by (vm_compute; discriminate).
  assert (Hh : having having_select
               = Some (EBinary ">" (EField None "age" None) (ENumber (Fin 3 0))))
    by (vm_compute; reflexivity).
  assert (Hsel : exists col pipeline b',
                   _execSelect db having_select (newParamBinder ∅ [])
                   = Ok ((col, pipeline), b'))
    by (eexists _, _, _; vm_compute; reflexivity).
  destruct Hsel as (col & pipeline & b' & Hsel).
  destruct (C3_having_field_is_not_checked db having_select (newParamBinder ∅ [])
              col pipeline b' ">" None "age" None (ENumber (Fin 3 0))
              (newParamBinder ∅ []) (VInt 3) (newParamBinder ∅ [])
              Hop eq_refl Hg Hh Hsel) as (Hbuild & _).
  split; [exact Hop|]. split; [vm_compute; reflexivity|].
  split; [exact Hg|]. split; [exact Hh|].
  split; [eexists; exact Hsel|]. exact Hbuild.
Defined.

(** C3 as stated fails: [age] is neither grouped nor an aggregate alias,
    and the statement compiles to a pipeline that filters on it. *)
Lemma C3_counterexample :
  query db having_sql ∅ []
  = Ok (Aggregate "users"
          [obj1 "$group"
             (VObj [("_id", VObj [("city", VStr "$u.city")]);
                    ("n", obj1 "$sum" (VInt 1))]);
           obj1 "$match" (obj1 "age" (obj1 "$gt" (VInt 3)));
           obj1 "$project" (VObj [("city", VStr "$_id.city"); ("n", VInt 1)])]).
Proof. vm_compute. reflexivity. Qed.

(** ** BETWEEN *)

(** With literal bounds the filter is the inclusive range. *)
Lemma between_literal_bounds t n a lo hi dt b :
  buildMatch (EBinary "BETWEEN" (EField t n a)
                (EBetween (ENumber lo) (ENumber hi))) dt b
  = Ok (obj1 (fieldPath (EField t n a) dt)
          (VObj [("$gte", VNum lo); ("$lte", VNum hi)]), b).
Proof. reflexivity. Qed.

(** Each [?] bound of a BETWEEN is bound twice: once when the right
    operand is bound as a whole, once for the range. *)
Lemma between_markers_bound_twice t n a dt nm p0 p1 p2 p3 rest :
  buildMatch (EBinary "BETWEEN" (EField t n a) (EBetween EParamPos EParamPos)) dt
    (newParamBinder nm (p0 :: p1 :: p2 :: p3 :: rest))
  = Ok (obj1 (fieldPath (EField t n a) dt) (VObj [("$gte", p2); ("$lte", p3)]),
        advance (newParamBinder nm (p0 :: p1 :: p2 :: p3 :: rest)) 4).
Proof. reflexivity. Qed.

(** C7 (the code at the failing input).  [x BETWEEN ? AND ?] with the two
    values it needs does not compile to the range from the first to the
    second: the two markers are bound twice, so that two values are not
    enough, and with four values the range is made of the last two. *)
Theorem C7_between_binds_markers_twice :
  query db "SELECT * FROM t AS t WHERE x BETWEEN ? AND ?" ∅ [VInt 1; VInt 10]
  = Throw (Error "Not enough positional params")
  /\ query db "SELECT * FROM t AS t WHERE x BETWEEN ? AND ?" ∅
       [VInt 1; VInt 10; VInt 20; VInt 30]
     = Ok (Aggregate "t"
             [obj1 "$match"
                (obj1 "t.x" (VObj [("$gte", VInt 20); ("$lte", VInt 30)]))]).
Proof. split; vm_compute; reflexivity. Qed.

(** ** ROUND *)

(** ROUND with one argument ignores the argument. *)
Lemma round_without_decimals x main js b v b' :
  toMongoExpr x main js (Some buildBuiltinFunctions) b = Ok (v, b') ->
  toMongoExpr (ECall "ROUND" [x]) main js (Some buildBuiltinFunctions) b
  = Ok (obj1 "$round" (VArr [VStr "$$_internal"; VInt 0]), b').
Proof.
  intros H. cbn [toMongoExpr].
  change (lookupFunction buildBuiltinFunctions (toUpperCase "ROUND"))
    with (lookupFunction buildBuiltinFunctions "ROUND").
  cbn [lookupFunction buildBuiltinFunctions String.eqb Ascii.eqb Bool.eqb].
  unfold bind. rewrite H. reflexivity.
Qed.

(** C8 (the code at the failing input).  [ROUND(price)] compiles to the
    rounding of the placeholder [$$_internal], not of the compiled
    argument; with a decimals argument the argument is rounded. *)
Theorem C8_round_ignores_its_argument :
  query db "SELECT ROUND(price) AS p FROM products p" ∅ []
  = Ok (Aggregate "products"
          [obj1 "$project"
             (VObj [("p", obj1 "$round" (VArr [VStr "$$_internal"; VInt 0]))])])
  /\ query db "SELECT ROUND(price, 2) AS p FROM products p" ∅ []
     = Ok (Aggregate "products"
             [obj1 "$project"
                (VObj [("p", obj1 "$round" (VArr [VStr "$p.price"; VInt 2]))])]).
Proof. split; vm_compute; reflexivity. Qed.

(** ** COUNT *)

Lemma sumOver_countAll eval docs :
  sumOver eval countAll docs = Some (Z.of_nat (length docs)).
Proof.
  induction docs as [|d docs IH]; [reflexivity|].
  cbn [sumOver]. rewrite IH. cbn [sumIncrement countAll obj1 VInt length].
  f_equal. lia.
Qed.

Lemma sumOver_countField eval x docs :
  sumOver eval (countField x) docs
  = Some (Z.of_nat (length (filter (fun d => isNullish (eval d x) = false) docs))).
Proof.
  induction docs as [|d docs IH]; [reflexivity|].
  cbn [sumOver]. rewrite IH. cbn [sumIncrement countField obj1 VInt].
  rewrite filter_cons.
  destruct (isNullish (eval d x)) eqn:Hn.
  - rewrite decide_False by discriminate. reflexivity.
  - rewrite decide_True by reflexivity. cbn [length]. f_equal. lia.
Qed.

(** C5.  COUNT of [*] or of no argument compiles to [{ $sum: 1 }], which
    adds 1 for every member of a group; COUNT of a field compiles to
    [{ $sum: { $cond: [{ $gt: [x, null] }, 1, 0] } }] on the compiled field
    [x], which adds 1 for the members where [x] is not null and 0 for the
    others.  The two differ on exactly the members whose field is null:
    over a group the first counts all members and the second those whose
    field is not null. *)
Theorem C5_count_star_and_count_field name main js b t n a eval docs :
  toUpperCase name = "COUNT" ->
  let x := VStr ("$" +:+ fieldPath (EField t n a) (mainTable main)) in
  toMongoAgg name [] main js b = Ok (countAll, b)
  /\ toMongoAgg name [EAll] main js b = Ok (countAll, b)
  /\ toMongoAgg name [EField t n a] main js b = Ok (countField x, b)
  /\ (forall d, sumIncrement eval countAll d = Some 1%Z)
  /\ (forall d, sumIncrement eval (countField x) d
                = Some (if isNullish (eval d x) then 0 else 1)%Z)
  /\ (forall d, sumIncrement eval countAll d <> sumIncrement eval (countField x) d
                <-> isNullish (eval d x) = true)
  /\ sumOver eval countAll docs = Some (Z.of_nat (length docs))
  /\ sumOver eval (countField x) docs
     = Some (Z.of_nat (length (filter (fun d => isNullish (eval d x) = false)
                                 docs))).
Proof.
  intros Hname x. unfold toMongoAgg. rewrite Hname.
  repeat split; try reflexivity.
  - cbn [sumIncrement countAll countField obj1 VInt].
    destruct (isNullish (eval d x)); congruence.
  - intros Hn. cbn [sumIncrement countAll countField obj1 VInt].
    rewrite Hn. discriminate.
  - apply sumOver_countAll.
  - apply sumOver_countField.
Qed.

Lemma C5_count_star_and_count_field_witness :
  toUpperCase "count" = "COUNT"
  /\ toMongoAgg "count" [EField (Some "o") "_id" None]
       {| t_name := "users"; t_alias := Some "u" |} [] (newParamBinder ∅ [])
     = Ok (countField (VStr "$o._id"), newParamBinder ∅ [])
  /\ sumOver readPath countAll sample_group = Some 3%Z
  /\ sumOver readPath (countField (VStr "$o._id")) sample_group = Some 1%Z.
Proof.
  split; [reflexivity|].
  pose proof (C5_count_star_and_count_field "count"
                {| t_name := "users"; t_alias := Some "u" |} []
                (newParamBinder ∅ []) (Some "o") "_id" None readPath
                sample_group eq_refl)
    as (_ & _ & Hfield & _ & _ & _ & Hall & Hsome).
  split; [exact Hfield|]. split; [exact Hall|]. exact Hsome.
Defined.

(** ** Unary minus *)

Lemma neg_is_no_builtin : lookupFunction buildBuiltinFunctions (toUpperCase "NEG") = None.
Proof. reflexivity. Qed.

(** Every expression in which a [NEG] call occurs fails to compile. *)
Lemma containsNeg_throws functions e :
  lacksNeg functions ->
  containsNeg e = true ->
  forall main js b,
  exists err, toMongoExpr e main js functions b = Throw err.
Proof.
  intros Hlack.
  induction e using expr_ind; cbn [containsNeg]; try discriminate;
    intros Hc main js b; cbn [toMongoExpr]; try (eexists; reflexivity).
  - (* Call *)
    destruct functions as [fns|]; [|eexists; reflexivity].
    destruct (lookupFunction fns (toUpperCase n)) as [fn|] eqn:Hfn;
      [|eexists; reflexivity].
    destruct (String.eqb n "NEG") eqn:Hn.
    { apply String.eqb_eq in Hn. subst n. rewrite (Hlack fns eq_refl) in Hfn.
      discriminate. }
    simpl in Hc.
    set (go := fix go (l : list expr) : M (list value) :=
                 match l with
                 | [] => ret []
                 | a :: l' =>
                     x <- toMongoExpr a main js (Some fns);;
                     xs <- go l';; ret (x :: xs)
                 end).
    assert (Hgo : forall b, exists err, go args b = Throw err).
    { clear Hfn. induction args as [|a args IH]; [discriminate|].
      inversion H as [|? ? Ha Hargs]; subst. intros b0. cbn [go]. fold go.
      apply orb_prop in Hc as [Hc|Hc].
      - destruct (Ha Hc main js b0) as [err Herr].
        unfold bind at 1. rewrite Herr. eauto.
      - unfold bind at 1.
        destruct (toMongoExpr a main js (Some fns) b0) as [[v b1]|err]; [|eauto].
        destruct (IH Hargs Hc b1) as [err Herr].
        unfold bind at 1. rewrite Herr. eauto. }
    destruct (Hgo b) as [err Herr]. unfold bind. rewrite Herr. eauto.
  - (* Binary *)
    apply orb_prop in Hc as [Hc|Hc].
    + destruct (IHe1 Hc main js b) as [err Herr].
      unfold bind at 1. rewrite Herr. eauto.
    + unfold bind at 1.
      destruct (toMongoExpr e1 main js functions b) as [[v b1]|err]; [|eauto].
      destruct (IHe2 Hc main js b1) as [err Herr].
      unfold bind at 1. rewrite Herr. eauto.
Qed.

Lemma builtins_lack_neg : lacksNeg (Some buildBuiltinFunctions).
Proof. intros fns [= <-]. reflexivity. Qed.

Lemma parseUnary_minus (parsePrimary : P expr) t t1 x t2 :
  _eatOp "-" t = Ok (true, t1) ->
  parsePrimary t1 = Ok (x, t2) ->
  parseUnary parsePrimary t = Ok (ECall "NEG" [x], t2).
Proof.
  intros Heat Hx. unfold parseUnary, bind. rewrite Heat, Hx. reflexivity.
Qed.

(** C9 (amended).  For a unary minus the parser makes a [Call] node named
    [NEG]; the table of built-in functions has no [NEG]; compiling the
    [NEG] call itself fails with 'Unknown function: NEG'; and every
    expression in which such a call occurs fails to compile, with that
    error or with the error of a node that is compiled before it. *)
Theorem C9_unary_minus_never_compiles (parsePrimary : P expr) t t1 x t2 e main js b :
  _eatOp "-" t = Ok (true, t1) ->
  parsePrimary t1 = Ok (x, t2) ->
  containsNeg e = true ->
  parseUnary parsePrimary t = Ok (ECall "NEG" [x], t2)
  /\ lookupFunction buildBuiltinFunctions (toUpperCase "NEG") = None
  /\ toMongoExpr (ECall "NEG" [x]) main js (Some buildBuiltinFunctions) b
     = Throw (Error "Unknown function: NEG")
  /\ exists err, toMongoExpr e main js (Some buildBuiltinFunctions) b = Throw err.
Proof.
  intros Heat Hx Hc.
  split; [exact (parseUnary_minus parsePrimary t t1 x t2 Heat Hx)|].
  split; [reflexivity|]. split; [reflexivity|].
  exact (containsNeg_throws _ e builtins_lack_neg Hc main js b).
Qed.

Lemma C9_unary_minus_never_compiles_witness :
  let t := newTokenizer "-price" in
  let t1 := {| rest := "price"; peeked := None |} in
  let t2 := {| rest := EmptyString; peeked := Some Teof |} in
  let x := EField None "price" None in
  let e := EBinary "*" (ENumber (Fin 2 0)) (ECall "NEG" [x]) in
  let main := {| t_name := "products"; t_alias := None |} in
  _eatOp "-" t = Ok (true, t1)
  /\ parsePrimary 6 t1 = Ok (x, t2)
  /\ containsNeg e = true
  /\ parseUnary (parsePrimary 6) t = Ok (ECall "NEG" [x], t2)
  /\ toMongoExpr e main [] (Some buildBuiltinFunctions) (newParamBinder ∅ [])
     = Throw (Error "Unknown function: NEG").
Proof.
  intros t t1 t2 x e main.
  assert (Heat : _eatOp "-" t = Ok (true, t1)) by reflexivity.
  assert (Hx : parsePrimary 6 t1 = Ok (x, t2)) by reflexivity.
  assert (Hc : containsNeg e = true) by reflexivity.
  destruct (C9_unary_minus_never_compiles (parsePrimary 6) t t1 x t2 e main []
              (newParamBinder ∅ []) Heat Hx Hc) as (Hparse & _ & _ & _).
  split; [exact Heat|]. split; [exact Hx|]. split; [exact Hc|].
  split; [exact Hparse|]. reflexivity.
Defined.

(** C9 as stated fails: these expressions contain a unary minus and the
    error is not 'Unknown function', because a node compiled before the
    [NEG] call fails first. *)
Lemma C9_counterexample :
  query db "SELECT (a = 1) + -b AS x FROM t AS t" ∅ []
  = Throw (Error "Unsupported binary op in projection: =")
  /\ query db "SELECT :base + -1 AS x FROM t AS t" ∅ []
     = Throw (Error "Missing named param :base").
Proof. split; vm_compute; reflexivity. Qed.

(** ** The tokenizer's recursion bound *)

Lemma dropWhile_length p s : String.length (dropWhile p s) <= String.length s.
Proof.
  induction s as [|c s IH]; simpl; [lia|].
  destruct (p c); simpl; lia.
Qed.

Lemma skipBlock_length s : String.length (skipBlock s) <= String.length s.
Proof.
  induction s as [|c s IH]; simpl; [lia|].
  destruct (Ascii.eqb c "*" && startsWith "/" s); simpl; lia.
Qed.

Lemma string_drop_length n s : String.length (string_drop n s) <= String.length s.
Proof.
  revert s. induction n as [|n IH]; intros [|c s]; simpl; try lia.
  specialize (IH s). lia.
Qed.

(** Each comment that [next] skips shortens the input: a bound above the
    length of the input is never reached. *)
Lemma scan_fuel fuel :
  forall s, String.length s < fuel -> scan fuel s <> Throw OutOfFuel.
Proof.
  induction fuel as [|fuel IH]; intros s Hlen; [lia|].
  cbn [scan].
  pose proof (dropWhile_length _isSpace s) as Hws.
  destruct (dropWhile _isSpace s) as [|c s1] eqn:Hs; [discriminate|].
  cbn [String.length] in Hws.
  destruct (Ascii.eqb c "-" && startsWith "-" s1) eqn:Hline.
  { apply IH. cbn [dropWhile].
    apply andb_prop in Hline as [Hc _]. apply Ascii.eqb_eq in Hc. subst c.
    cbn. eapply Nat.le_lt_trans; [apply dropWhile_length|lia]. }
  destruct (Ascii.eqb c "/" && startsWith "*" s1) eqn:Hblock.
  { apply IH. apply andb_prop in Hblock as [_ Hstar].
    destruct s1 as [|c1 s2]; [discriminate|].
    change (string_drop 2 (String c (String c1 s2))) with s2.
    cbn [String.length] in Hws.
    eapply Nat.le_lt_trans; [apply string_drop_length|].
    eapply Nat.le_lt_trans; [apply skipBlock_length|lia]. }
  destruct (Ascii.eqb c "'" || Ascii.eqb c dquote).
  { destruct (scanString c EmptyString s1). discriminate. }
  destruct (_isDigit c); [discriminate|].
  destruct (_isIdentStart c); [discriminate|].
  destruct (Ascii.eqb c ":"); [discriminate|].
  destruct (Ascii.eqb c "?"); [discriminate|].
  destruct (bool_decide (string_take 2 (String c s1) ∈ twoOps)); [discriminate|].
  destruct (includes singles c); discriminate.
Qed.

Lemma next_never_out_of_fuel t : next t <> Throw OutOfFuel.
Proof.
  unfold next. destruct (peeked t); [discriminate|].
  pose proof (scan_fuel (S (String.length (rest t))) (rest t)) as H.
  destruct (scan (S (String.length (rest t))) (rest t)) as [[tok r]|e].
  - discriminate.
  - intros [= ->]. apply H; [lia|reflexivity].
Qed.

(** ** String literals without a closing quote *)

Lemma append_assoc (a b c : string) : (a +:+ b) +:+ c = a +:+ (b +:+ c).
Proof.
  induction a as [|x a IH]; [reflexivity|].
  change (String x ((a +:+ b) +:+ c) = String x (a +:+ (b +:+ c))).
  f_equal. exact IH.
Qed.

Lemma append_nil_r (a : string) : a +:+ EmptyString = a.
Proof.
  induction a as [|x a IH]; [reflexivity|].
  change (String x (a +:+ EmptyString) = String x a). f_equal. exact IH.
Qed.

Lemma scanString_unterminated quote s :
  forall val,
  unterminated quote s = true ->
  scanString quote val s
  = (val +:+ resolveEscapes s
         +:+ (if danglingEscape s then "undefined" else EmptyString),
     EmptyString).
Proof.
  assert (Hind : forall n s, String.length s <= n -> forall val,
            unterminated quote s = true ->
            scanString quote val s
            = (val +:+ resolveEscapes s
                   +:+ (if danglingEscape s then "undefined" else EmptyString),
               EmptyString)).
  { clear s. induction n as [|n IH]; intros s Hlen val Hu.
    - destruct s; [|simpl in Hlen; lia].
      cbn [scanString resolveEscapes danglingEscape].
      change (EmptyString +:+ EmptyString) with EmptyString.
      rewrite append_nil_r. reflexivity.
    - destruct s as [|c s].
      { cbn [scanString resolveEscapes danglingEscape].
        change (EmptyString +:+ EmptyString) with EmptyString.
        rewrite append_nil_r. reflexivity. }
      cbn [scanString unterminated resolveEscapes danglingEscape] in *.
      destruct (Ascii.eqb c backslash).
      + destruct s as [|c2 s]; [reflexivity|].
        rewrite IH by (simpl in Hlen; first [lia | assumption]).
        rewrite append_assoc. reflexivity.
      + destruct (Ascii.eqb c quote); [discriminate|].
        rewrite IH by (simpl in Hlen; first [lia | assumption]).
        rewrite append_assoc. reflexivity. }
  intros val Hu. apply (Hind (String.length s) s); auto.
Qed.

(** A literal without a closing quote is lexed without an error: its
    value is the rest of the input with the escapes resolved, followed by
    the text "undefined" when the input ends with an escape marker; the
    next token is the end of the input. *)
Lemma next_unterminated quote s :
  quote = "'"%char \/ quote = dquote ->
  unterminated quote s = true ->
  next (newTokenizer (String quote s))
  = Ok (Tstring (resolveEscapes s
                 +:+ (if danglingEscape s then "undefined" else EmptyString)),
        {| rest := EmptyString; peeked := None |})
  /\ next {| rest := EmptyString; peeked := None |}
     = Ok (Teof, {| rest := EmptyString; peeked := None |}).
Proof.
  intros Hq Hu. split; [|reflexivity].
  unfold next, newTokenizer. cbn [peeked rest scan String.length].
  destruct Hq as [->| ->]; cbn [dropWhile _isSpace in_range ascii_code];
    simpl; rewrite (scanString_unterminated _ s EmptyString Hu); reflexivity.
Qed.

(** C10 (the code at the failing input).  The literal ['abc\ ] has no
    closing quote and ends with an escape marker: the token's value is not
    the rest of the input with the escape resolved, the text "undefined"
    is appended to it. *)
Theorem C10_dangling_escape_appends_undefined :
  unterminated "'" (string_drop 1 dangling_input) = true
  /\ resolveEscapes (string_drop 1 dangling_input) = "abc"
  /\ next (newTokenizer dangling_input)
     = Ok (Tstring "abcundefined", {| rest := EmptyString; peeked := None |})
  /\ next {| rest := EmptyString; peeked := None |}
     = Ok (Teof, {| rest := EmptyString; peeked := None |}).
Proof. repeat split; vm_compute; reflexivity. Qed.

(** ** LIKE *)

Lemma charMatches_ignoreCase_A c :
  charMatches true "A" c = true <-> c = "A"%char \/ c = "a"%char.
Proof.
  destruct c as [[] [] [] [] [] [] [] []]; vm_compute;
    (split; [first [discriminate | intros _; auto] | intros [H|H]; first [reflexivity | discriminate]]).
Qed.

Lemma charMatches_ignoreCase_B c :
  charMatches true "B" c = true <-> c = "B"%char \/ c = "b"%char.
Proof.
  destruct c as [[] [] [] [] [] [] [] []]; vm_compute;
    (split; [first [discriminate | intros _; auto] | intros [H|H]; first [reflexivity | discriminate]]).
Qed.

(** [.*] before the final [$] matches every subject without a line
    terminator. *)
Lemma anyStar_singleLine ignoreCase s :
  singleLine s = true -> matchItems ignoreCase [ReAnyStar] s = true.
Proof.
  induction s as [|c s IH]; [reflexivity|].
  cbn [singleLine]. intros H. apply andb_prop in H as [Hc Hs].
  cbn [matchItems] in *. rewrite Hc, (IH Hs). reflexivity.
Qed.

Lemma like_A_percent s :
  singleLine s = true ->
  regexTest (likeToRegex "A%") s = true
  <-> exists c rest, s = String c rest /\ (c = "A"%char \/ c = "a"%char).
Proof.
  intros Hs.
  change (regexTest (likeToRegex "A%") s)
    with (matchItems true [ReChar "A"; ReAnyStar] s).
  destruct s as [|c rest].
  - split; [discriminate|]. intros (c & rest & H & _). discriminate.
  - cbn [singleLine] in Hs. apply andb_prop in Hs as [_ Hrest].
    change (matchItems true [ReChar "A"; ReAnyStar] (String c rest))
      with (charMatches true "A" c && matchItems true [ReAnyStar] rest).
    rewrite (anyStar_singleLine true rest Hrest), andb_true_r.
    rewrite charMatches_ignoreCase_A. split.
    + intros H. eauto.
    + intros (c' & rest' & [= -> ->] & H). exact H.
Qed.

Lemma like_A_underscore_B s :
  singleLine s = true ->
  regexTest (likeToRegex "A_B") s = true
  <-> exists c1 x c3,
        s = String c1 (String x (String c3 EmptyString))
        /\ (c1 = "A"%char \/ c1 = "a"%char) /\ (c3 = "B"%char \/ c3 = "b"%char).
Proof.
  intros Hs.
  change (regexTest (likeToRegex "A_B") s)
    with (matchItems true [ReChar "A"; ReAny; ReChar "B"] s).
  destruct s as [|c1 [|x [|c3 [|c4 rest]]]]; cbn [matchItems].
  - split; [discriminate|]. intros (? & ? & ? & H & _). discriminate.
  - rewrite andb_false_r.
    split; [discriminate|]. intros (? & ? & ? & H & _). discriminate.
  - rewrite !andb_false_r.
    split; [discriminate|]. intros (? & ? & ? & H & _). discriminate.
  - cbn [singleLine] in Hs. apply andb_prop in Hs as [_ Hs].
    apply andb_prop in Hs as [Hx _]. rewrite Hx, andb_true_r. cbn [andb].
    rewrite andb_true_iff, charMatches_ignoreCase_A, charMatches_ignoreCase_B.
    split.
    + intros [H1 H3]. eauto 6.
    + intros (? & ? & ? & [= -> -> ->] & H1 & H3). auto.
  - rewrite !andb_false_r.
    split; [discriminate|]. intros (? & ? & ? & H & _). discriminate.
Qed.

Lemma replaceChar_absent c by_ s :
  absent c s = true -> replaceChar c by_ s = s.
Proof.
  induction s as [|x s IH]; [reflexivity|].
  cbn [absent replaceChar]. intros H. apply andb_prop in H as [Hx Hs].
  apply negb_true_iff in Hx. rewrite Hx, (IH Hs). reflexivity.
Qed.

Lemma absent_escapeRegex c p :
  Ascii.eqb backslash c = false ->
  absent c p = true -> absent c (escapeRegex p) = true.
Proof.
  unfold backslash. intros Hc. induction p as [|x p IH]; [reflexivity|].
  cbn [absent escapeRegex]. intros H. apply andb_prop in H as [Hx Hp].
  destruct (isRegexMeta x); cbn [absent]; rewrite ?Hc, Hx, (IH Hp); reflexivity.
Qed.

Lemma replaceChar_noWildcard p :
  noWildcard p = true ->
  replaceChar "_" "." (replaceChar "%" ".*" (escapeRegex p)) = escapeRegex p.
Proof.
  unfold noWildcard. intros H. apply andb_prop in H as [Hpc Hus].
  rewrite (replaceChar_absent "%" ".*") by (apply absent_escapeRegex; auto).
  apply replaceChar_absent. apply absent_escapeRegex; auto.
Qed.

Lemma parseRegexBody_escaped p :
  parseRegexBody (escapeRegex p +:+ "$") = Some (literalItems p).
Proof.
  induction p as [|c p IH]; [reflexivity|].
  cbn [escapeRegex literalItems]. destruct (isRegexMeta c) eqn:Hmeta.
  - change (parseRegexBody (String backslash (String c (escapeRegex p +:+ "$")))
            = Some (ReChar c :: literalItems p)).
    cbn [parseRegexBody]. change (Ascii.eqb backslash backslash) with true.
    cbn iota. rewrite Hmeta, IH. reflexivity.
  - change (parseRegexBody (String c (escapeRegex p +:+ "$"))
            = Some (ReChar c :: literalItems p)).
    cbn [parseRegexBody].
    assert (Hb : Ascii.eqb c backslash = false).
    { destruct (Ascii.eqb c backslash) eqn:E; [|reflexivity].
      apply Ascii.eqb_eq in E. subst c. discriminate. }
    assert (Hd : Ascii.eqb c "$" = false).
    { destruct (Ascii.eqb c "$") eqn:E; [|reflexivity].
      apply Ascii.eqb_eq in E. subst c. discriminate. }
    assert (Hp : Ascii.eqb c "." = false).
    { destruct (Ascii.eqb c ".") eqn:E; [|reflexivity].
      apply Ascii.eqb_eq in E. subst c. discriminate. }
    rewrite Hb, Hd, Hp, Hmeta, IH. reflexivity.
Qed.

Lemma matchItems_literal p : forall s,
  matchItems true (literalItems p) s = caselessEq p s.
Proof.
  induction p as [|c p IH]; intros [|x s]; cbn [literalItems matchItems caselessEq];
    try reflexivity.
  rewrite IH. reflexivity.
Qed.

(** Without wildcards LIKE is equality without regard to case: the
    metacharacters of the pattern stand for themselves. *)
Lemma like_without_wildcards p s :
  noWildcard p = true ->
  regexTest (likeToRegex p) s = caselessEq p s.
Proof.
  intros Hp. unfold likeToRegex. rewrite (replaceChar_noWildcard p Hp).
  cbn [regexTest].
  change (parseRegex ("^" +:+ escapeRegex p +:+ "$"))
    with (parseRegexBody (escapeRegex p +:+ "$")).
  rewrite parseRegexBody_escaped.
  change (includes "i" "i") with true. apply matchItems_literal.
Qed.

(** C4 (amended).  [field LIKE p] with a literal [p] compiles to a
    regular-expression match with option [i] on the pattern [^...$] whose
    body is [p] with its metacharacters escaped, then every [%] turned into
    [.*] and every [_] into [.].  The metacharacters of [p] stand for
    themselves: a pattern without [%] and [_] matches exactly the strings
    equal to it without regard to case.  The match ignores case: among the
    strings without a line terminator, LIKE 'A%' matches exactly those
    that start with [A] or [a], and LIKE 'A_B' exactly those of three
    characters of which the first is [A] or [a] and the last is [B] or
    [b]. *)
Theorem C4_like_is_a_caseless_anchored_regex s :
  singleLine s = true ->
  (forall t n a p dt b,
     buildMatch (EBinary "LIKE" (EField t n a) (EString p)) dt b
     = Ok (obj1 (fieldPath (EField t n a) dt)
             (VObj [("$regex",
                     VStr ("^" +:+ replaceChar "_" "."
                                     (replaceChar "%" ".*" (escapeRegex p))
                               +:+ "$"));
                    ("$options", VStr "i")]), b))
  /\ (forall p, noWildcard p = true ->
                regexTest (likeToRegex p) s = caselessEq p s)
  /\ (regexTest (likeToRegex "A%") s = true
      <-> exists c rest, s = String c rest /\ (c = "A"%char \/ c = "a"%char))
  /\ (regexTest (likeToRegex "A_B") s = true
      <-> exists c1 x c3,
            s = String c1 (String x (String c3 EmptyString))
            /\ (c1 = "A"%char \/ c1 = "a"%char)
            /\ (c3 = "B"%char \/ c3 = "b"%char)).
Proof.
  intros Hs. split; [reflexivity|].
  split; [exact (fun p Hp => like_without_wildcards p s Hp)|].
  split; [exact (like_A_percent s Hs)|exact (like_A_underscore_B s Hs)].
Qed.

Lemma C4_like_is_a_caseless_anchored_regex_witness :
  singleLine "aXb" = true
  /\ regexTest (likeToRegex "A%") "aXb" = true
  /\ regexTest (likeToRegex "A_B") "aXb" = true.
Proof.
  assert (Hs : singleLine "aXb" = true) by reflexivity.
  destruct (C4_like_is_a_caseless_anchored_regex "aXb" Hs) as (_ & _ & H1 & H2).
  split; [exact Hs|]. split.
  - apply H1. exists "a"%char, "Xb". auto.
  - apply H2. exists "a"%char, "X"%char, "b"%char. auto.
Defined.

(** C4 as stated fails, also when "starting with A" is read without
    regard to case: the two-line string [A], newline, [b] starts with [A],
    and LIKE 'A%' does not match it; [A], newline, [B] has three
    characters, the first [A] and the last [B], and LIKE 'A_B' does not
    match it.  The [.] of the emitted pattern matches no line
    terminator. *)
Lemma C4_counterexample :
  let s := String "A" (String newline "b") in
  let s3 := String "A" (String newline "B") in
  (exists rest, s = String "A" rest)
  /\ regexTest (likeToRegex "A%") s = false
  /\ String.length s3 = 3
  /\ (exists x, s3 = String "A" (String x "B"))
  /\ regexTest (likeToRegex "A_B") s3 = false.
Proof.
  intros s s3. split; [eexists; reflexivity|]. split; [reflexivity|].
  split; [reflexivity|]. split; [eexists; reflexivity|]. reflexivity.
Qed.

(** * Further properties of the code *)

(** ** The tokenizer: looking ahead *)

Lemma peek_Ok t tok t1 :
  peek t = Ok (tok, t1) ->
  peeked t1 = Some tok
  /\ next t = Ok (tok, {| rest := rest t1; peeked := None |}).
Proof.
  unfold peek, next. destruct (peeked t) as [p|] eqn:Hp.
  - intros [= -> <-]. rewrite Hp. auto.
  - destruct (scan (S (String.length (rest t))) (rest t)) as [[tok' r]|e];
      [|discriminate].
    intros [= -> <-]. auto.
Qed.

Lemma peek_peeked t tok :
  peeked t = Some tok ->
  peek t = Ok (tok, t) /\ next t = Ok (tok, {| rest := rest t; peeked := None |}).
Proof. unfold peek, next. intros ->. auto. Qed.

Lemma peek_Throw t e : peek t = Throw e <-> next t = Throw e.
Proof.
  unfold peek. destruct (peeked t) as [p|] eqn:Hp.
  - unfold next. rewrite Hp. split; discriminate.
  - destruct (next t) as [[tok t']|e']; split; congruence.
Qed.

(** X1.  [peek] does not consume.  When [peek] returns a token, another
    [peek] returns the same token and leaves the tokenizer as it is, and the
    next [next] returns that token too and leaves the tokenizer where a
    [next] without the [peek] would have left it.  [peek] throws exactly
    when [next] does, and the same exception. *)
Theorem peek_does_not_consume t :
  (forall tok t1,
     peek t = Ok (tok, t1) ->
     peek t1 = Ok (tok, t1)
     /\ exists t2, next t1 = Ok (tok, t2) /\ next t = Ok (tok, t2))
  /\ (forall e, peek t = Throw e <-> next t = Throw e).
Proof.
  split.
  - intros tok t1 H. destruct (peek_Ok _ _ _ H) as [Hp Hn].
    destruct (peek_peeked _ _ Hp) as [Hp1 Hn1].
    split; [exact Hp1|]. eauto.
  - intros e. apply peek_Throw.
Qed.

Lemma peek_does_not_consume_witness :
  let t := newTokenizer "name FROM users" in
  let t1 := {| rest := " FROM users"; peeked := Some (Tident "name") |} in
  let t2 := {| rest := " FROM users"; peeked := None |} in
  let bad := newTokenizer "#" in
  peek t = Ok (Tident "name", t1)
  /\ peek t1 = Ok (Tident "name", t1)
  /\ next t1 = Ok (Tident "name", t2)
  /\ next t = Ok (Tident "name", t2)
  /\ next bad = Throw (Error "Unexpected character: #")
  /\ peek bad = Throw (Error "Unexpected character: #").
Proof.
  intros t t1 t2 bad.
  assert (H : peek t = Ok (Tident "name", t1)) by reflexivity.
  assert (Hbad : next bad = Throw (Error "Unexpected character: #"))
    by reflexivity.
  destruct (peek_does_not_consume t) as [Hok _].
  destruct (peek_does_not_consume bad) as [_ Hthrow].
  destruct (Hok _ _ H) as (H1 & t2' & H2 & H3).
  assert (E : t2' = t2).
  { assert (Hn : next t = Ok (Tident "name", t2)) by reflexivity.
    rewrite Hn in H3. injection H3 as <-. reflexivity. }
  subst t2'.
  split; [exact H|]. split; [exact H1|]. split; [exact H2|].
  split; [exact H3|]. split; [exact Hbad|]. apply Hthrow. exact Hbad.
Defined.

(** ** The tokenizer: whitespace and comments *)

Lemma append_String c (a b : string) : String c a +:+ b = String c (a +:+ b).
Proof. reflexivity. Qed.

Lemma append_length (a b : string) :
  String.length (a +:+ b) = String.length a + String.length b.
Proof.
  induction a as [|c a IH]; [reflexivity|].
  rewrite append_String. cbn [String.length]. rewrite IH. reflexivity.
Qed.

(** The recursion bound of [scan] does not matter once it is above the
    length of the input. *)
Lemma scan_fuel_irrelevant f1 :
  forall f2 s,
  String.length s < f1 -> String.length s < f2 -> scan f1 s = scan f2 s.
Proof.
  induction f1 as [|f1 IH]; intros f2 s H1 H2; [lia|].
  destruct f2 as [|f2]; [lia|].
  cbn [scan].
  pose proof (dropWhile_length _isSpace s) as Hws.
  destruct (dropWhile _isSpace s) as [|c s1] eqn:Hs; [reflexivity|].
  cbn [String.length] in Hws.
  destruct (Ascii.eqb c "-" && startsWith "-" s1) eqn:Hline.
  { apply andb_prop in Hline as [Hc _]. apply Ascii.eqb_eq in Hc. subst c.
    cbn [dropWhile]. change (negb (Ascii.eqb "-" newline)) with true. cbn iota.
    pose proof (dropWhile_length (fun x => negb (Ascii.eqb x newline)) s1) as Hl.
    apply IH; lia. }
  destruct (Ascii.eqb c "/" && startsWith "*" s1) eqn:Hblock.
  { pose proof (string_drop_length 2 (skipBlock (string_drop 2 (String c s1)))) as Ha.
    pose proof (skipBlock_length (string_drop 2 (String c s1))) as Hb.
    pose proof (string_drop_length 2 (String c s1)) as Hc.
    cbn [String.length] in Hc.
    apply andb_prop in Hblock as [_ Hstar].
    destruct s1 as [|c1 s2]; [discriminate|].
    change (string_drop 2 (String c (String c1 s2))) with s2 in *.
    cbn [String.length] in Hws. apply IH; lia. }
  reflexivity.
Qed.

Lemma next_newTokenizer s f :
  String.length s < f ->
  next (newTokenizer s)
  = match scan f s with
    | Ok (tok, r) => Ok (tok, {| rest := r; peeked := None |})
    | Throw e => Throw e
    end.
Proof.
  intros H. unfold next, newTokenizer. cbn [peeked rest].
  rewrite (scan_fuel_irrelevant (S (String.length s)) f s) by lia.
  reflexivity.
Qed.

Lemma dropWhile_allSpace w s :
  allSpace w = true -> dropWhile _isSpace (w +:+ s) = dropWhile _isSpace s.
Proof.
  induction w as [|c w IH]; [reflexivity|].
  cbn [allSpace]. intros H. apply andb_prop in H as [Hc Hw].
  rewrite append_String. cbn [dropWhile]. rewrite Hc. auto.
Qed.

Lemma scan_allSpace f w s :
  allSpace w = true -> scan f (w +:+ s) = scan f s.
Proof.
  intros H. destruct f as [|f]; [reflexivity|].
  cbn [scan]. rewrite (dropWhile_allSpace w s H). reflexivity.
Qed.

Lemma dropWhile_to_newline c s :
  absent newline c = true ->
  dropWhile (fun x => negb (Ascii.eqb x newline)) (c +:+ String newline s)
  = String newline s.
Proof.
  induction c as [|x c IH].
  - intros _. change (EmptyString +:+ String newline s) with (String newline s).
    cbn [dropWhile]. rewrite Ascii.eqb_refl. reflexivity.
  - cbn [absent]. intros H. apply andb_prop in H as [Hx Hc].
    rewrite append_String. cbn [dropWhile]. rewrite Hx. auto.
Qed.

Lemma dropWhile_no_newline c :
  absent newline c = true ->
  dropWhile (fun x => negb (Ascii.eqb x newline)) c = EmptyString.
Proof.
  induction c as [|x c IH]; [reflexivity|].
  cbn [absent]. intros H. apply andb_prop in H as [Hx Hc].
  cbn [dropWhile]. rewrite Hx. auto.
Qed.

Lemma startsWith_append c (a b : string) :
  a <> EmptyString -> startsWith c (a +:+ b) = startsWith c a.
Proof. destruct a; [congruence|reflexivity]. Qed.

Lemma skipBlock_closed c s :
  noClose c = true -> skipBlock (c +:+ "*/" +:+ s) = "*/" +:+ s.
Proof.
  induction c as [|x c IH]; [reflexivity|].
  cbn [noClose]. intros H. apply andb_prop in H as [Hx Hc].
  rewrite append_String. cbn [skipBlock].
  apply negb_true_iff in Hx.
  destruct c as [|y c].
  - change (EmptyString +:+ "*/" +:+ s) with (String "*" (String "/" s)).
    cbn [startsWith]. change (Ascii.eqb "*" "/") with false.
    rewrite andb_false_r. cbn [skipBlock startsWith].
    rewrite Ascii.eqb_refl. reflexivity.
  - rewrite startsWith_append by discriminate. rewrite Hx. auto.
Qed.

Lemma skipBlock_unclosed c : noClose c = true -> skipBlock c = EmptyString.
Proof.
  induction c as [|x c IH]; [reflexivity|].
  cbn [noClose skipBlock]. intros H. apply andb_prop in H as [Hx Hc].
  apply negb_true_iff in Hx. rewrite Hx. auto.
Qed.

Lemma scan_line_comment f c s :
  absent newline c = true ->
  String.length ("--" +:+ c +:+ String newline s) < f ->
  scan f ("--" +:+ c +:+ String newline s) = scan f s.
Proof.
  intros Hc Hlen. destruct f as [|f]; [lia|].
  change ("--" +:+ c +:+ String newline s)
    with (String "-" (String "-" (c +:+ String newline s))) in *.
  cbn [String.length] in Hlen. rewrite append_length in Hlen.
  cbn [String.length] in Hlen.
  transitivity (scan f (String newline s)).
  - cbn [scan dropWhile]. change (_isSpace "-") with false. cbn iota.
    cbn [startsWith]. change (Ascii.eqb "-" "-") with true. cbn [andb].
    cbn [dropWhile]. change (negb (Ascii.eqb "-" newline)) with true. cbn iota.
    rewrite (dropWhile_to_newline c s Hc). reflexivity.
  - rewrite (scan_fuel_irrelevant f (S f)) by (cbn [String.length]; lia).
    apply (scan_allSpace (S f) (String newline EmptyString) s). reflexivity.
Qed.

Lemma scan_block_comment f c s :
  noClose c = true ->
  String.length ("/*" +:+ c +:+ "*/" +:+ s) < f ->
  scan f ("/*" +:+ c +:+ "*/" +:+ s) = scan f s.
Proof.
  intros Hc Hlen. destruct f as [|f]; [lia|].
  change ("/*" +:+ c +:+ "*/" +:+ s)
    with (String "/" (String "*" (c +:+ "*/" +:+ s))) in *.
  cbn [String.length] in Hlen. rewrite append_length in Hlen.
  change ("*/" +:+ s) with (String "*" (String "/" s)) in Hlen.
  cbn [String.length] in Hlen.
  transitivity (scan f s).
  - cbn [scan dropWhile]. change (_isSpace "/") with false. cbn iota.
    cbn [startsWith]. change (Ascii.eqb "/" "-") with false.
    change (Ascii.eqb "/" "/") with true. change (Ascii.eqb "*" "*") with true.
    cbn [andb].
    change (string_drop 2 (String "/" (String "*" (c +:+ "*/" +:+ s))))
      with (c +:+ "*/" +:+ s).
    rewrite (skipBlock_closed c s Hc). reflexivity.
  - apply scan_fuel_irrelevant; lia.
Qed.

Lemma scan_trivia p :
  trivia p ->
  forall s f, String.length (p +:+ s) < f -> scan f (p +:+ s) = scan f s.
Proof.
  induction 1 as [|w p Hw Hp IH|c p Hc Hp IH|c p Hc Hp IH]; intros s f Hlen.
  - reflexivity.
  - rewrite append_assoc in *. rewrite (scan_allSpace f w _ Hw).
    apply IH. rewrite append_length in Hlen. lia.
  - assert (E : ("--" +:+ c +:+ String newline p) +:+ s
                = "--" +:+ c +:+ String newline (p +:+ s)).
    { rewrite !append_assoc. reflexivity. }
    rewrite E in *.
    rewrite (scan_line_comment f c (p +:+ s) Hc Hlen).
    apply IH. rewrite !append_length in Hlen. cbn [String.length] in Hlen.
    rewrite ?append_length in *. lia.
  - assert (E : ("/*" +:+ c +:+ "*/" +:+ p) +:+ s
                = "/*" +:+ c +:+ "*/" +:+ (p +:+ s)).
    { rewrite !append_assoc. reflexivity. }
    rewrite E in *.
    rewrite (scan_block_comment f c (p +:+ s) Hc Hlen).
    apply IH. rewrite !append_length in Hlen. cbn [String.length] in Hlen.
    rewrite append_length. lia.
Qed.

(** X2.  Whitespace, line comments and closed block comments before a token
    are skipped: the tokenizer returns the same token, and is left at the same
    place, as without them. *)
Theorem next_skips_trivia p s :
  trivia p -> next (newTokenizer (p +:+ s)) = next (newTokenizer s).
Proof.
  intros Hp.
  rewrite (next_newTokenizer (p +:+ s) (S (String.length (p +:+ s)))) by lia.
  rewrite (next_newTokenizer s (S (String.length (p +:+ s))))
    by (rewrite append_length; lia).
  rewrite (scan_trivia p Hp) by lia. reflexivity.
Qed.

Lemma next_skips_trivia_witness :
  let p := "  -- the active ones" +:+ String newline "/* all * of / them */ " in
  trivia p
  /\ next (newTokenizer (p +:+ "SELECT 1")) = next (newTokenizer "SELECT 1").
Proof.
  intros p.
  assert (H : trivia p).
  { apply (trivia_space "  "); [reflexivity|].
    apply (trivia_line " the active ones"); [reflexivity|].
    apply (trivia_block " all * of / them "
             (String " " EmptyString)); [reflexivity|].
    apply (trivia_space " " EmptyString); [reflexivity|apply trivia_nil]. }
  split; [exact H|]. exact (next_skips_trivia p "SELECT 1" H).
Defined.

(** X3.  A comment that is not closed runs to the end of the input without an
    error: after [/*] with no [*/], or [--] with no newline, the next token is
    the end of the input. *)
Theorem unclosed_comment_runs_to_end c :
  (noClose c = true ->
   next (newTokenizer ("/*" +:+ c))
   = Ok (Teof, {| rest := EmptyString; peeked := None |}))
  /\ (absent newline c = true ->
      next (newTokenizer ("--" +:+ c))
      = Ok (Teof, {| rest := EmptyString; peeked := None |})).
Proof.
  split; intros Hc; unfold next, newTokenizer; cbn [peeked rest].
  - change ("/*" +:+ c) with (String "/" (String "*" c)).
    cbn [String.length scan dropWhile]. change (_isSpace "/") with false.
    cbn iota. cbn [startsWith]. change (Ascii.eqb "/" "-") with false.
    change (Ascii.eqb "/" "/") with true. change (Ascii.eqb "*" "*") with true.
    cbn [andb]. change (string_drop 2 (String "/" (String "*" c))) with c.
    rewrite (skipBlock_unclosed c Hc). reflexivity.
  - change ("--" +:+ c) with (String "-" (String "-" c)).
    cbn [String.length scan dropWhile]. change (_isSpace "-") with false.
    cbn iota. cbn [startsWith]. change (Ascii.eqb "-" "-") with true.
    cbn [andb dropWhile]. change (negb (Ascii.eqb "-" newline)) with true.
    cbn iota. rewrite (dropWhile_no_newline c Hc). reflexivity.
Qed.

Lemma unclosed_comment_runs_to_end_witness :
  noClose " WHERE age > 25 *" = true
  /\ next (newTokenizer ("/*" +:+ " WHERE age > 25 *"))
     = Ok (Teof, {| rest := EmptyString; peeked := None |})
  /\ absent newline " LIMIT 10" = true
  /\ next (newTokenizer ("--" +:+ " LIMIT 10"))
     = Ok (Teof, {| rest := EmptyString; peeked := None |}).
Proof.
  destruct (unclosed_comment_runs_to_end " WHERE age > 25 *") as [H1 _].
  destruct (unclosed_comment_runs_to_end " LIMIT 10") as [_ H2].
  split; [reflexivity|]. split; [apply H1; reflexivity|].
  split; [reflexivity|]. apply H2; reflexivity.
Defined.

(** ** The tokenizer: string literals *)

Lemma scanString_terminated quote body s :
  Ascii.eqb quote backslash = false ->
  forall val,
  unterminated quote body = true ->
  danglingEscape body = false ->
  scanString quote val (body +:+ String quote s)
  = (val +:+ resolveEscapes body, s).
Proof.
  intros Hq.
  assert (Hind : forall n body, String.length body <= n -> forall val,
            unterminated quote body = true ->
            danglingEscape body = false ->
            scanString quote val (body +:+ String quote s)
            = (val +:+ resolveEscapes body, s)).
  { clear body. induction n as [|n IH]; intros body Hlen val Hu Hd.
    - destruct body; [|simpl in Hlen; lia].
      change (EmptyString +:+ String quote s) with (String quote s).
      cbn [scanString resolveEscapes]. rewrite Hq, Ascii.eqb_refl.
      rewrite append_nil_r. reflexivity.
    - destruct body as [|c body].
      { change (EmptyString +:+ String quote s) with (String quote s).
        cbn [scanString resolveEscapes]. rewrite Hq, Ascii.eqb_refl.
        rewrite append_nil_r. reflexivity. }
      rewrite append_String.
      cbn [scanString unterminated resolveEscapes danglingEscape] in *.
      destruct (Ascii.eqb c backslash).
      + destruct body as [|c2 body]; [discriminate|].
        rewrite append_String.
        rewrite IH by (simpl in Hlen; first [lia | assumption]).
        rewrite append_assoc. reflexivity.
      + destruct (Ascii.eqb c quote); [discriminate|].
        rewrite IH by (simpl in Hlen; first [lia | assumption]).
        rewrite append_assoc. reflexivity. }
  intros val Hu Hd. apply (Hind (String.length body) body); auto.
Qed.

(** X4.  A string literal ends at the first quote that no backslash escapes:
    its value is the text between the quotes with each backslash dropped and
    the character after it kept, and the tokenizer goes on after the closing
    quote. *)
Theorem next_string_literal quote body s :
  quote = "'"%char \/ quote = dquote ->
  unterminated quote body = true ->
  danglingEscape body = false ->
  next (newTokenizer (String quote (body +:+ String quote s)))
  = Ok (Tstring (resolveEscapes body), {| rest := s; peeked := None |}).
Proof.
  intros Hq Hu Hd.
  unfold next, newTokenizer. cbn [peeked rest scan String.length].
  destruct Hq as [->| ->]; cbn [dropWhile _isSpace in_range ascii_code];
    simpl; rewrite (scanString_terminated _ body s) by (assumption || reflexivity);
    reflexivity.
Qed.

Lemma next_string_literal_witness :
  let body := "O" +:+ String backslash "'Brien" in
  unterminated "'" body = true
  /\ danglingEscape body = false
  /\ next (newTokenizer (String "'" (body +:+ String "'" " AND x = 1")))
     = Ok (Tstring "O'Brien", {| rest := " AND x = 1"; peeked := None |}).
Proof.
  intros body.
  split; [reflexivity|]. split; [reflexivity|].
  exact (next_string_literal "'" body " AND x = 1" (or_introl eq_refl)
           eq_refl eq_refl).
Defined.

(** ** The parser: keywords after a peeked token *)

Lemma tryKW_peeked kw t tok :
  peeked t = Some tok ->
  _tryKW kw t = Ok (match tok with Tident v => kwEq v kw | _ => false end, t).
Proof.
  intros Hp. unfold _tryKW, bind. rewrite (proj1 (peek_peeked t tok Hp)).
  reflexivity.
Qed.

Lemma eatKW_peeked kw t tok :
  peeked t = Some tok ->
  _eatKW kw t
  = Ok (match tok with Tident v => kwEq v kw | _ => false end,
        if match tok with Tident v => kwEq v kw | _ => false end
        then {| rest := rest t; peeked := None |} else t).
Proof.
  intros Hp. unfold _eatKW, bind.
  destruct (peek_peeked t tok Hp) as [-> Hn].
  destruct tok as [| | |v| | |]; try reflexivity.
  destruct (kwEq v kw); [|reflexivity]. rewrite Hn. reflexivity.
Qed.

Lemma tryKW_Ok kw t b t1 :
  _tryKW kw t = Ok (b, t1) ->
  exists tok,
    peeked t1 = Some tok
    /\ b = match tok with Tident v => kwEq v kw | _ => false end.
Proof.
  unfold _tryKW. intros H. bstep H as tok t' Hpeek.
  apply ret_Ok in H. injection H as -> ->.
  exists tok. split; [exact (proj1 (peek_Ok _ _ _ Hpeek))|reflexivity].
Qed.

Lemma kwEq_exclusive v k1 k2 :
  kwEq v k1 = true -> toUpperCase k1 <> toUpperCase k2 -> kwEq v k2 = false.
Proof.
  unfold kwEq. intros H Hne. apply String.eqb_eq in H.
  apply String.eqb_neq. congruence.
Qed.

(** ** The parser: joins *)

(** The token that lets the loop of [parseJoins] go on is not one that
    [_eatKW('LEFT')] or [_eatKW('LEFT OUTER')] accepts. *)
Lemma join_keyword_is_not_left tok :
  (match tok with Tident v => kwEq v "JOIN" | _ => false end)
  || (match tok with Tident v => kwEq v "INNER JOIN" | _ => false end)
  || (match tok with Tident v => kwEq v "LEFT JOIN" | _ => false end)
  || (match tok with Tident v => kwEq v "LEFT OUTER JOIN" | _ => false end) = true ->
  match tok with Tident v => kwEq v "LEFT" | _ => false end = false
  /\ match tok with Tident v => kwEq v "LEFT OUTER" | _ => false end = false.
Proof.
  destruct tok as [| | |v| | |]; try discriminate.
  intros H. repeat (apply orb_prop in H as [H|H]);
    split; apply (kwEq_exclusive _ _ _ H); discriminate.
Qed.

Lemma parseField_is_field t e t' : parseField t = Ok (e, t') -> isField e = true.
Proof.
  unfold parseField. intros H. bstep H as a t1 Ha. bstep H as dot t2 Hdot.
  destruct dot.
  - bstep H as b t3 Hb. apply ret_Ok in H. injection H as -> ->. reflexivity.
  - apply ret_Ok in H. injection H as -> ->. reflexivity.
Qed.

Lemma parseJoinCondition_shape t e t' :
  parseJoinCondition t = Ok (e, t') -> equalityOfFields e = true.
Proof.
  unfold parseJoinCondition. intros H.
  bstep H as l t1 Hl. bstep H as op t2 Hop. bstep H as r t3 Hr.
  apply ret_Ok in H. injection H as -> ->.
  apply parseField_is_field in Hl, Hr.
  unfold _expectOp in Hop. bstep Hop as tok t4 Htok.
  destruct tok as [| | | | | |v]; try discriminate.
  destruct (String.eqb v "=") eqn:E; [|discriminate].
  apply ret_Ok in Hop. injection Hop as -> ->.
  destruct l; try discriminate. destruct r; try discriminate. exact E.
Qed.

Lemma parseJoins_parsed fuel :
  forall js t r t',
  parseJoins fuel js t = Ok (r, t') ->
  Forall (fun j => parsedJoin j = true) js ->
  Forall (fun j => parsedJoin j = true) r.
Proof.
  induction fuel as [|fuel IH]; intros js t r t' H Hjs; [discriminate|].
  cbn [parseJoins] in H.
  bstep H as a t1 Ha. apply tryKW_Ok in Ha as (tok & Hp & ->).
  bstep H as b t2 Hb.
  assert (Hb' : t2 = t1
                /\ b = (match tok with Tident v => kwEq v "JOIN" | _ => false end)
                       || (match tok with Tident v => kwEq v "INNER JOIN" | _ => false end)).
  { destruct (match tok with Tident v => kwEq v "JOIN" | _ => false end).
    - apply ret_Ok in Hb. injection Hb as -> ->. auto.
    - rewrite (tryKW_peeked _ _ _ Hp) in Hb. injection Hb as -> ->. auto. }
  destruct Hb' as [-> ->]. clear Hb.
  bstep H as c t3 Hc.
  assert (Hc' : t3 = t1
                /\ c = (match tok with Tident v => kwEq v "JOIN" | _ => false end)
                       || (match tok with Tident v => kwEq v "INNER JOIN" | _ => false end)
                       || (match tok with Tident v => kwEq v "LEFT JOIN" | _ => false end)).
  { destruct ((match tok with Tident v => kwEq v "JOIN" | _ => false end)
              || (match tok with Tident v => kwEq v "INNER JOIN" | _ => false end)).
    - apply ret_Ok in Hc. injection Hc as -> ->. auto.
    - rewrite (tryKW_peeked _ _ _ Hp) in Hc. injection Hc as -> ->. auto. }
  destruct Hc' as [-> ->]. clear Hc.
  bstep H as d t4 Hd.
  assert (Hd' : t4 = t1
                /\ d = (match tok with Tident v => kwEq v "JOIN" | _ => false end)
                       || (match tok with Tident v => kwEq v "INNER JOIN" | _ => false end)
                       || (match tok with Tident v => kwEq v "LEFT JOIN" | _ => false end)
                       || (match tok with Tident v => kwEq v "LEFT OUTER JOIN" | _ => false end)).
  { destruct ((match tok with Tident v => kwEq v "JOIN" | _ => false end)
              || (match tok with Tident v => kwEq v "INNER JOIN" | _ => false end)
              || (match tok with Tident v => kwEq v "LEFT JOIN" | _ => false end)).
    - apply ret_Ok in Hd. injection Hd as -> ->. auto.
    - rewrite (tryKW_peeked _ _ _ Hp) in Hd. injection Hd as -> ->. auto. }
  destruct Hd' as [-> Hd']. clear Hd.
  destruct d; [|apply ret_Ok in H; injection H as <- <-; exact Hjs].
  symmetry in Hd'. apply join_keyword_is_not_left in Hd' as [Hl Hlo].
  bstep H as l1 t5 Hl1. rewrite (eatKW_peeked _ _ _ Hp), Hl in Hl1.
  injection Hl1 as <- <-.
  bstep H as l2 t6 Hl2. cbn iota in Hl2.
  rewrite (eatKW_peeked _ _ _ Hp), Hlo in Hl2. injection Hl2 as <- <-.
  bstep H as ty t7 Hty. cbn iota in Hty.
  assert (Hinner : ty = "INNER").
  { bstep Hty as i t8 Hi. destruct i.
    - apply ret_Ok in Hty. congruence.
    - bstep Hty as j t9 Hj. destruct j.
      + apply ret_Ok in Hty. congruence.
      + bstep Hty as x t10 Hx. apply ret_Ok in Hty. congruence. }
  subst ty.
  bstep H as table t8 Htab. bstep H as x t9 Hon. bstep H as on t10 Hcond.
  apply parseJoinCondition_shape in Hcond.
  apply IH in H; [exact H|].
  apply Forall_app. split; [exact Hjs|]. constructor; [|constructor].
  unfold parsedJoin. cbn [j_type j_on]. rewrite Hcond. reflexivity.
Qed.

Lemma parseSelect_parsed fuel t s t' :
  parseSelect fuel t = Ok (s, t') ->
  Forall (fun j => parsedJoin j = true) (joins s).
Proof.
  unfold parseSelect. intros H.
  bstep H as cols t1 H1. bstep H as x1 t2 H2. bstep H as frm t3 H3.
  bstep H as js t4 H4.
  apply parseJoins_parsed in H4; [|constructor].
  repeat step H. apply ret_Ok in H. injection H as -> ->. exact H4.
Qed.

Lemma parseSelect_inner fuel t s t' :
  parseSelect fuel t = Ok (s, t') ->
  Forall (fun j => j_type j = "INNER") (joins s).
Proof.
  intros H. apply parseSelect_parsed in H.
  eapply Forall_impl; [exact H|]. intros j Hj. unfold parsedJoin in Hj.
  apply andb_prop in Hj as [Hj _]. apply String.eqb_eq. exact Hj.
Qed.

(** X5.  The parser builds no LEFT join: every join of a parsed SELECT, and of
    the SELECT of an [INSERT ...  SELECT], has type [INNER]. *)
Theorem parsed_joins_are_inner fuel t st t' :
  parseStatement fuel t = Ok (st, t') ->
  match st with
  | SELECT s | INSERT_SELECT _ _ s => Forall (fun j => j_type j = "INNER") (joins s)
  | _ => True
  end.
Proof.
  unfold parseStatement. intros H. bstep H as tok t1 Htok.
  destruct (String.eqb (toUpperCase tok) "SELECT").
  { bstep H as s t2 Hs. apply ret_Ok in H. injection H as -> ->.
    exact (parseSelect_inner _ _ _ _ Hs). }
  destruct (String.eqb (toUpperCase tok) "INSERT").
  { unfold parseInsert in H.
    bstep H as x1 t2 H1. bstep H as into t3 H2. bstep H as paren t4 H3.
    bstep H as cols t5 H4. bstep H as v t6 H5. destruct v.
    - bstep H as vals t7 H6. apply ret_Ok in H. injection H as -> ->. exact I.
    - bstep H as s t7 H6. destruct s; [|discriminate].
      bstep H as sel t8 H7. apply ret_Ok in H. injection H as -> ->.
      exact (parseSelect_inner _ _ _ _ H7). }
  destruct (String.eqb (toUpperCase tok) "UPDATE").
  { unfold parseUpdate in H. repeat step H.
    apply ret_Ok in H. injection H as -> ->. exact I. }
  destruct (String.eqb (toUpperCase tok) "DELETE").
  { unfold parseDelete in H. repeat step H.
    apply ret_Ok in H. injection H as -> ->. exact I. }
  destruct (String.eqb (toUpperCase tok) "BEGIN").
  { apply ret_Ok in H. injection H as -> ->. exact I. }
  destruct (String.eqb (toUpperCase tok) "COMMIT").
  { apply ret_Ok in H. injection H as -> ->. exact I. }
  destruct (String.eqb (toUpperCase tok) "ROLLBACK").
  { apply ret_Ok in H. injection H as -> ->. exact I. }
  discriminate.
Qed.

Lemma parsed_joins_are_inner_witness :
  exists s t',
    parseStatement (S (String.length inner_join_sql)) (newTokenizer inner_join_sql)
    = Ok (SELECT s, t')
    /\ length (joins s) = 2
    /\ Forall (fun j => j_type j = "INNER") (joins s).
Proof.
  destruct (parseStatement (S (String.length inner_join_sql))
              (newTokenizer inner_join_sql)) as [[st t']|e] eqn:H;
    [|vm_compute in H; discriminate].
  pose proof (parsed_joins_are_inner _ _ _ _ H) as Hj.
  assert (Hst : match st with SELECT s => length (joins s) = 2 | _ => False end).
  { vm_compute in H. injection H as <- _. reflexivity. }
  destruct st; try contradiction. eauto.
Defined.

Lemma toUpperChar_space c : toUpperChar c = " "%char -> c = " "%char.
Proof.
  destruct c as [[] [] [] [] [] [] [] []]; vm_compute; congruence.
Qed.

Lemma absent_space_toUpperCase v :
  absent " " v = true -> absent " " (toUpperCase v) = true.
Proof.
  induction v as [|c v IH]; [reflexivity|].
  cbn [absent toUpperCase]. intros H. apply andb_prop in H as [Hc Hv].
  rewrite (IH Hv), andb_true_r.
  apply negb_true_iff. apply negb_true_iff in Hc.
  apply Ascii.eqb_neq. apply Ascii.eqb_neq in Hc.
  intros E. apply Hc. apply toUpperChar_space. exact E.
Qed.

Lemma one_word_keyword v kw :
  absent " " v = true -> absent " " (toUpperCase kw) = false -> kwEq v kw = false.
Proof.
  intros Hv Hkw. unfold kwEq. apply String.eqb_neq. intros E.
  apply absent_space_toUpperCase in Hv. congruence.
Qed.

(** X6.  Only the bare keyword [JOIN] starts a join.  The loop compares one
    token with the texts [INNER JOIN], [LEFT JOIN] and [LEFT OUTER JOIN]: when
    the token after the table is not [JOIN] (an identifier has no space), the
    loop ends there and parses no join, [INNER] and [LEFT] included. *)
Theorem only_bare_join_starts_a_join fuel js t tok t1 :
  peek t = Ok (tok, t1) ->
  (forall v, tok = Tident v -> absent " " v = true /\ kwEq v "JOIN" = false) ->
  parseJoins (S fuel) js t = Ok (js, t1).
Proof.
  intros Hpeek Htok.
  destruct (peek_Ok _ _ _ Hpeek) as [Hp _].
  assert (Hkw : forall kw,
            kw = "JOIN" \/ absent " " (toUpperCase kw) = false ->
            match tok with Tident v => kwEq v kw | _ => false end = false).
  { intros kw Hk. destruct tok as [| | |v| | |]; try reflexivity.
    destruct (Htok v eq_refl) as [Hv Hj].
    destruct Hk as [->|Hk]; [exact Hj|]. exact (one_word_keyword v kw Hv Hk). }
  cbn [parseJoins]. unfold bind at 1. unfold _tryKW at 1. unfold bind at 1.
  rewrite Hpeek. unfold ret at 1. rewrite (Hkw "JOIN") by auto.
  unfold bind at 1. rewrite (tryKW_peeked _ _ _ Hp), (Hkw "INNER JOIN") by auto.
  unfold bind at 1. rewrite (tryKW_peeked _ _ _ Hp), (Hkw "LEFT JOIN") by auto.
  unfold bind at 1. rewrite (tryKW_peeked _ _ _ Hp), (Hkw "LEFT OUTER JOIN") by auto.
  reflexivity.
Qed.

Lemma only_bare_join_starts_a_join_witness :
  let t := newTokenizer " INNER JOIN orders o ON o.userId = u._id" in
  let t1 := {| rest := " JOIN orders o ON o.userId = u._id";
               peeked := Some (Tident "INNER") |} in
  peek t = Ok (Tident "INNER", t1)
  /\ parseJoins 1 [] t = Ok ([], t1)
  /\ query db "SELECT * FROM users u INNER JOIN orders o ON o.userId = u._id" ∅ []
     = Ok (Aggregate "users" [])
  /\ query db "SELECT * FROM users u LEFT JOIN orders o ON o.userId = u._id" ∅ []
     = Ok (Aggregate "users" [])
  /\ query db header_sql {[ "country" := VStr "NG" ]} [VInt 3]
     = Throw (Error "Unknown function: COUNT").
Proof.
  intros t t1.
  split; [reflexivity|]. split; [|repeat split; vm_compute; reflexivity].
  apply (only_bare_join_starts_a_join 0 [] t (Tident "INNER") t1 eq_refl).
  intros v [= <-]. split; reflexivity.
Defined.

(** ** The parser: aliases *)

(** X7.  An identifier after a table name or after a select item is taken as
    its alias whatever it is, a keyword included: no word is reserved. *)
Theorem alias_may_be_a_keyword x :
  kwEq x "AS" = false ->
  (forall t name t1 t2,
     next t = Ok (Tident name, t1) ->
     peek t1 = Ok (Tident x, t2) ->
     parseTableRef t
     = Ok ({| t_name := name; t_alias := Some x |},
           {| rest := rest t2; peeked := None |}))
  /\ (forall fuel t t0 e t1 t2,
        _eatOp "*" t = Ok (false, t0) ->
        parseExpr fuel t0 = Ok (e, t1) ->
        peek t1 = Ok (Tident x, t2) ->
        parseSelectItem fuel t
        = Ok ({| sel_expr := e; sel_alias := Some x |},
              {| rest := rest t2; peeked := None |})).
Proof.
  intros Has.
  assert (Htail : forall t1 t2,
            peek t1 = Ok (Tident x, t2) ->
            _eatKW "AS" t1 = Ok (false, t2)
            /\ _peekIdent t2 = Ok (true, t2)
            /\ _maybeIdent t2 = Ok (Some x, {| rest := rest t2; peeked := None |})).
  { intros t1 t2 Hpeek.
    destruct (peek_Ok _ _ _ Hpeek) as [Hp _].
    destruct (peek_peeked _ _ Hp) as [Hp2 Hn2].
    split; [|split].
    - unfold _eatKW, bind. rewrite Hpeek, Has. reflexivity.
    - unfold _peekIdent, bind. rewrite Hp2. reflexivity.
    - unfold _maybeIdent, bind. rewrite Hp2. unfold bind. rewrite Hn2.
      reflexivity. }
  split.
  - intros t name t1 t2 Hnext Hpeek.
    destruct (Htail _ _ Hpeek) as (Ha & Hb & Hc).
    unfold parseTableRef, _expectIdent, bind. rewrite Hnext. cbn iota beta.
    unfold ret at 1. rewrite Ha. cbn iota. rewrite Hb. cbn iota. rewrite Hc.
    reflexivity.
  - intros fuel t t0 e t1 t2 Hstar Hexpr Hpeek.
    destruct (Htail _ _ Hpeek) as (Ha & Hb & Hc).
    unfold parseSelectItem, bind. rewrite Hstar. cbn iota. rewrite Hexpr.
    cbn iota. rewrite Ha. cbn iota. rewrite Hb. cbn iota. rewrite Hc.
    reflexivity.
Qed.

Lemma alias_may_be_a_keyword_witness :
  kwEq "WHERE" "AS" = false
  /\ parseTableRef (newTokenizer "users WHERE age > 25")
     = Ok ({| t_name := "users"; t_alias := Some "WHERE" |},
           {| rest := " age > 25"; peeked := None |})
  /\ query db "SELECT * FROM users WHERE age > 25" ∅ [] = Ok (Aggregate "users" [])
  /\ query db "SELECT name FROM users" ∅ [] = Throw (Error "Expected FROM").
Proof.
  destruct (alias_may_be_a_keyword "WHERE" eq_refl) as [H _].
  split; [reflexivity|]. split; [|split; vm_compute; reflexivity].
  exact (H (newTokenizer "users WHERE age > 25")
           "users" {| rest := " WHERE age > 25"; peeked := None |}
           {| rest := " age > 25"; peeked := Some (Tident "WHERE") |}
           eq_refl eq_refl).
Defined.

(** ** The parser: a text without a statement *)

(** X8.  A text made of whitespace and comments only, the empty text included,
    is rejected with the message of a missing identifier, before any parameter
    is looked at. *)
Theorem blank_text_is_rejected this sql nm ps :
  trivia sql -> query this sql nm ps = Throw (Error "Expected identifier").
Proof.
  intros Hsql.
  assert (Hn : next (newTokenizer sql)
               = Ok (Teof, {| rest := EmptyString; peeked := None |})).
  { rewrite <- (append_nil_r sql).
    rewrite (next_skips_trivia sql EmptyString Hsql). reflexivity. }
  unfold query, parseStatement, _expectIdent, bind. rewrite Hn. reflexivity.
Qed.

Lemma blank_text_is_rejected_witness :
  query db ("  -- nothing here" +:+ String newline EmptyString) ∅ []
  = Throw (Error "Expected identifier").
Proof.
  apply blank_text_is_rejected.
  apply (trivia_space "  "); [reflexivity|].
  apply (trivia_line " nothing here"); [reflexivity|apply trivia_nil].
Defined.

(** ** Parameters: what compiling does to the binder *)

Lemma respects_ret {A} (a : A) : respects (ret a).
Proof.
  intros b a' b' H. apply ret_Ok in H. injection H as <- <-.
  repeat split; auto.
Qed.

Lemma respects_throw {A} e : respects (@throw ParamBinder A e).
Proof. intros b a b' H. discriminate. Qed.

Lemma respects_lift {A} (r : result A) : respects (lift r).
Proof.
  intros b a b' H. apply lift_Ok in H as (x & -> & [= <- <-]).
  repeat split; auto.
Qed.

Lemma respects_bind {A B} (c : M A) (k : A -> M B) :
  respects c -> (forall a, respects (k a)) -> respects (bind c k).
Proof.
  intros Hc Hk b r b' H. bstep H as a b1 Ha.
  destruct (Hc _ _ _ Ha) as (Hn1 & Hp1 & Hi1 & Hb1 & He1).
  destruct (Hk a _ _ _ H) as (Hn2 & Hp2 & Hi2 & Hb2 & He2).
  split; [congruence|]. split; [congruence|]. split; [lia|].
  split.
  - intros Hle. rewrite <- Hp1. apply Hb2. rewrite Hp1. auto.
  - intros extra. unfold bind. rewrite He1. apply He2.
Qed.

Lemma respects_forM {A T} (l : list A) (body : T -> A -> M T) :
  (forall acc x, respects (body acc x)) -> forall acc, respects (forM l body acc).
Proof.
  intros Hbody. induction l as [|x l IH]; intros acc; cbn [forM].
  - apply respects_ret.
  - apply respects_bind; auto.
Qed.

Lemma respects_mapM {A B} (f : A -> M B) (l : list A) :
  (forall x, respects (f x)) -> respects (mapM f l).
Proof.
  intros Hf. induction l as [|x l IH]; cbn [mapM].
  - apply respects_ret.
  - apply respects_bind; [auto|]. intros v.
    apply respects_bind; [auto|]. intros vs. apply respects_ret.
Qed.

Lemma respects_nextPositional : respects nextPositional.
Proof.
  intros b a b' H. unfold nextPositional in *.
  destruct (decide (length (positional b) <= posIndex b)) as [|Hlt];
    [discriminate|].
  injection H as <- <-. cbn [named positional posIndex].
  split; [reflexivity|]. split; [reflexivity|]. split; [lia|]. split; [lia|].
  intros extra. unfold extend. cbn [named positional posIndex].
  rewrite length_app.
  destruct (decide (length (positional b) + length extra <= posIndex b));
    [lia|].
  rewrite lookup_app_l by lia. reflexivity.
Qed.

Lemma respects_lookupNamed name : respects (lookupNamed name).
Proof.
  intros b a b' H. unfold lookupNamed in *. unfold extend at 1.
  cbn [named].
  destruct (default (inherited name) (named b !! name)); try discriminate;
    injection H as <- <-; repeat split; auto.
Qed.

Ltac respects_step :=
  first
    [ apply respects_ret
    | apply respects_throw
    | apply respects_lift
    | apply respects_nextPositional
    | apply respects_lookupNamed
    | assumption
    | apply respects_bind; [|intros ?]
    | match goal with
      | |- respects (if ?c then _ else _) => destruct c
      | |- respects (match ?x with _ => _ end) => destruct x
      end ].

Lemma respects_bindValue e : respects (bindValue e).
Proof.
  induction e as [| | | | | |vs IH|f t IHf IHt| | | | | |] using expr_ind;
    cbn [bindValue]; repeat respects_step.
  induction IH as [|v vs Hv Hvs IH]; repeat respects_step.
Qed.

Lemma respects_bindValue' e : respects (bindValue' e).
Proof. destruct e; [apply respects_bindValue|apply respects_ret]. Qed.

Lemma respects_buildMatch dt e : respects (buildMatch e dt).
Proof.
  induction e as [| | | | | |vs IH|f t IHf IHt| | |op l r IHl IHr|op x IHx| |]
    using expr_ind; cbn [buildMatch]; try apply respects_throw.
  - destruct (bool_decide (op = "AND" \/ op = "OR")); [repeat respects_step|].
    destruct (isField l); [|apply respects_throw].
    apply respects_bind; [apply respects_lift|]. intros q.
    apply respects_bind; [apply respects_bindValue|]. intros val.
    repeat match goal with
           | |- respects (if ?c then _ else _) => destruct c
           end; try apply respects_ret; try apply respects_throw.
    + destruct r; first [apply respects_ret | apply respects_throw].
    + destruct r; first [apply respects_ret | apply respects_throw].
    + assert (H : respects
                    (lo <- bindValue' (match r with EBetween f _ => Some f | _ => None end) ;;
                     hi <- bindValue' (match r with EBetween _ t => Some t | _ => None end) ;;
                     ret (obj1 (q_path q) (VObj [("$gte", lo); ("$lte", hi)])))).
      { apply respects_bind; [apply respects_bindValue'|]. intros lo.
        apply respects_bind; [apply respects_bindValue'|]. intros hi.
        apply respects_ret. }
      destruct r; exact H.
  - destruct (String.eqb op "NOT"); repeat respects_step.
Qed.

Lemma respects_buildMatch' dt e : respects (buildMatch' e dt).
Proof. destruct e; [apply respects_buildMatch|apply respects_ret]. Qed.

Lemma respects_buildUpdate setList : respects (buildUpdate setList).
Proof.
  unfold buildUpdate. apply respects_bind; [|intros; apply respects_ret].
  apply respects_forM. intros acc x.
  apply respects_bind; [apply respects_bindValue|intros; apply respects_ret].
Qed.

Lemma respects_toMongoExpr main js fns e : respects (toMongoExpr e main js fns).
Proof.
  induction e as [| | | | | |vs IH|f t IHf IHt| |n args IH|op l r IHl IHr|op x IHx| |]
    using expr_ind; cbn [toMongoExpr bindValue]; try solve [repeat respects_step].
  destruct fns as [fns|]; [|apply respects_throw].
  destruct (lookupFunction fns (toUpperCase n)); [|apply respects_throw].
  apply respects_bind; [|intros; apply respects_ret].
  induction IH as [|x xs Hx Hxs IH]; repeat respects_step.
Qed.

Lemma respects_toMongoAgg name args main js : respects (toMongoAgg name args main js).
Proof.
  assert (H : respects (toMongoExpr' (args !! 0) main js None)).
  { destruct (args !! 0); [apply respects_toMongoExpr|apply respects_throw]. }
  unfold toMongoAgg. repeat respects_step.
Qed.

Lemma respects_buildHaving e : respects (buildHaving e).
Proof.
  destruct e; cbn [buildHaving]; try apply respects_throw.
  apply respects_bind; [apply respects_bindValue|]. intros v.
  repeat respects_step.
Qed.

Lemma respects_lowerJoin this main pipeline j : respects (lowerJoin this main pipeline j).
Proof. unfold lowerJoin. repeat respects_step. Qed.

Lemma respects_execSelect this ast : respects (_execSelect this ast).
Proof.
  unfold _execSelect.
  apply respects_bind; [apply respects_lift|]. intros col.
  apply respects_bind.
  { destruct (where_ ast); [|apply respects_ret].
    apply respects_bind; [apply respects_buildMatch|intros; apply respects_ret]. }
  intros p1. apply respects_bind.
  { apply respects_forM. intros acc j. apply respects_lowerJoin. }
  intros p2. apply respects_bind; [|intros; apply respects_ret].
  destruct (groupBy ast).
  - destruct (isSelectAll (columns ast)); [apply respects_ret|].
    apply respects_bind; [|intros; apply respects_ret].
    apply respects_forM. intros acc sel.
    apply respects_bind; [apply respects_toMongoExpr|intros; apply respects_ret].
  - apply respects_bind.
    { apply respects_forM. intros acc g.
      apply respects_bind; [apply respects_toMongoExpr|intros; apply respects_ret]. }
    intros idExpr. apply respects_bind.
    { apply respects_forM. intros acc sel.
      destruct (sel_expr sel) as [| | | | | | | | |f fargs| | | |];
        try apply respects_ret.
      destruct (isAggregate f); [|apply respects_ret].
      apply respects_bind; [apply respects_toMongoAgg|intros; apply respects_ret]. }
    intros group. apply respects_bind; [|intros; apply respects_ret].
    destruct (having ast); [|apply respects_ret].
    apply respects_bind; [apply respects_buildHaving|intros; apply respects_ret].
Qed.

Lemma respects_execUpdate this table set w : respects (_execUpdate this table set w).
Proof.
  unfold _execUpdate.
  apply respects_bind; [apply respects_lift|]. intros col.
  apply respects_bind; [apply respects_buildMatch'|]. intros f.
  apply respects_bind; [apply respects_buildUpdate|]. intros u.
  apply respects_ret.
Qed.

Lemma respects_execDelete this frm w : respects (_execDelete this frm w).
Proof.
  unfold _execDelete.
  apply respects_bind; [apply respects_lift|]. intros col.
  apply respects_bind; [apply respects_buildMatch'|]. intros f.
  apply respects_ret.
Qed.

Lemma respects_execInsert this into cols values :
  respects (_execInsert this into cols values).
Proof.
  unfold _execInsert.
  apply respects_bind; [apply respects_lift|]. intros col.
  apply respects_bind; [|intros; apply respects_ret].
  apply respects_mapM. intros row.
  apply respects_bind; [|intros; apply respects_ret].
  apply respects_forM. intros acc [i c].
  apply respects_bind; [apply respects_bindValue'|intros; apply respects_ret].
Qed.

Lemma respects_execute this ast : respects (execute this ast).
Proof.
  destruct ast as [s|into cols values|into cols sel|table set w|frm w| | |];
    cbn [execute]; try apply respects_ret.
  - apply respects_bind; [apply respects_execSelect|].
    intros [col p]. apply respects_ret.
  - apply respects_bind; [apply respects_execInsert|].
    intros [col d]. apply respects_ret.
  - apply respects_bind; [apply respects_lift|]. intros col.
    apply respects_bind; [apply respects_execSelect|].
    intros [src p]. apply respects_ret.
  - apply respects_bind; [apply respects_execUpdate|].
    intros [[col f] u]. apply respects_ret.
  - apply respects_bind; [apply respects_execDelete|].
    intros [col f]. apply respects_ret.
Qed.

(** X9.  Compiling a statement only reads the parameters: the named values and
    the positional list are unchanged, the cursor moves forward only and, from
    a position within the list, never past its end. *)
Theorem compiling_keeps_the_parameters this ast b cmd b' :
  execute this ast b = Ok (cmd, b') ->
  named b' = named b
  /\ positional b' = positional b
  /\ posIndex b <= posIndex b'
  /\ (posIndex b <= length (positional b) -> posIndex b' <= length (positional b)).
Proof.
  intros H. destruct (respects_execute this ast _ _ _ H) as (? & ? & ? & ? & _).
  auto.
Qed.

Lemma compiling_keeps_the_parameters_witness :
  let ast := DELETE "users" (Some (EBinary "=" (EField None "id" None) EParamPos)) in
  let b := newParamBinder ∅ [VInt 7; VInt 8] in
  let b' := advance b 1 in
  execute db ast b = Ok (DeleteMany "users" (obj1 "users.id" (VInt 7)), b')
  /\ positional b' = positional b
  /\ posIndex b' <= length (positional b).
Proof.
  intros ast b b'.
  assert (H : execute db ast b
              = Ok (DeleteMany "users" (obj1 "users.id" (VInt 7)), b'))
    by reflexivity.
  destruct (compiling_keeps_the_parameters db ast b _ b' H) as (_ & Hp & _ & Hb).
  split; [exact H|]. split; [exact Hp|]. apply Hb. simpl. lia.
Defined.

(** X10.  Positional values beyond those that the statement uses are ignored:
    a statement that compiles with a list of values compiles to the same
    command with more values after them. *)
Theorem surplus_values_are_ignored this sql nm ps extra cmd :
  query this sql nm ps = Ok cmd ->
  query this sql nm (ps ++ extra) = Ok cmd.
Proof.
  unfold query.
  destruct (parseStatement (S (String.length sql)) (newTokenizer sql))
    as [[ast t]|e]; [|discriminate].
  destruct (execute this ast (newParamBinder nm ps)) as [[c b']|e] eqn:H;
    [|discriminate].
  intros [= <-].
  destruct (respects_execute this ast _ _ _ H) as (_ & _ & _ & _ & He).
  change (newParamBinder nm (ps ++ extra)) with (extend (newParamBinder nm ps) extra).
  rewrite He. reflexivity.
Qed.

Lemma surplus_values_are_ignored_witness :
  let sql := "UPDATE users SET name = ? WHERE id = ?" in
  let cmd := UpdateMany "users" (obj1 "users.id" (VStr "Ada"))
               (obj1 "$set" (VObj [("name", VInt 7)])) in
  query db sql ∅ [VStr "Ada"; VInt 7] = Ok cmd
  /\ query db sql ∅ ([VStr "Ada"; VInt 7] ++ [VStr "unused"]) = Ok cmd.
Proof.
  intros sql cmd.
  assert (H : query db sql ∅ [VStr "Ada"; VInt 7] = Ok cmd)
    by (vm_compute; reflexivity).
  split; [exact H|].
  exact (surplus_values_are_ignored db sql ∅ _ [VStr "unused"] cmd H).
Defined.

(** ** LIKE: the pattern that the store reads *)

Lemma meta_is_no_wildcard c :
  isRegexMeta c = true -> Ascii.eqb c "%" = false /\ Ascii.eqb c "_" = false.
Proof.
  intros H. split.
  - destruct (Ascii.eqb c "%") eqn:E; [|reflexivity].
    apply Ascii.eqb_eq in E. subst c. discriminate.
  - destruct (Ascii.eqb c "_") eqn:E; [|reflexivity].
    apply Ascii.eqb_eq in E. subst c. discriminate.
Qed.

Lemma plain_char c :
  isRegexMeta c = false ->
  Ascii.eqb c backslash = false /\ Ascii.eqb c "$" = false
  /\ Ascii.eqb c "." = false /\ Ascii.eqb c "*" = false.
Proof.
  intros H. repeat split.
  - destruct (Ascii.eqb c backslash) eqn:E; [|reflexivity].
    apply Ascii.eqb_eq in E. subst c. discriminate.
  - destruct (Ascii.eqb c "$") eqn:E; [|reflexivity].
    apply Ascii.eqb_eq in E. subst c. discriminate.
  - destruct (Ascii.eqb c ".") eqn:E; [|reflexivity].
    apply Ascii.eqb_eq in E. subst c. discriminate.
  - destruct (Ascii.eqb c "*") eqn:E; [|reflexivity].
    apply Ascii.eqb_eq in E. subst c. discriminate.
Qed.

(** What the three passes of [likeToRegex] make of a pattern, one
    character at a time. *)
Lemma likeToRegex_body c p :
  replaceChar "_" "." (replaceChar "%" ".*" (escapeRegex (String c p)))
  = (if isRegexMeta c then String backslash (String c EmptyString)
     else if Ascii.eqb c "%" then ".*"
     else if Ascii.eqb c "_" then "."
     else String c EmptyString)
    +:+ replaceChar "_" "." (replaceChar "%" ".*" (escapeRegex p)).
Proof.
  cbn [escapeRegex]. destruct (isRegexMeta c) eqn:Hm.
  - destruct (meta_is_no_wildcard c Hm) as [Hp Hu].
    cbn [replaceChar]. change (Ascii.eqb "092" "%") with false. cbn iota.
    rewrite Hp. cbn [replaceChar].
    change (Ascii.eqb "092" "_") with false. cbn iota. rewrite Hu.
    reflexivity.
  - cbn [replaceChar]. destruct (Ascii.eqb c "%") eqn:Hp.
    + change (".*" +:+ replaceChar "%" ".*" (escapeRegex p))
        with (String "." (String "*" (replaceChar "%" ".*" (escapeRegex p)))).
      cbn [replaceChar]. change (Ascii.eqb "." "_") with false.
      change (Ascii.eqb "*" "_") with false. reflexivity.
    + cbn [replaceChar]. destruct (Ascii.eqb c "_"); reflexivity.
Qed.

Lemma likeToRegex_body_start p :
  startsWith "*"
    (replaceChar "_" "." (replaceChar "%" ".*" (escapeRegex p)) +:+ "$") = false.
Proof.
  destruct p as [|c p]; [reflexivity|].
  rewrite likeToRegex_body. destruct (isRegexMeta c) eqn:Hm; [reflexivity|].
  destruct (Ascii.eqb c "%"); [reflexivity|].
  destruct (Ascii.eqb c "_"); [reflexivity|].
  cbn [startsWith String.append]. apply (plain_char c Hm).
Qed.

Lemma parse_dot s :
  startsWith "*" s = false ->
  parseRegexBody (String "." s) = cons ReAny <$> parseRegexBody s.
Proof.
  intros H. cbn [parseRegexBody].
  change (Ascii.eqb "." backslash) with false.
  change (Ascii.eqb "." "$") with false. change (Ascii.eqb "." ".") with true.
  cbn iota. destruct s as [|x s]; [reflexivity|].
  cbn [startsWith] in H.
  destruct x as [[] [] [] [] [] [] [] []]; try reflexivity. discriminate.
Qed.

(** The text that [likeToRegex] emits always reads back as the pattern
    it was made from: each [%] as [.*], each [_] as [.], every other
    character as itself. *)
Lemma append_nil_l (a : string) : EmptyString +:+ a = a.
Proof. reflexivity. Qed.

Lemma parseRegexBody_like p :
  parseRegexBody
    (replaceChar "_" "." (replaceChar "%" ".*" (escapeRegex p)) +:+ "$")
  = Some (likeItems p).
Proof.
  induction p as [|c p IH]; [reflexivity|].
  rewrite likeToRegex_body, append_assoc. cbn [likeItems].
  destruct (isRegexMeta c) eqn:Hm.
  - destruct (meta_is_no_wildcard c Hm) as [-> ->].
    rewrite !append_String, append_nil_l. cbn [parseRegexBody].
    change (Ascii.eqb backslash backslash) with true.
    cbn iota. rewrite Hm, IH. reflexivity.
  - destruct (Ascii.eqb c "%") eqn:Hp.
    + rewrite !append_String, append_nil_l. cbn [parseRegexBody].
      change (Ascii.eqb "." backslash) with false.
      change (Ascii.eqb "." "$") with false. change (Ascii.eqb "." ".") with true.
      cbn iota. rewrite IH. reflexivity.
    + destruct (Ascii.eqb c "_") eqn:Hu.
      * rewrite !append_String, append_nil_l.
        rewrite parse_dot by apply likeToRegex_body_start.
        rewrite IH. reflexivity.
      * destruct (plain_char c Hm) as (Hb & Hd & Hdot & _).
        rewrite !append_String, append_nil_l. cbn [parseRegexBody].
        rewrite Hb, Hd, Hdot, Hm, IH. reflexivity.
Qed.

Lemma anyStar_like items p' s :
  (forall s, singleLine s = true -> matchItems true items s = likeMatch p' s) ->
  singleLine s = true ->
  matchItems true (ReAnyStar :: items) s
  = (fix star (s : string) : bool :=
       likeMatch p' s
       || match s with
          | String _ s' => star s'
          | EmptyString => false
          end) s.
Proof.
  intros IH. induction s as [|x s IHs]; intros Hs.
  - cbn [matchItems]. rewrite (IH EmptyString Hs). reflexivity.
  - cbn [singleLine] in Hs. apply andb_prop in Hs as [Hx Hs'].
    cbn [matchItems] in *. rewrite (IH (String x s)), Hx
      by (cbn [singleLine]; rewrite Hx, Hs'; reflexivity).
    cbn [andb]. rewrite (IHs Hs'). reflexivity.
Qed.

Lemma matchItems_like p :
  forall s, singleLine s = true -> matchItems true (likeItems p) s = likeMatch p s.
Proof.
  induction p as [|c p IH]; intros s Hs; [reflexivity|].
  cbn [likeItems likeMatch]. destruct (Ascii.eqb c "%").
  - apply anyStar_like; assumption.
  - destruct s as [|x s].
    + destruct (Ascii.eqb c "_"); reflexivity.
    + cbn [singleLine] in Hs. apply andb_prop in Hs as [Hx Hs'].
      destruct (Ascii.eqb c "_"); cbn [matchItems orb].
      * rewrite Hx, (IH s Hs'). reflexivity.
      * rewrite (IH s Hs'). reflexivity.
Qed.

(** X11.  For every pattern, the filter that [LIKE] compiles to accepts, among
    the strings without a line terminator, exactly those that match the
    pattern as SQL's LIKE does without regard to case:  [%] any run of
    characters, [_] any one character, every other character itself, the
    metacharacters of regular expressions included. *)
Theorem like_filter_is_sql_like p s :
  singleLine s = true ->
  regexTest (likeToRegex p) s = likeMatch p s.
Proof.
  intros Hs. unfold likeToRegex. cbn [regexTest].
  change (parseRegex ("^" +:+ ?x +:+ "$")) with (parseRegexBody (x +:+ "$")).
  rewrite parseRegexBody_like.
  change (includes "i" "i") with true. apply matchItems_like. exact Hs.
Qed.

Lemma like_filter_is_sql_like_witness :
  singleLine "Johnny (jr.)" = true
  /\ regexTest (likeToRegex "j_hn% (jr.)") "Johnny (jr.)" = true
  /\ likeMatch "j_hn% (jr.)" "Johnny (jr.)" = true
  /\ regexTest (likeToRegex "j_hn% (jr.)") "Johnny (jrx)" = false.
Proof.
  split; [reflexivity|]. split; [|split].
  - rewrite (like_filter_is_sql_like "j_hn% (jr.)" "Johnny (jr.)" eq_refl).
    reflexivity.
  - reflexivity.
  - rewrite (like_filter_is_sql_like "j_hn% (jr.)" "Johnny (jrx)" eq_refl).
    reflexivity.
Defined.

(** ** Aggregates and the select list *)

Lemma forM_Ok_each {S A T} (l : list A) (body : T -> A -> State S T) :
  forall acc s r,
  forM l body acc s = Ok r ->
  forall x, x ∈ l -> exists acc0 s0 r0, body acc0 x s0 = Ok r0.
Proof.
  induction l as [|y l IH]; intros acc s r H x Hx.
  - apply elem_of_nil in Hx. contradiction.
  - cbn [forM] in H. bstep H as acc1 s1 Hy.
    apply elem_of_cons in Hx as [->|Hx]; [eauto|].
    exact (IH _ _ _ H x Hx).
Qed.

Lemma aggregate_is_no_function name args main js b :
  isAggregate name = true ->
  toMongoExpr (ECall name args) main js (Some buildBuiltinFunctions) b
  = Throw (Error ("Unknown function: " +:+ name)).
Proof.
  unfold isAggregate. intros H. apply bool_decide_eq_true in H.
  cbn [toMongoExpr].
  assert (Hl : lookupFunction buildBuiltinFunctions (toUpperCase name) = None).
  { set_unfold. destruct H as [->|[->|[->|[->|[->|[]]]]]]; reflexivity. }
  rewrite Hl. reflexivity.
Qed.

(** X12.  Without GROUP BY an aggregate in the select list does not compile:
    the call is looked up among the scalar functions, where no aggregate is,
    and the statement fails whatever else it holds. *)
Theorem aggregate_needs_group_by this ast sel name args b :
  functions this = buildBuiltinFunctions ->
  groupBy ast = [] ->
  sel ∈ columns ast ->
  sel_expr sel = ECall name args ->
  isAggregate name = true ->
  exists err, _execSelect this ast b = Throw err.
Proof.
  intros Hfns Hg Hin Hsel Hagg.
  destruct (_execSelect this ast b) as [[[col p] b']|e] eqn:H; [exfalso|eauto].
  unfold _execSelect in H.
  bstep H as c b1 H1. bstep H as p1 b2 H2. bstep H as p2 b3 H3.
  bstep H as p3 b4 H4. rewrite Hg in H4.
  destruct (isSelectAll (columns ast)) eqn:Hall.
  - unfold isSelectAll in Hall.
    destruct (columns ast) as [|c0 [|c1 cs]]; try discriminate.
    apply list_elem_of_singleton in Hin. subst c0. rewrite Hsel in Hall.
    discriminate.
  - bstep H4 as proj b5 H5.
    destruct (forM_Ok_each _ _ _ _ _ H5 sel Hin) as (acc0 & b0 & r0 & Hbody).
    bstep Hbody as x b6 Hx.
    rewrite Hsel, Hfns, (aggregate_is_no_function name args) in Hx by exact Hagg.
    discriminate.
Qed.

Lemma aggregate_needs_group_by_witness :
  exists sel,
    sel ∈ columns ungrouped_count
    /\ sel_expr sel = ECall "count" [EAll]
    /\ (exists err, _execSelect db ungrouped_count (newParamBinder ∅ []) = Throw err)
    /\ query db "SELECT COUNT(*) AS n FROM users u" ∅ []
       = Throw (Error "Unknown function: COUNT").
Proof.
  exists {| sel_expr := ECall "count" [EAll]; sel_alias := Some "n" |}.
  assert (Hin : {| sel_expr := ECall "count" [EAll]; sel_alias := Some "n" |}
                ∈ columns ungrouped_count).
  { apply list_elem_of_In. simpl. tauto. }
  split; [exact Hin|]. split; [reflexivity|]. split; [|vm_compute; reflexivity].
  exact (aggregate_needs_group_by db ungrouped_count _ "count" [EAll]
           (newParamBinder ∅ []) eq_refl eq_refl Hin eq_refl eq_refl).
Defined.

Lemma call_without_functions e :
  containsCall e = true ->
  forall main js b, exists err, toMongoExpr e main js None b = Throw err.
Proof.
  induction e as [| | | | | |vs IH|f t IHf IHt| |n args IH|op l r IHl IHr|op x IHx| |]
    using expr_ind; cbn [containsCall]; try discriminate; intros H main js b.
  - cbn [toMongoExpr]. eauto.
  - cbn [toMongoExpr]. unfold bind at 1.
    destruct (containsCall l) eqn:Hl.
    + destruct (IHl eq_refl main js b) as [err ->]. eauto.
    + destruct (toMongoExpr l main js None b) as [[v b1]|err]; [|eauto].
      cbn [orb] in H. unfold bind at 1.
      destruct (IHr H main js b1) as [err ->]. eauto.
Qed.

(** X13.  The argument of an aggregate is compiled without the table of
    functions: an aggregate over a function call, alone or inside an
    arithmetic expression, never compiles, and over a call alone it fails with
    a [TypeError]. *)
Theorem aggregate_of_a_call_fails name args a main js b :
  isAggregate name = true ->
  args !! 0 = Some a ->
  containsCall a = true ->
  (exists err, toMongoAgg name args main js b = Throw err)
  /\ (forall f fargs,
        a = ECall f fargs ->
        toMongoAgg name args main js b
        = Throw (TypeError "Cannot read properties of undefined")).
Proof.
  unfold isAggregate. intros Hagg Harg Hcall.
  apply bool_decide_eq_true in Hagg.
  assert (Hall : bool_decide (Some a = None) || isAll (Some a) = false).
  { destruct a; try discriminate; reflexivity. }
  split.
  - destruct (call_without_functions a Hcall main js b) as [err Herr].
    unfold toMongoAgg. rewrite Harg, Hall. cbn [toMongoExpr'].
    set_unfold. destruct Hagg as [->|[->|[->|[->|[->|[]]]]]];
      cbn [String.eqb Ascii.eqb Bool.eqb]; unfold bind; rewrite Herr; eauto.
  - intros f fargs ->.
    unfold toMongoAgg. rewrite Harg, Hall. cbn [toMongoExpr'].
    set_unfold. destruct Hagg as [->|[->|[->|[->|[->|[]]]]]]; reflexivity.
Qed.

Lemma aggregate_of_a_call_fails_witness :
  let a := ECall "ROUND" [EField None "price" None; ENumber (Fin 2 0)] in
  isAggregate "sum" = true
  /\ containsCall a = true
  /\ toMongoAgg "sum" [a] {| t_name := "products"; t_alias := None |} []
       (newParamBinder ∅ [])
     = Throw (TypeError "Cannot read properties of undefined")
  /\ query db "SELECT SUM(ROUND(price, 2)) AS total FROM products p GROUP BY sku" ∅ []
     = Throw (TypeError "Cannot read properties of undefined").
Proof.
  intros a. split; [reflexivity|]. split; [reflexivity|].
  split; [|vm_compute; reflexivity].
  destruct (aggregate_of_a_call_fails "sum" [a] a
              {| t_name := "products"; t_alias := None |} []
              (newParamBinder ∅ []) eq_refl eq_refl eq_refl) as [_ H].
  exact (H "ROUND" _ eq_refl).
Defined.

Lemma forM_filter {S A T} (keep : A -> bool) (l : list A)
    (body : T -> A -> State S T) :
  (forall acc x s, keep x = false -> body acc x s = Ok (acc, s)) ->
  forall acc s,
  forM l body acc s = forM (filter (fun x => keep x = true) l) body acc s.
Proof.
  intros Hskip. induction l as [|x l IH]; intros acc s; [reflexivity|].
  rewrite filter_cons. destruct (decide (keep x = true)) as [Hk|Hk].
  - cbn [forM]. unfold bind. destruct (body acc x s) as [[acc' s']|e]; auto.
  - cbn [forM]. unfold bind. rewrite Hskip by (destruct (keep x); congruence).
    apply IH.
Qed.

Lemma fold_left_filter {A T} (keep : A -> bool) (l : list A) (f : T -> A -> T) :
  (forall acc x, keep x = false -> f acc x = acc) ->
  forall acc,
  fold_left f l acc = fold_left f (filter (fun x => keep x = true) l) acc.
Proof.
  intros Hskip. induction l as [|x l IH]; intros acc; [reflexivity|].
  rewrite filter_cons. destruct (decide (keep x = true)) as [Hk|Hk].
  - cbn [fold_left]. apply IH.
  - cbn [fold_left]. rewrite Hskip by (destruct (keep x); congruence). apply IH.
Qed.

Lemma bind_ext {S A B} (c1 c2 : State S A) (k1 k2 : A -> State S B) s :
  c1 s = c2 s -> (forall a s', k1 a s' = k2 a s') -> bind c1 k1 s = bind c2 k2 s.
Proof.
  intros Hc Hk. unfold bind. rewrite Hc.
  destruct (c2 s) as [[a s']|e]; [apply Hk|reflexivity].
Qed.

(** X14.  With GROUP BY only the aggregates of the select list are compiled:
    the other items, their aliases and their parameters are ignored, so the
    statement compiles as if they were not there. *)
Theorem grouped_select_drops_plain_items this ast b :
  groupBy ast <> [] ->
  _execSelect this ast b
  = _execSelect this
      {| columns := filter (fun sel => isAggregateCall (sel_expr sel) = true)
                      (columns ast);
         from := from ast; joins := joins ast; where_ := where_ ast;
         groupBy := groupBy ast; having := having ast; orderBy := orderBy ast;
         limit := limit ast; offset := offset ast |} b.
Proof.
  intros Hg. unfold _execSelect.
  cbn [columns from joins where_ groupBy having orderBy limit offset].
  apply bind_ext; [reflexivity|]. intros col b0.
  apply bind_ext; [reflexivity|]. intros p1 b1.
  apply bind_ext; [reflexivity|]. intros p2 b2.
  apply bind_ext; [|reflexivity].
  destruct (groupBy ast) as [|g gs] eqn:Hgs; [contradiction|].
  apply bind_ext; [reflexivity|]. intros idExpr b3.
  apply bind_ext.
  - apply (forM_filter (fun sel => isAggregateCall (sel_expr sel))).
    intros acc x s Hx. unfold isAggregateCall in Hx.
    destruct (sel_expr x); try reflexivity. rewrite Hx. reflexivity.
  - intros group b4. cbn zeta.
    apply bind_ext; [reflexivity|]. intros p3 b5.
    rewrite (fold_left_filter (fun sel => isAggregateCall (sel_expr sel))
               (columns ast)).
    + reflexivity.
    + intros acc x Hx. rewrite Hx. reflexivity.
Qed.

Lemma grouped_select_drops_plain_items_witness :
  parseSelectText grouped_sql = Some grouped_select
  /\ length (columns grouped_select) = 4
  /\ groupBy grouped_select <> []
  /\ _execSelect db grouped_select (newParamBinder ∅ [])
     = Ok (("users",
            [obj1 "$group"
               (VObj [("_id", VObj [("city", VStr "$u.city")]);
                      ("n", obj1 "$sum" (VInt 1))]);
             obj1 "$project" (VObj [("city", VStr "$_id.city"); ("n", VInt 1)])]),
           newParamBinder ∅ []).
Proof.
  assert (Hg : groupBy grouped_select <> []) by (vm_compute; discriminate).
  split; [vm_compute; reflexivity|]. split; [vm_compute; reflexivity|].
  split; [exact Hg|].
  rewrite (grouped_select_drops_plain_items db grouped_select _ Hg).
  vm_compute. reflexivity.
Defined.

(** ** Objects *)

Lemma objGet_define props k v : objGet (defineProperty props k v) k = v.
Proof.
  induction props as [|[k0 v0] props IH]; cbn [defineProperty objGet].
  - rewrite String.eqb_refl. reflexivity.
  - destruct (String.eqb k0 k) eqn:E; cbn [objGet]; rewrite E; auto.
Qed.

Lemma objGet_define_other props k v k' :
  k' <> k -> objGet (defineProperty props k v) k' = objGet props k'.
Proof.
  intros Hne. induction props as [|[k0 v0] props IH]; cbn [defineProperty objGet].
  - destruct (String.eqb k k') eqn:E; [|reflexivity].
    apply String.eqb_eq in E. congruence.
  - destruct (String.eqb k0 k) eqn:E; cbn [objGet].
    + apply String.eqb_eq in E. subst k0.
      destruct (String.eqb k k') eqn:E'; [|reflexivity].
      apply String.eqb_eq in E'. congruence.
    + destruct (String.eqb k0 k'); auto.
Qed.

Lemma define_keys props k v k' :
  k' ∈ map fst (defineProperty props k v) <-> k' = k \/ k' ∈ map fst props.
Proof.
  induction props as [|[k0 v0] props IH]; cbn [defineProperty map fst].
  - rewrite list_elem_of_singleton. split; [auto|].
    intros [H|H]; [exact H|]. apply elem_of_nil in H. contradiction.
  - destruct (String.eqb k0 k) eqn:E; cbn [map fst].
    + apply String.eqb_eq in E. subst k0. rewrite !elem_of_cons. tauto.
    + rewrite !elem_of_cons, IH. tauto.
Qed.

Lemma define_NoDup props k v :
  NoDup (map fst props) -> NoDup (map fst (defineProperty props k v)).
Proof.
  induction props as [|[k0 v0] props IH]; cbn [defineProperty map fst]; intros Hnd.
  - apply NoDup_singleton.
  - apply NoDup_cons in Hnd as [Hk0 Hnd].
    destruct (String.eqb k0 k) eqn:E; cbn [map fst].
    + apply NoDup_cons. auto.
    + apply NoDup_cons. split; [|auto].
      rewrite define_keys. intros [->|H]; [|auto].
      rewrite String.eqb_refl in E. discriminate.
Qed.

(** An assignment to [__proto__] leaves the properties as they are. *)
Lemma objSet_proto props v : objSet props "__proto__" v = props.
Proof. reflexivity. Qed.

Lemma objSet_define props k v :
  k <> "__proto__" -> objSet props k v = defineProperty props k v.
Proof.
  intros Hk. unfold objSet. destruct (String.eqb k "__proto__") eqn:E; [|reflexivity].
  apply String.eqb_eq in E. contradiction.
Qed.

Lemma objSet_cases props k v :
  (k = "__proto__" /\ objSet props k v = props)
  \/ (k <> "__proto__" /\ objSet props k v = defineProperty props k v).
Proof.
  destruct (decide (k = "__proto__")) as [->|Hk]; [left|right]; split; auto.
  apply objSet_define. exact Hk.
Qed.

Lemma objGet_objSet props k v :
  k <> "__proto__" -> objGet (objSet props k v) k = v.
Proof. intros Hk. rewrite objSet_define by exact Hk. apply objGet_define. Qed.

Lemma objGet_objSet_other props k v k' :
  k' <> k -> objGet (objSet props k v) k' = objGet props k'.
Proof.
  intros Hne. destruct (objSet_cases props k v) as [[_ ->]|[_ ->]]; [reflexivity|].
  apply objGet_define_other. exact Hne.
Qed.

Lemma objSet_keys props k v k' :
  k' ∈ map fst (objSet props k v)
  <-> (k' = k /\ k <> "__proto__") \/ k' ∈ map fst props.
Proof.
  destruct (objSet_cases props k v) as [[Hk ->]|[Hk ->]].
  - tauto.
  - rewrite define_keys. tauto.
Qed.

Lemma objSet_NoDup props k v :
  NoDup (map fst props) -> NoDup (map fst (objSet props k v)).
Proof.
  destruct (objSet_cases props k v) as [[_ ->]|[_ ->]]; [auto|].
  apply define_NoDup.
Qed.

(** ** UPDATE: the assignments *)

Lemma forM_app {S A T} (l1 l2 : list A) (body : T -> A -> State S T) acc s :
  forM (l1 ++ l2) body acc s
  = bind (forM l1 body acc) (fun acc' => forM l2 body acc') s.
Proof.
  revert acc s. induction l1 as [|x l1 IH]; intros acc s.
  - reflexivity.
  - cbn [forM]. change ((x :: l1) ++ l2) with (x :: (l1 ++ l2)). cbn [forM].
    unfold bind at 1 2 3. destruct (body acc x s) as [[acc' s']|e]; [|reflexivity].
    rewrite IH. reflexivity.
Qed.

Lemma set_loop_invariant setList :
  forall props b props' b',
  forM setList
    (fun props s => v <- bindValue (set_value s) ;;
                    ret (objSet props (set_column s) v)) props b
  = Ok (props', b') ->
  (NoDup (map fst props) -> NoDup (map fst props'))
  /\ (forall c, c ∉ map set_column setList -> objGet props' c = objGet props c)
  /\ (forall c, c ∈ map fst props'
                <-> c ∈ map fst props
                    \/ (c <> "__proto__" /\ c ∈ map set_column setList)).
Proof.
  induction setList as [|s l IH]; intros props b props' b' H.
  - apply ret_Ok in H. injection H as -> ->. split; [auto|]. split; [auto|].
    intros c. cbn [map]. rewrite elem_of_nil. tauto.
  - cbn [forM] in H. bstep H as props1 b1 Hs. bstep Hs as v b2 Hv.
    apply ret_Ok in Hs. injection Hs as -> ->.
    destruct (IH _ _ _ _ H) as (Hnd & Hget & Hkeys). split; [|split].
    + intros Hp. apply Hnd. apply objSet_NoDup. exact Hp.
    + intros c Hc. cbn [map] in Hc. apply not_elem_of_cons in Hc as [Hne Hc].
      rewrite (Hget c Hc). apply objGet_objSet_other. exact Hne.
    + intros c. rewrite Hkeys, objSet_keys. cbn [map]. rewrite elem_of_cons.
      split.
      * intros [[[-> Hp]|Hc]|[Hp Hc]]; auto.
      * intros [Hc|[Hp [->|Hc]]]; auto.
Qed.

(** The cursor after a SET list does not depend on the properties it
    started with. *)
Lemma set_loop_binder setList :
  forall props b props' b' props0,
  forM setList
    (fun props s => v <- bindValue (set_value s) ;;
                    ret (objSet props (set_column s) v)) props b
  = Ok (props', b') ->
  exists props0',
    forM setList
      (fun props s => v <- bindValue (set_value s) ;;
                      ret (objSet props (set_column s) v)) props0 b
    = Ok (props0', b').
Proof.
  induction setList as [|s l IH]; intros props b props' b' props0 H.
  - apply ret_Ok in H. injection H as -> ->. eexists. reflexivity.
  - cbn [forM] in H. bstep H as props1 b1 Hs. bstep Hs as v b2 Hv.
    apply ret_Ok in Hs. injection Hs as -> ->.
    destruct (IH _ _ _ _ (objSet props0 (set_column s) v) H) as (p' & Hp').
    exists p'. cbn [forM]. unfold bind at 1. unfold bind at 1. rewrite Hv.
    unfold ret at 1. exact Hp'.
Qed.

(** X15.  The [$set] document of an UPDATE has the columns of the SET list as
    its keys, each once, but for a column named [__proto__], which leaves no
    key.  The assignments are bound in the order of the list, each from the
    cursor that the ones before it left, and the value of a column is the one
    bound for its last assignment: an earlier assignment to the same column
    is bound as well, and then overwritten. *)
Theorem last_assignment_wins l1 s l2 b props b' :
  set_column s ∉ map set_column l2 ->
  buildUpdate (l1 ++ s :: l2) b = Ok (obj1 "$set" (VObj props), b') ->
  NoDup (map fst props)
  /\ (forall c, c ∈ map fst props
                <-> c <> "__proto__" /\ c ∈ map set_column (l1 ++ s :: l2))
  /\ exists u1 b1 v b2 u2,
       buildUpdate l1 b = Ok (u1, b1)
       /\ bindValue (set_value s) b1 = Ok (v, b2)
       /\ buildUpdate l2 b2 = Ok (u2, b')
       /\ (set_column s <> "__proto__" -> objGet props (set_column s) = v).
Proof.
  intros Hlast H. unfold buildUpdate in H. bstep H as props0 b0 Hloop.
  apply ret_Ok in H. injection H as -> ->.
  destruct (set_loop_invariant _ _ _ _ _ Hloop) as (Hnd & _ & Hkeys).
  split; [apply Hnd; apply NoDup_nil_2|]. split.
  { intros c. rewrite Hkeys. cbn [map]. rewrite elem_of_nil. tauto. }
  rewrite forM_app in Hloop. bstep Hloop as props1 b1 H1.
  cbn [forM] in Hloop. bstep Hloop as props2 b3 H2. bstep H2 as v b2 Hv.
  apply ret_Ok in H2. injection H2 as -> ->.
  destruct (set_loop_invariant _ _ _ _ _ Hloop) as (_ & Hget & _).
  destruct (set_loop_binder _ _ _ _ _ [] Hloop) as (p2 & Hp2).
  exists (obj1 "$set" (VObj props1)), b1, v, b2, (obj1 "$set" (VObj p2)).
  split; [|split; [exact Hv|split]].
  - unfold buildUpdate. unfold bind at 1. rewrite H1. reflexivity.
  - unfold buildUpdate. unfold bind at 1. rewrite Hp2. reflexivity.
  - intros Hp. rewrite (Hget _ Hlast). apply objGet_objSet. exact Hp.
Qed.

Lemma last_assignment_wins_witness :
  let first := {| set_column := "a"; set_value := EParamPos |} in
  let last := {| set_column := "a"; set_value := ENumber (Fin 2 0) |} in
  let other := {| set_column := "b"; set_value := EParamPos |} in
  let b := newParamBinder ∅ [VInt 1; VInt 3] in
  buildUpdate ([first] ++ last :: [other]) b
  = Ok (obj1 "$set" (VObj [("a", VInt 2); ("b", VInt 3)]), advance b 2)
  /\ buildUpdate [first] b = Ok (obj1 "$set" (VObj [("a", VInt 1)]), advance b 1)
  /\ bindValue (set_value last) (advance b 1) = Ok (VInt 2, advance b 1)
  /\ NoDup (map fst [("a", VInt 2); ("b", VInt 3)])
  /\ objGet [("a", VInt 2); ("b", VInt 3)] "a" = VInt 2
  /\ query db "UPDATE users SET __proto__ = 1, a = 2" ∅ []
     = Ok (UpdateMany "users" (VObj []) (obj1 "$set" (VObj [("a", VInt 2)]))).
Proof.
  intros first last other b.
  assert (H : buildUpdate ([first] ++ last :: [other]) b
              = Ok (obj1 "$set" (VObj [("a", VInt 2); ("b", VInt 3)]), advance b 2))
    by reflexivity.
  assert (Hlast : set_column last ∉ map set_column [other]).
  { intros Hin. apply list_elem_of_In in Hin. simpl in Hin.
    destruct Hin as [Hin|[]]. discriminate. }
  destruct (last_assignment_wins [first] last [other] b _ _ Hlast H)
    as (Hnd & Hkeys & u1 & b1 & v & b2 & u2 & H1 & Hv & H2 & Hget).
  assert (E1 : buildUpdate [first] b
               = Ok (obj1 "$set" (VObj [("a", VInt 1)]), advance b 1))
    by reflexivity.
  rewrite E1 in H1. injection H1 as <- <-.
  assert (Ev : bindValue (set_value last) (advance b 1) = Ok (VInt 2, advance b 1))
    by reflexivity.
  rewrite Ev in Hv. injection Hv as <- <-.
  split; [exact H|]. split; [exact E1|]. split; [exact Ev|].
  split; [exact Hnd|]. split; [apply Hget; discriminate|].
  vm_compute. reflexivity.
Defined.

(** ** INSERT: rows and columns *)

Lemma mapM_const {S A B} (f : A -> State S B) (l : list A) (y : B) s :
  (forall x s, f x s = Ok (y, s)) -> mapM f l s = Ok (map (fun _ => y) l, s).
Proof.
  intros Hf. revert s. induction l as [|x l IH]; intros s; [reflexivity|].
  cbn [mapM]. unfold bind. rewrite Hf, IH. reflexivity.
Qed.

(** X16.  An INSERT without a column list inserts one empty document per row:
    the values are not looked at, and their parameters are not bound. *)
Theorem insert_without_columns this into col values b :
  tables this !! toLowerCase into = Some col ->
  _execInsert this into [] values b
  = Ok ((col, map (fun _ => VObj []) values), b).
Proof.
  intros Hcol. unfold _execInsert, _getCollection. rewrite Hcol.
  unfold bind at 1. cbn [lift]. unfold bind at 1.
  rewrite (mapM_const _ values (VObj [])) by reflexivity. reflexivity.
Qed.

Lemma insert_without_columns_witness :
  tables db !! toLowerCase "users" = Some "users"
  /\ _execInsert db "users" [] [[EParamPos; ENumber (Fin 1 0)]; [EParamNamed "x"]]
       (newParamBinder ∅ [])
     = Ok (("users", [VObj []; VObj []]), newParamBinder ∅ [])
  /\ query db "INSERT INTO users VALUES (?, 1), (:x)" ∅ []
     = Ok (InsertMany "users" [VObj []; VObj []]).
Proof.
  split; [reflexivity|]. split; [|vm_compute; reflexivity].
  exact (insert_without_columns db "users" "users"
           [[EParamPos; ENumber (Fin 1 0)]; [EParamNamed "x"]]
           (newParamBinder ∅ []) eq_refl).
Defined.

Lemma forM_ext_in {S A T} (l : list A) (body1 body2 : T -> A -> State S T) :
  (forall x, x ∈ l -> forall acc s, body1 acc x s = body2 acc x s) ->
  forall acc s, forM l body1 acc s = forM l body2 acc s.
Proof.
  induction l as [|x l IH]; intros Hext acc s; [reflexivity|].
  cbn [forM]. unfold bind. rewrite (Hext x) by apply list_elem_of_here.
  destruct (body2 acc x s) as [[acc' s']|e]; [|reflexivity].
  apply IH. intros y Hy. apply Hext. apply list_elem_of_further. exact Hy.
Qed.

Lemma mapM_map_ext {S A B} (f : A -> State S B) (g : A -> A) (l : list A) :
  (forall x s, f (g x) s = f x s) ->
  forall s, mapM f (map g l) s = mapM f l s.
Proof.
  intros Hext. induction l as [|x l IH]; intros s; [reflexivity|].
  cbn [map mapM]. unfold bind. rewrite Hext.
  destruct (f x s) as [[y s']|e]; [|reflexivity]. rewrite IH. reflexivity.
Qed.

Lemma bindValue'_fitRow n row i :
  i < n -> bindValue' (fitRow n row !! i) = bindValue' (row !! i).
Proof.
  intros Hi. unfold fitRow. rewrite lookup_take_lt by exact Hi.
  destruct (decide (i < length row)) as [Hlt|Hge].
  - rewrite lookup_app_l by exact Hlt. reflexivity.
  - rewrite lookup_app_r by lia.
    rewrite lookup_replicate_2 by lia.
    rewrite (lookup_ge_None_2 row i) by lia. reflexivity.
Qed.

(** X17.  The rows of an INSERT are fitted to the column list without an
    error: a value that a row lacks is NULL, and the values past the last
    column are dropped with their parameters unbound. *)
Theorem insert_rows_are_fitted this into cols values b :
  _execInsert this into cols values b
  = _execInsert this into cols (map (fitRow (length cols)) values) b.
Proof.
  unfold _execInsert. apply bind_ext; [reflexivity|]. intros col b0.
  apply bind_ext; [|reflexivity]. symmetry.
  apply mapM_map_ext. intros row s.
  apply bind_ext; [|reflexivity].
  apply forM_ext_in. intros [i c] Hin acc s'.
  apply elem_of_lookup_imap in Hin as (j & y & [= -> ->] & Hj).
  apply lookup_lt_Some in Hj.
  rewrite (bindValue'_fitRow (length cols) row j Hj). reflexivity.
Qed.

(** ** INSERT ... SELECT: the documents *)

Lemma copy_loop r cols :
  forall doc,
  NoDup (map fst doc) ->
  let doc' := fold_left (fun doc c => objSet doc c (propGet r c)) cols doc in
  NoDup (map fst doc')
  /\ (forall c, c ∈ map fst doc'
                <-> (c ∈ cols /\ c <> "__proto__") \/ c ∈ map fst doc)
  /\ (forall c, c ∈ cols -> c <> "__proto__" -> objGet doc' c = propGet r c)
  /\ (forall c, c ∉ cols -> objGet doc' c = objGet doc c).
Proof.
  induction cols as [|c0 cols IH]; intros doc Hnd; cbn [fold_left].
  - split; [exact Hnd|]. split; [|split; [|auto]].
    + intros c. rewrite elem_of_nil. tauto.
    + intros c H. apply elem_of_nil in H. contradiction.
  - destruct (IH (objSet doc c0 (propGet r c0)) (objSet_NoDup _ _ _ Hnd))
      as (Hnd' & Hkeys & Hin & Hout).
    split; [exact Hnd'|]. split; [|split].
    + intros c. rewrite Hkeys, objSet_keys, elem_of_cons. split.
      * intros [[Hc Hp]|[[-> Hp]|Hc]]; auto.
      * intros [[[->|Hc] Hp]|Hc]; auto.
    + intros c Hc Hp. destruct (decide (c ∈ cols)) as [Hc'|Hc']; [auto|].
      rewrite (Hout c Hc'). apply elem_of_cons in Hc as [->|Hc]; [|contradiction].
      apply objGet_objSet. exact Hp.
    + intros c Hc. apply not_elem_of_cons in Hc as [Hne Hc].
      rewrite (Hout c Hc). apply objGet_objSet_other. exact Hne.
Qed.

Lemma hasOwn_keys props k : hasOwn props k = true <-> k ∈ map fst props.
Proof.
  unfold hasOwn. induction props as [|[k0 v0] props IH]; cbn [existsb map fst].
  - rewrite elem_of_nil. split; [discriminate|tauto].
  - rewrite orb_true_iff, IH, elem_of_cons, String.eqb_eq. split.
    + intros [->|H]; auto.
    + intros [->|H]; auto.
Qed.

(** X18.  [INSERT ...  SELECT] copies by name, not by position.  The document
    made from a row of the select has the columns of the INSERT as its keys,
    each once, but for a column named [__proto__], which leaves no key.
    Under a column the document has what the row answers to that very name:
    the row's own field; for a name that the row lacks and [Object.prototype]
    has ([constructor], [toString], ...), the function inherited under it;
    and [undefined] for any other name. *)
Theorem insert_select_copies_by_name cols rows i r :
  rows !! i = Some r ->
  exists doc,
    insertSelectDocs cols rows !! i = Some (VObj doc)
    /\ NoDup (map fst doc)
    /\ (forall c, c ∈ map fst doc <-> c ∈ cols /\ c <> "__proto__")
    /\ (forall c, c ∈ cols -> c <> "__proto__" ->
                  objGet doc c
                  = if bool_decide (c ∈ map fst r) then objGet r c
                    else if bool_decide (c ∈ map fst objectPrototype)
                         then VBuiltin (NativeFunction
                                          (if String.eqb c "constructor"
                                           then "Object" else c))
                         else VUndefined).
Proof.
  intros Hr. unfold insertSelectDocs. rewrite list_lookup_fmap, Hr.
  eexists. split; [reflexivity|].
  destruct (copy_loop r cols [] (NoDup_nil_2 : NoDup (map fst [])))
    as (Hnd & Hkeys & Hin & _).
  split; [exact Hnd|]. split.
  - intros c. rewrite Hkeys. cbn [map]. rewrite elem_of_nil. tauto.
  - intros c Hc Hp. rewrite (Hin c Hc Hp). unfold propGet.
    destruct (hasOwn r c) eqn:Hown.
    + apply hasOwn_keys in Hown. rewrite bool_decide_eq_true_2 by exact Hown.
      reflexivity.
    + rewrite bool_decide_eq_false_2
        by (intros Hk; apply hasOwn_keys in Hk; congruence).
      unfold inherited.
      destruct (bool_decide (c ∈ map fst objectPrototype)) eqn:Hproto.
      * apply bool_decide_eq_true in Hproto. apply list_elem_of_In in Hproto.
        cbn in Hproto.
        destruct Hproto as [<-|[<-|[<-|[<-|[<-|[<-|[<-|[<-|[<-|[<-|[<-|[<-|[]]]]]]]]]]]]];
          try reflexivity.
        contradiction.
      * apply bool_decide_eq_false in Hproto.
        assert (Hnot : hasOwn objectPrototype c = false).
        { destruct (hasOwn objectPrototype c) eqn:E; [|reflexivity].
          apply hasOwn_keys in E. contradiction. }
        clear Hproto. revert Hnot. unfold hasOwn.
        generalize objectPrototype. intros l.
        induction l as [|[k0 v0] l IH]; cbn [existsb objGet fst]; [reflexivity|].
        intros H. apply orb_false_iff in H as [H1 H2]. rewrite H1. auto.
Qed.

Lemma insert_select_copies_by_name_witness :
  let row := [("_id", VInt 7); ("n", VInt 3); ("name", VStr "Ada")] in
  [row] !! 0 = Some row
  /\ insertSelectDocs ["name"; "total"; "__proto__"; "toString"] [row]
     = [VObj [("name", VStr "Ada"); ("total", VUndefined);
              ("toString", VBuiltin (NativeFunction "toString"))]]
  /\ exists doc,
       insertSelectDocs ["name"; "total"; "__proto__"; "toString"] [row] !! 0
       = Some (VObj doc)
       /\ NoDup (map fst doc)
       /\ objGet doc "name" = VStr "Ada"
       /\ objGet doc "total" = VUndefined.
Proof.
  intros row. split; [reflexivity|]. split; [reflexivity|].
  destruct (insert_select_copies_by_name
              ["name"; "total"; "__proto__"; "toString"] [row] 0 row eq_refl)
    as (doc & Hdoc & Hnd & _ & Hget).
  exists doc. split; [exact Hdoc|]. split; [exact Hnd|]. split.
  - rewrite (Hget "name") by (try discriminate; apply list_elem_of_In; simpl; tauto).
    reflexivity.
  - rewrite (Hget "total") by (try discriminate; apply list_elem_of_In; simpl; tauto).
    reflexivity.
Defined.

(** ** The table registry *)

(** X19.  A registered table is found under its name in any case of letters,
    the other names resolve as before, and a later registration under the same
    name replaces the earlier one.  Without a collection the registration
    throws. *)
Theorem registered_table_is_found this name coll :
  coll <> EmptyString ->
  (exists this',
     registerTable this name (Some coll) = Ok this'
     /\ functions this' = functions this
     /\ (forall name', toLowerCase name' = toLowerCase name ->
           _getCollection this' name' = Ok coll)
     /\ (forall name', toLowerCase name' <> toLowerCase name ->
           _getCollection this' name' = _getCollection this name'))
  /\ registerTable this name None
     = Throw (Error "registerTable requires a collection")
  /\ registerTable this name (Some EmptyString)
     = Throw (Error "registerTable requires a collection").
Proof.
  intros Hc. split; [|split; reflexivity].
  unfold registerTable. apply String.eqb_neq in Hc. rewrite Hc.
  eexists. split; [reflexivity|]. split; [reflexivity|]. split.
  - intros name' Heq. unfold _getCollection. cbn [tables].
    rewrite Heq, lookup_insert_eq. reflexivity.
  - intros name' Hne. unfold _getCollection. cbn [tables].
    rewrite lookup_insert_ne by congruence. reflexivity.
Qed.

Lemma registered_table_is_found_witness :
  exists this',
    registerTable newMongoSQL "Users" (Some "people") = Ok this'
    /\ _getCollection this' "USERS" = Ok "people"
    /\ _getCollection this' "orders" = Throw (Error "Unknown table: orders")
    /\ query this' "DELETE FROM users" ∅ [] = Ok (DeleteMany "people" (VObj [])).
Proof.
  assert (Hc : "people" <> EmptyString) by discriminate.
  destruct (registered_table_is_found newMongoSQL "Users" "people" Hc)
    as [(this' & Hreg & _ & Hfound & Hother) _].
  exists this'. split; [exact Hreg|]. split; [apply Hfound; reflexivity|].
  split.
  - rewrite Hother by discriminate. reflexivity.
  - injection Hreg as <-. vm_compute. reflexivity.
Defined.

(** ** Transactions *)

Lemma begin_reliable s :
  _begin reliable s
  = if negb (client s) then
      (Throw (Error "BEGIN requires a Mongo client to create sessions"), s)
    else if session s then (Throw (Error "Transaction already started"), s)
    else (Ok (VObj [("ok", VInt 1); ("started", VBool true)]),
          {| client := client s; session := true;
             calls := (calls s ++ [StartSession]) ++ [StartTransaction] |}).
Proof. destruct s as [[] [] log]; reflexivity. Qed.

Lemma commit_reliable s :
  _commit reliable s
  = if negb (session s) then (Throw (Error "No active transaction"), s)
    else (Ok (VObj [("ok", VInt 1); ("committed", VBool true)]),
          {| client := client s; session := false;
             calls := (calls s ++ [CommitTransaction]) ++ [EndSession] |}).
Proof. destruct s as [c [] log]; reflexivity. Qed.

Lemma rollback_reliable s :
  _rollback reliable s
  = if negb (session s) then (Throw (Error "No active transaction"), s)
    else (Ok (VObj [("ok", VInt 1); ("rolledBack", VBool true)]),
          {| client := client s; session := false;
             calls := (calls s ++ [AbortTransaction]) ++ [EndSession] |}).
Proof. destruct s as [c [] log]; reflexivity. Qed.

Lemma transact_keeps_txLog c s :
  txLog (session s) (calls s) ->
  txLog (session (snd (transact reliable c s)))
        (calls (snd (transact reliable c s))).
Proof.
  intros H. destruct c; cbn [transact]; try exact H.
  - rewrite begin_reliable.
    destruct (client s); cbn [negb]; [|exact H].
    destruct (session s) eqn:Hs; cbn [snd session calls]; [rewrite Hs; exact H|].
    rewrite <- app_assoc. apply txLog_begin. exact H.
  - rewrite commit_reliable.
    destruct (session s) eqn:Hs; cbn [negb snd session calls];
      [|rewrite Hs; exact H].
    rewrite <- app_assoc. apply txLog_commit. exact H.
  - rewrite rollback_reliable.
    destruct (session s) eqn:Hs; cbn [negb snd session calls];
      [|rewrite Hs; exact H].
    rewrite <- app_assoc. apply txLog_rollback. exact H.
Qed.

Lemma transactAll_keeps_txLog cs :
  forall s,
  txLog (session s) (calls s) ->
  txLog (session (transactAll reliable cs s)) (calls (transactAll reliable cs s)).
Proof.
  induction cs as [|c cs IH]; intros s H; [exact H|].
  unfold transactAll. cbn [fold_left]. apply IH.
  apply transact_keeps_txLog. exact H.
Qed.

(** X20.  Sessions never nest or leak: whatever statements are run on a fresh
    engine, in whatever order, and whichever of them fail, a driver that
    rejects no call sees each session opened with its transaction, then
    committed or aborted once, then ended, before the next one is opened;
    [this.session] is set exactly while the last one is open. *)
Theorem sessions_are_well_bracketed hasClient cs :
  let s := transactAll reliable cs
             {| client := hasClient; session := false; calls := [] |} in
  txLog (session s) (calls s).
Proof. apply transactAll_keeps_txLog. apply txLog_idle. Qed.

Lemma opened_app log c :
  opened (log ++ [c])
  = (opened log + match c with
                  | StartSession => 1
                  | EndSession => -1
                  | _ => 0
                  end)%Z.
Proof.
  induction log as [|d log IH].
  - destruct c; reflexivity.
  - change ((d :: log) ++ [c]) with (d :: (log ++ [c])).
    destruct d; cbn [opened]; rewrite IH; lia.
Qed.

Lemma invoke_opened rejects c s r s' :
  invoke rejects c s = (r, s') ->
  client s' = client s /\ session s' = session s
  /\ match r with
     | Ok _ => calls s' = calls s ++ [c]
     | Throw _ => calls s' = calls s
     end.
Proof.
  unfold invoke. destruct (rejects (calls s) c); intros [= <- <-]; auto.
Qed.

Lemma transact_keeps_one_session rejects c s :
  opened (calls s) = (if session s then 1 else 0)%Z ->
  opened (calls (snd (transact rejects c s)))
  = (if session (snd (transact rejects c s)) then 1 else 0)%Z.
Proof.
  intros H. destruct c; cbn [transact]; try exact H.
  - unfold _begin. destruct (negb (client s)); [exact H|].
    destruct (session s) eqn:Hs; cbn [snd]; [rewrite Hs; exact H|].
    destruct (invoke rejects StartSession s) as [[[]|e] s1] eqn:H1;
      apply invoke_opened in H1 as (_ & Hs1 & Hc1).
    + destruct (invoke rejects StartTransaction (setSession s1 true))
        as [[[]|e] s2] eqn:H2;
        apply invoke_opened in H2 as (_ & Hs2 & Hc2);
        cbn [snd setSession session calls] in *;
        rewrite Hs2, Hc2, ?opened_app, Hc1, opened_app, H; reflexivity.
    + cbn [snd]. rewrite Hs1, Hc1, Hs. exact H.
  - unfold _commit. destruct (session s) eqn:Hs; cbn [negb snd];
      [|rewrite Hs; exact H].
    destruct (invoke rejects CommitTransaction s) as [[[]|e] s1] eqn:H1;
      apply invoke_opened in H1 as (_ & Hs1 & Hc1).
    + destruct (invoke rejects EndSession s1) as [[[]|e] s2] eqn:H2;
        apply invoke_opened in H2 as (_ & Hs2 & Hc2);
        cbn [snd setSession session calls] in *.
      * rewrite Hc2, opened_app, Hc1, opened_app, H. reflexivity.
      * rewrite Hs2, Hs1, Hs, Hc2, Hc1, opened_app, H. reflexivity.
    + cbn [snd]. rewrite Hs1, Hc1, Hs. exact H.
  - unfold _rollback. destruct (session s) eqn:Hs; cbn [negb snd];
      [|rewrite Hs; exact H].
    destruct (invoke rejects AbortTransaction s) as [[[]|e] s1] eqn:H1;
      apply invoke_opened in H1 as (_ & Hs1 & Hc1).
    + destruct (invoke rejects EndSession s1) as [[[]|e] s2] eqn:H2;
        apply invoke_opened in H2 as (_ & Hs2 & Hc2);
        cbn [snd setSession session calls] in *.
      * rewrite Hc2, opened_app, Hc1, opened_app, H. reflexivity.
      * rewrite Hs2, Hs1, Hs, Hc2, Hc1, opened_app, H. reflexivity.
    + cbn [snd]. rewrite Hs1, Hc1, Hs. exact H.
Qed.

(** X21.  Sessions never overlap, whatever the driver does: after any run of
    statements on a fresh engine, with calls rejected at any point, the
    sessions started and not ended number one when [this.session] is set and
    none when it is not.  A session whose COMMIT or ROLLBACK was rejected
    stays in place, and BEGIN starts no second one. *)
Theorem sessions_never_overlap rejects hasClient cs :
  let s := transactAll rejects cs
             {| client := hasClient; session := false; calls := [] |} in
  opened (calls s) = (if session s then 1 else 0)%Z.
Proof.
  cbn zeta.
  assert (H : forall s,
            opened (calls s) = (if session s then 1 else 0)%Z ->
            opened (calls (transactAll rejects cs s))
            = (if session (transactAll rejects cs s) then 1 else 0)%Z).
  { induction cs as [|c cs IH]; intros s Hs; [exact Hs|].
    unfold transactAll. cbn [fold_left]. apply IH.
    apply transact_keeps_one_session. exact Hs. }
  apply H. reflexivity.
Qed.

Lemma sessions_never_overlap_witness :
  let fresh := {| client := true; session := false; calls := [] |} in
  let s := transactAll neverCommits [Begin; Commit; Begin] fresh in
  s = {| client := true; session := true;
         calls := [StartSession; StartTransaction] |}
  /\ fst (transact neverCommits Commit s) = Throw (Error "WriteConflict")
  /\ fst (transact neverCommits Begin s) = Throw (Error "Transaction already started")
  /\ opened (calls s) = 1%Z.
Proof.
  intros fresh s. split; [reflexivity|]. split; [reflexivity|].
  split; [reflexivity|].
  exact (sessions_never_overlap neverCommits true [Begin; Commit; Begin]).
Defined.

(** ** WHERE: operands that are not values *)

Lemma bindValue_unbound r b : unbound r = true -> bindValue r b = Ok (VNull, b).
Proof. destruct r; try discriminate; reflexivity. Qed.

(** X22.  A comparison does not evaluate its right operand: when it is another
    column, a function call, an arithmetic expression or [*], the column on
    the left is compared with [null], whatever the operand holds, and the
    parameters inside it are not bound. *)
Theorem comparison_with_an_expression op l r dt b :
  isField l = true ->
  op ∈ leafOps ->
  unbound r = true ->
  buildMatch (EBinary op l r) dt b
  = Ok (obj1 (fieldPath l dt) (leafFilter op VNull), b).
Proof.
  intros Hf Hop Hr.
  assert (Hnot : bool_decide (op = "AND" \/ op = "OR") = false).
  { apply bool_decide_eq_false.
    intros [->| ->]; apply list_elem_of_In in Hop; simpl in Hop;
      intuition discriminate. }
  destruct (qualifyField_field l dt Hf) as (q & Hq & Hpath).
  cbn [buildMatch]. rewrite Hnot, Hf.
  unfold bind at 1. rewrite Hq. cbn [lift]. rewrite Hpath.
  unfold bind at 1. rewrite (bindValue_unbound r b Hr).
  apply list_elem_of_In in Hop. simpl in Hop.
  destruct Hop as [<-|[<-|[<-|[<-|[<-|[<-|[<-|[<-|[<-|[<-|[]]]]]]]]]]];
    reflexivity.
Qed.

Lemma comparison_with_an_expression_witness :
  let r := EBinary "+" (EField None "b" None) EParamPos in
  "=" ∈ leafOps
  /\ buildMatch (EBinary "=" (EField None "a" None) r) "t" (newParamBinder ∅ [VInt 1])
     = Ok (obj1 "t.a" VNull, newParamBinder ∅ [VInt 1])
  /\ query db "SELECT * FROM t AS t WHERE a = b + ?" ∅ [VInt 1]
     = Ok (Aggregate "t" [obj1 "$match" (obj1 "t.a" VNull)]).
Proof.
  intros r.
  assert (Hop : "=" ∈ leafOps) by (apply list_elem_of_In; simpl; tauto).
  split; [exact Hop|]. split; [|vm_compute; reflexivity].
  exact (comparison_with_an_expression "=" (EField None "a" None) r "t"
           (newParamBinder ∅ [VInt 1]) eq_refl Hop eq_refl).
Defined.

(** ** The tokenizer: what it rejects *)

Lemma scan_Throw fuel :
  forall s e,
  String.length s < fuel ->
  scan fuel s = Throw e ->
  exists c, e = Error ("Unexpected character: " +:+ String c EmptyString).
Proof.
  induction fuel as [|fuel IH]; intros s e Hlen; [lia|].
  cbn [scan].
  pose proof (dropWhile_length _isSpace s) as Hws.
  destruct (dropWhile _isSpace s) as [|c s1] eqn:Hs; [discriminate|].
  cbn [String.length] in Hws.
  destruct (Ascii.eqb c "-" && startsWith "-" s1) eqn:Hline.
  { apply IH. apply andb_prop in Hline as [Hc _]. apply Ascii.eqb_eq in Hc.
    subst c. cbn [dropWhile]. change (negb (Ascii.eqb "-" newline)) with true.
    cbn iota.
    pose proof (dropWhile_length (fun x => negb (Ascii.eqb x newline)) s1). lia. }
  destruct (Ascii.eqb c "/" && startsWith "*" s1) eqn:Hblock.
  { apply IH. apply andb_prop in Hblock as [_ Hstar].
    destruct s1 as [|c1 s2]; [discriminate|].
    change (string_drop 2 (String c (String c1 s2))) with s2.
    cbn [String.length] in Hws.
    pose proof (string_drop_length 2 (skipBlock s2)).
    pose proof (skipBlock_length s2). lia. }
  destruct (Ascii.eqb c "'" || Ascii.eqb c dquote).
  { destruct (scanString c EmptyString s1). discriminate. }
  destruct (_isDigit c); [discriminate|].
  destruct (_isIdentStart c); [discriminate|].
  destruct (Ascii.eqb c ":"); [discriminate|].
  destruct (Ascii.eqb c "?"); [discriminate|].
  destruct (bool_decide (string_take 2 (String c s1) ∈ twoOps)); [discriminate|].
  destruct (includes singles c); [discriminate|].
  intros [= <-]. eauto.
Qed.

Lemma comments_bound fuel :
  forall s, 2 * comments fuel s <= String.length s.
Proof.
  induction fuel as [|fuel IH]; intros s; [simpl; lia|].
  cbn [comments].
  pose proof (dropWhile_length _isSpace s) as Hws.
  destruct (dropWhile _isSpace s) as [|c s1] eqn:Hs; [lia|].
  cbn [String.length] in Hws.
  destruct (Ascii.eqb c "-" && startsWith "-" s1) eqn:Hline.
  { apply andb_prop in Hline as [Hc Hst]. apply Ascii.eqb_eq in Hc. subst c.
    destruct s1 as [|c1 s2]; [discriminate|].
    cbn [startsWith] in Hst. apply Ascii.eqb_eq in Hst. subst c1.
    cbn [dropWhile]. change (negb (Ascii.eqb "-" newline)) with true. cbn iota.
    pose proof (dropWhile_length (fun x => negb (Ascii.eqb x newline)) s2) as Hl.
    cbn [String.length] in Hws.
    specialize (IH (dropWhile (fun x => negb (Ascii.eqb x newline)) s2)). lia. }
  destruct (Ascii.eqb c "/" && startsWith "*" s1) eqn:Hblock; [|lia].
  apply andb_prop in Hblock as [_ Hstar].
  destruct s1 as [|c1 s2]; [discriminate|].
  change (string_drop 2 (String c (String c1 s2))) with s2.
  cbn [String.length] in Hws.
  pose proof (string_drop_length 2 (skipBlock s2)) as Ha.
  pose proof (skipBlock_length s2) as Hb.
  specialize (IH (string_drop 2 (skipBlock s2))). lia.
Qed.

(** [scan d] reaches its bound exactly when [d] comments or more are at
    the front of the input, and below that the bound does not matter. *)
Lemma scan_depth fuel :
  forall s d,
  String.length s <= fuel ->
  (d <= comments fuel s -> scan d s = Throw OutOfFuel)
  /\ (comments fuel s < d -> forall d', comments fuel s < d' -> scan d s = scan d' s).
Proof.
  induction fuel as [|fuel IH]; intros s d Hlen.
  { destruct s; [|simpl in Hlen; lia]. cbn [comments]. split.
    - intros Hd. assert (d = 0) as -> by lia. reflexivity.
    - intros Hd d' Hd'. destruct d as [|d]; [lia|]. destruct d' as [|d']; [lia|].
      reflexivity. }
  cbn [comments].
  pose proof (dropWhile_length _isSpace s) as Hws.
  destruct (dropWhile _isSpace s) as [|c s1] eqn:Hs.
  { split.
    - intros Hd. assert (d = 0) as -> by lia. reflexivity.
    - intros Hd d' Hd'. destruct d as [|d]; [lia|]. destruct d' as [|d']; [lia|].
      cbn [scan]. rewrite Hs. reflexivity. }
  cbn [String.length] in Hws.
  destruct (Ascii.eqb c "-" && startsWith "-" s1) eqn:Hline.
  { pose proof (dropWhile_length (fun x => negb (Ascii.eqb x newline)) s1) as Hl.
    assert (Hc : c = "-"%char).
    { apply andb_prop in Hline as [Hc _]. apply Ascii.eqb_eq in Hc. exact Hc. }
    assert (Hshort :
              String.length
                (dropWhile (fun x => negb (Ascii.eqb x newline)) (String c s1))
              <= fuel).
    { subst c. cbn [dropWhile]. change (negb (Ascii.eqb "-" newline)) with true.
      cbn iota. lia. }
    split.
    - intros Hd. destruct d as [|d]; [reflexivity|].
      cbn [scan]. rewrite Hs, Hline.
      apply (IH _ d Hshort). lia.
    - intros Hd d' Hd'. destruct d as [|d]; [lia|]. destruct d' as [|d']; [lia|].
      cbn [scan]. rewrite Hs, Hline.
      apply (IH _ d Hshort); lia. }
  destruct (Ascii.eqb c "/" && startsWith "*" s1) eqn:Hblock.
  { assert (Hshort :
              String.length
                (string_drop 2 (skipBlock (string_drop 2 (String c s1))))
              <= fuel).
    { pose proof (string_drop_length 2
                    (skipBlock (string_drop 2 (String c s1)))) as Ha.
      pose proof (skipBlock_length (string_drop 2 (String c s1))) as Hb.
      apply andb_prop in Hblock as [_ Hstar].
      destruct s1 as [|c1 s2]; [discriminate|].
      change (string_drop 2 (String c (String c1 s2))) with s2 in *.
      cbn [String.length] in Hws. lia. }
    split.
    - intros Hd. destruct d as [|d]; [reflexivity|].
      cbn [scan]. rewrite Hs, Hline, Hblock.
      apply (IH _ d Hshort). lia.
    - intros Hd d' Hd'. destruct d as [|d]; [lia|]. destruct d' as [|d']; [lia|].
      cbn [scan]. rewrite Hs, Hline, Hblock.
      apply (IH _ d Hshort); lia. }
  split.
  - intros Hd. assert (d = 0) as -> by lia. reflexivity.
  - intros Hd d' Hd'. destruct d as [|d]; [lia|]. destruct d' as [|d']; [lia|].
    cbn [scan]. rewrite Hs, Hline, Hblock. reflexivity.
Qed.

(** X23.  [next] skips a comment by calling itself, so that its calls nest
    once per comment at the front of the input, whitespace apart, and no
    deeper.  With room for [d] nested calls ([scan d]) the run ends at that
    bound exactly when [d] comments or more are ahead: this is where the
    engine throws a [RangeError] once its stack is used up.  With fewer
    comments ahead the bound does not matter, and the call returns a token
    or throws the error of an unexpected character.  A comment takes two
    characters, so the input is at least twice as long as the nesting is
    deep. *)
Theorem next_nests_one_call_per_comment d s :
  (d <= commentsAhead s -> scan d s = Throw OutOfFuel)
  /\ (commentsAhead s < d ->
      scan d s = scan (S (commentsAhead s)) s
      /\ ((exists tok r, scan d s = Ok (tok, r))
          \/ exists c,
               scan d s
               = Throw (Error ("Unexpected character: " +:+ String c EmptyString))))
  /\ 2 * commentsAhead s <= String.length s
  /\ next (newTokenizer s)
     = match scan (S (commentsAhead s)) s with
       | Ok (tok, r) => Ok (tok, {| rest := r; peeked := None |})
       | Throw e => Throw e
       end.
Proof.
  unfold commentsAhead.
  pose proof (comments_bound (String.length s) s) as Hb.
  destruct (scan_depth (String.length s) s d (Nat.le_refl _)) as [Hlow Hhigh].
  destruct (scan_depth (String.length s) s (S (String.length s)) (Nat.le_refl _))
    as [_ Hfull].
  split; [exact Hlow|]. split; [|split; [exact Hb|]].
  - intros Hd.
    assert (E : scan d s = scan (S (String.length s)) s) by (apply Hhigh; lia).
    split; [apply Hhigh; lia|]. rewrite E.
    destruct (scan (S (String.length s)) s) as [[tok r]|e] eqn:H; [eauto|].
    right. apply scan_Throw in H as [c ->]; [eauto|lia].
  - unfold next, newTokenizer. cbn [peeked rest].
    rewrite (Hfull ltac:(lia) (S (comments (String.length s) s)) ltac:(lia)).
    reflexivity.
Qed.

Lemma next_nests_one_call_per_comment_witness :
  let s := "-- one" +:+ String newline "/* two */ x" in
  commentsAhead s = 2
  /\ scan 1 s = Throw OutOfFuel
  /\ scan 2 s = Throw OutOfFuel
  /\ scan 3 s = Ok (Tident "x", EmptyString)
  /\ scan 4 s = scan 3 s
  /\ next (newTokenizer s) = Ok (Tident "x", newTokenizer EmptyString).
Proof.
  intros s.
  assert (Hc : commentsAhead s = 2) by reflexivity.
  destruct (next_nests_one_call_per_comment 1 s) as (H1 & _).
  destruct (next_nests_one_call_per_comment 2 s) as (H2 & _).
  destruct (next_nests_one_call_per_comment 4 s) as (_ & H4 & _ & Hn).
  rewrite Hc in *.
  split; [exact Hc|]. split; [apply H1; lia|]. split; [apply H2; lia|].
  split; [reflexivity|]. split; [apply H4; lia|].
  rewrite Hn. reflexivity.
Defined.

(** ** WHERE: the keys of a filter *)

Lemma stripLeadingDot_prefixed prefix s :
  prefix <> EmptyString -> startsWith "." prefix = false ->
  stripLeadingDot (prefix +:+ s) = prefix +:+ s.
Proof.
  destruct prefix as [|c p]; [congruence|]. intros _ Hdot.
  rewrite append_String. cbn [startsWith] in Hdot. unfold stripLeadingDot.
  destruct c as [[] [] [] [] [] [] [] []]; try reflexivity. discriminate.
Qed.

Lemma buildMatch_comparison_key op t n a r dt b m b' :
  bool_decide (op = "AND" \/ op = "OR") = false ->
  buildMatch (EBinary op (EField t n a) r) dt b = Ok (m, b') ->
  exists q v,
    qualifyField (EField t n a) dt = Ok q /\ m = obj1 (q_path q) v.
Proof.
  intros Hop H. cbn [buildMatch isField] in H. rewrite Hop in H.
  bstep H as q b1 Hq. apply lift_Ok in Hq as (q' & Hq & [= <- <-]).
  exists q. bstep H as val b2 Hval.
  repeat match type of H with
         | (if ?c then _ else _) _ = _ => destruct c
         end;
    try (apply ret_Ok in H; injection H as -> ->; eauto);
    try discriminate.
  - destruct r; try discriminate. apply ret_Ok in H. injection H as -> ->. eauto.
  - destruct r; try discriminate. apply ret_Ok in H. injection H as -> ->. eauto.
  - destruct (match r with
              | EBetween f t0 => (Some f, Some t0)
              | _ => (None, None)
              end) as [from to].
    bstep H as lo b3 Hlo. bstep H as hi b4 Hhi.
    apply ret_Ok in H. injection H as -> ->. eauto.
Qed.

(** X24.  The filter of a comparison addresses the column under the name of
    its table: the qualifier written before the column or, for a bare column,
    the table of the UPDATE or DELETE (for a SELECT, its alias or name).  The
    key is never the bare column. *)
Theorem filter_keys_carry_the_table this table op t n a r b col m b' :
  let prefix := or_default t table in
  prefix <> EmptyString ->
  startsWith "." prefix = false ->
  bool_decide (op = "AND" \/ op = "OR") = false ->
  _execDelete this table (Some (EBinary op (EField t n a) r)) b = Ok ((col, m), b') ->
  exists v, m = obj1 (prefix +:+ "." +:+ n) v.
Proof.
  intros prefix Hne Hdot Hop H. unfold _execDelete in H.
  bstep H as c b1 Hc. bstep H as f b2 Hf.
  apply ret_Ok in H. injection H as <- <- <-. cbn [buildMatch'] in Hf.
  destruct (buildMatch_comparison_key _ _ _ _ _ _ _ _ _ Hop Hf)
    as (q & v & Hq & ->).
  exists v. f_equal. cbn [qualifyField] in Hq. injection Hq as <-.
  cbn [q_path]. fold prefix. apply String.eqb_neq in Hne. rewrite Hne.
  apply stripLeadingDot_prefixed; [apply String.eqb_neq; exact Hne|exact Hdot].
Qed.

Lemma filter_keys_carry_the_table_witness :
  exists v,
    _execDelete db "users" (Some (EBinary ">" (EField None "age" None) EParamPos))
      (newParamBinder ∅ [VInt 65])
    = Ok (("users", obj1 "users.age" v), advance (newParamBinder ∅ [VInt 65]) 1)
    /\ query db "DELETE FROM users WHERE age > ?" ∅ [VInt 65]
       = Ok (DeleteMany "users" (obj1 "users.age" v)).
Proof.
  assert (H : _execDelete db "users"
                (Some (EBinary ">" (EField None "age" None) EParamPos))
                (newParamBinder ∅ [VInt 65])
              = Ok (("users", obj1 "users.age" (obj1 "$gt" (VInt 65))),
                    advance (newParamBinder ∅ [VInt 65]) 1))
    by reflexivity.
  destruct (filter_keys_carry_the_table db "users" ">" None "age" None EParamPos
              _ _ _ _ ltac:(discriminate) eq_refl eq_refl H) as [v Hv].
  exists (obj1 "$gt" (VInt 65)). split; [exact H|vm_compute; reflexivity].
Defined.

(** ** Termination: the tokenizer makes progress *)

Lemma scanString_length quote s :
  forall val, String.length (snd (scanString quote val s)) <= String.length s.
Proof.
  assert (Hind : forall n s, String.length s <= n -> forall val,
            String.length (snd (scanString quote val s)) <= String.length s).
  { clear s. induction n as [|n IH]; intros s Hlen val.
    - destruct s; [simpl; lia|simpl in Hlen; lia].
    - destruct s as [|c s]; [simpl; lia|].
      cbn [scanString]. destruct (Ascii.eqb c backslash).
      + destruct s as [|c2 s]; [simpl; lia|].
        specialize (IH s ltac:(simpl in Hlen; lia) (val +:+ String c2 EmptyString)).
        cbn [String.length]. lia.
      + destruct (Ascii.eqb c quote); [simpl; lia|].
        specialize (IH s ltac:(simpl in Hlen; lia) (val +:+ String c EmptyString)).
        cbn [String.length]. lia. }
  intros val. apply (Hind (String.length s)). lia.
Qed.

Lemma identStart_isIdent c : _isIdentStart c = true -> _isIdent c = true.
Proof.
  unfold _isIdentStart, _isIdent.
  destruct (in_range 65 90 c), (in_range 97 122 c), (Ascii.eqb c "_");
    try discriminate; intros _; rewrite ?orb_true_r; reflexivity.
Qed.

Lemma twoOps_two_characters c s1 :
  string_take 2 (String c s1) ∈ twoOps -> exists c2 s2, s1 = String c2 s2.
Proof.
  destruct s1 as [|c2 s2]; [|eauto].
  intros H. apply list_elem_of_In in H. simpl in H.
  destruct H as [H|[H|[H|[H|[]]]]]; discriminate.
Qed.

(** Each token but the end of the input takes at least one character. *)
Lemma scan_progress fuel :
  forall s tok r,
  scan fuel s = Ok (tok, r) ->
  String.length r <= String.length s
  /\ (tok <> Teof -> String.length r < String.length s).
Proof.
  induction fuel as [|fuel IH]; intros s tok r; [discriminate|].
  cbn [scan].
  pose proof (dropWhile_length _isSpace s) as Hws.
  destruct (dropWhile _isSpace s) as [|c s1] eqn:Hs.
  { intros [= <- <-]. split; [simpl; lia|congruence]. }
  cbn [String.length] in Hws.
  destruct (Ascii.eqb c "-" && startsWith "-" s1) eqn:Hline.
  { intros H. apply IH in H.
    pose proof (dropWhile_length (fun x => negb (Ascii.eqb x newline)) (String c s1))
      as Hl.
    cbn [String.length] in Hl. split; [lia|]. intros Hne. destruct H as [_ H].
    specialize (H Hne). lia. }
  destruct (Ascii.eqb c "/" && startsWith "*" s1) eqn:Hblock.
  { intros H. apply IH in H.
    pose proof (string_drop_length 2 (skipBlock (string_drop 2 (String c s1)))) as Ha.
    pose proof (skipBlock_length (string_drop 2 (String c s1))) as Hb.
    pose proof (string_drop_length 2 (String c s1)) as Hc.
    cbn [String.length] in Hc. split; [lia|]. intros Hne. destruct H as [_ H].
    specialize (H Hne). lia. }
  destruct (Ascii.eqb c "'" || Ascii.eqb c dquote).
  { pose proof (scanString_length c s1 EmptyString) as Hq.
    destruct (scanString c EmptyString s1) as [val r0]. cbn [snd] in Hq.
    intros [= <- <-]. split; [lia|]. intros _. lia. }
  destruct (_isDigit c) eqn:Hd.
  { intros [= <- <-]. cbn [dropWhile]. rewrite Hd. cbn [orb].
    pose proof (dropWhile_length (fun x => _isDigit x || Ascii.eqb x ".") s1).
    split; [lia|]. intros _. lia. }
  destruct (_isIdentStart c) eqn:Hi.
  { intros [= <- <-]. cbn [dropWhile]. rewrite (identStart_isIdent c Hi).
    pose proof (dropWhile_length _isIdent s1). split; [lia|]. intros _. lia. }
  destruct (Ascii.eqb c ":").
  { intros [= <- <-]. pose proof (dropWhile_length _isIdent s1).
    split; [lia|]. intros _. lia. }
  destruct (Ascii.eqb c "?").
  { intros [= <- <-]. split; [lia|]. intros _. lia. }
  destruct (bool_decide (string_take 2 (String c s1) ∈ twoOps)) eqn:Htwo.
  { apply bool_decide_eq_true in Htwo.
    apply twoOps_two_characters in Htwo as (c2 & s2 & ->).
    intros [= <- <-]. change (string_drop 2 (String c (String c2 s2))) with s2.
    cbn [String.length] in Hws. split; [lia|]. intros _. lia. }
  destruct (includes singles c); [|discriminate].
  intros [= <- <-]. split; [lia|]. intros _. lia.
Qed.

Lemma next_progress t tok t' :
  next t = Ok (tok, t') ->
  peeked t' = None
  /\ pending t' <= pending t
  /\ (tok <> Teof -> pending t' < pending t).
Proof.
  unfold next, pending. destruct (peeked t) as [p|] eqn:Hp.
  - intros [= <- <-]. cbn [peeked rest]. split; [reflexivity|].
    split; [lia|]. intros Hne. destruct p; try congruence; lia.
  - destruct (scan (S (String.length (rest t))) (rest t)) as [[tok' r]|e] eqn:Hs;
      [|discriminate].
    intros [= <- <-]. cbn [peeked rest]. apply scan_progress in Hs.
    split; [reflexivity|]. split; [lia|]. intros Hne. destruct Hs as [_ Hs].
    specialize (Hs Hne). lia.
Qed.

Lemma peek_progress t tok t' :
  peek t = Ok (tok, t') -> peeked t' = Some tok /\ pending t' <= pending t.
Proof.
  intros H. split; [exact (proj1 (peek_Ok _ _ _ H))|].
  unfold peek in H. destruct (peeked t) as [p|] eqn:Hp.
  - injection H as <- <-. lia.
  - destruct (next t) as [[tok' t1]|e] eqn:Hn; [|discriminate].
    injection H as <- <-. apply next_progress in Hn as (_ & Hle & Hlt).
    unfold pending in *. rewrite Hp in *. cbn [peeked rest].
    destruct tok'; try (specialize (Hlt ltac:(discriminate)); lia). lia.
Qed.

Lemma peek_never_out_of_fuel t : peek t <> Throw OutOfFuel.
Proof.
  intros H. apply peek_Throw in H. exact (next_never_out_of_fuel t H).
Qed.

(** ** Termination: the parts of a parser *)

Lemma ok_ret {A} (a : A) t : ok (ret a) t.
Proof.
  split; [discriminate|]. intros a' t' H. apply ret_Ok in H.
  injection H as <- <-. lia.
Qed.

Lemma ok_throw {A} e t : e <> OutOfFuel -> ok (@throw Tokenizer A e) t.
Proof. intros He. split; [unfold throw; congruence|discriminate]. Qed.

Lemma ok_bind {A B} (c : P A) (k : A -> P B) t :
  ok c t ->
  (forall a t1, c t = Ok (a, t1) -> pending t1 <= pending t -> ok (k a) t1) ->
  ok (bind c k) t.
Proof.
  intros [Hc Hmono] Hk. unfold ok, bind in *.
  destruct (c t) as [[a t1]|e] eqn:Hct.
  - destruct (Hk a t1 eq_refl (Hmono _ _ eq_refl)) as [Hk1 Hk2].
    split; [exact Hk1|]. intros b t' H. specialize (Hk2 _ _ H).
    specialize (Hmono _ _ eq_refl). lia.
  - split; [congruence|discriminate].
Qed.

Lemma safe_ret {A} n (a : A) : safe n (ret a).
Proof. intros t _. apply ok_ret. Qed.

Lemma safe_throw {A} n e : e <> OutOfFuel -> safe n (@throw Tokenizer A e).
Proof. intros He t _. apply ok_throw. exact He. Qed.

Lemma safe_bind {A B} n (c : P A) (k : A -> P B) :
  safe n c -> (forall a, safe n (k a)) -> safe n (bind c k).
Proof.
  intros Hc Hk t Ht. apply ok_bind; [apply Hc; exact Ht|].
  intros a t1 _ Hle. apply Hk. lia.
Qed.

Lemma safe_weaken {A} n m (p : P A) : safe n p -> m <= n -> safe m p.
Proof. intros Hp Hle t Ht. apply Hp. lia. Qed.

Lemma safe_next n : safe n next.
Proof.
  intros t _. split; [apply next_never_out_of_fuel|].
  intros tok t' H. apply next_progress in H. tauto.
Qed.

Lemma safe_peek n : safe n peek.
Proof.
  intros t _. split; [apply peek_never_out_of_fuel|].
  intros tok t' H. apply peek_progress in H. tauto.
Qed.

Ltac safe_step :=
  first
    [ apply safe_ret
    | apply safe_throw; discriminate
    | apply safe_next
    | apply safe_peek
    | assumption
    | apply safe_bind; [|intros ?]
    | match goal with
      | |- safe _ (if ?c then _ else _) => destruct c
      | |- safe _ (match ?x with _ => _ end) => destruct x
      end ].

Lemma safe_expectIdent n : safe n _expectIdent.
Proof. unfold _expectIdent. repeat safe_step. Qed.

Lemma safe_peekIdent n : safe n _peekIdent.
Proof. unfold _peekIdent. repeat safe_step. Qed.

Lemma safe_maybeIdent n : safe n _maybeIdent.
Proof. unfold _maybeIdent. repeat safe_step. Qed.

Lemma safe_expectKW n kw : safe n (_expectKW kw).
Proof.
  unfold _expectKW. apply safe_bind; [apply safe_expectIdent|]. intros v.
  repeat safe_step.
Qed.

Lemma safe_eatKW n kw : safe n (_eatKW kw).
Proof. unfold _eatKW. repeat safe_step. Qed.

Lemma safe_tryKW n kw : safe n (_tryKW kw).
Proof. unfold _tryKW. repeat safe_step. Qed.

Lemma safe_expectOp n op : safe n (_expectOp op).
Proof. unfold _expectOp. repeat safe_step. Qed.

Lemma safe_eatOp n op : safe n (_eatOp op).
Proof. unfold _eatOp. repeat safe_step. Qed.

Lemma expectIdent_consumes : consumes _expectIdent.
Proof.
  intros t a t' H. unfold _expectIdent in H. bstep H as tok t1 Hn.
  destruct tok; try discriminate. apply ret_Ok in H. injection H as -> ->.
  apply next_progress in Hn as (_ & _ & Hlt). apply Hlt. discriminate.
Qed.

Lemma eatOp_true op t t' : _eatOp op t = Ok (true, t') -> pending t' < pending t.
Proof.
  unfold _eatOp. intros H. bstep H as tok t1 Hp.
  apply peek_progress in Hp as [Hpk Hle].
  destruct tok as [| | | | | |v]; try (apply ret_Ok in H; discriminate).
  destruct (String.eqb v op); [|apply ret_Ok in H; discriminate].
  bstep H as x t2 Hn. apply ret_Ok in H. injection H as <-.
  rewrite (proj2 (peek_peeked _ _ Hpk)) in Hn. injection Hn as <- <-.
  unfold pending in *. rewrite Hpk in Hle. cbn [peeked rest]. lia.
Qed.

Lemma eatKW_true kw t t' : _eatKW kw t = Ok (true, t') -> pending t' < pending t.
Proof.
  unfold _eatKW. intros H. bstep H as tok t1 Hp.
  apply peek_progress in Hp as [Hpk Hle].
  destruct tok as [| | |v| | |]; try (apply ret_Ok in H; discriminate).
  destruct (kwEq v kw); [|apply ret_Ok in H; discriminate].
  bstep H as x t2 Hn. apply ret_Ok in H. injection H as <-.
  rewrite (proj2 (peek_peeked _ _ Hpk)) in Hn. injection Hn as <- <-.
  unfold pending in *. rewrite Hpk in Hle. cbn [peeked rest]. lia.
Qed.

Lemma next_after_peek t tok t1 x t2 :
  peek t = Ok (tok, t1) -> next t1 = Ok (x, t2) ->
  x = tok /\ (tok <> Teof -> pending t2 < pending t1).
Proof.
  intros Hp Hn. destruct (peek_Ok _ _ _ Hp) as [Hpk _].
  rewrite (proj2 (peek_peeked _ _ Hpk)) in Hn. injection Hn as <- <-.
  split; [reflexivity|]. intros Hne. unfold pending. rewrite Hpk.
  cbn [peeked rest]. destruct tok; try congruence; lia.
Qed.

Lemma consumes_bind {A B} (c : P A) (k : A -> P B) :
  consumes c -> (forall a n, safe n (k a)) -> consumes (bind c k).
Proof.
  intros Hc Hk t b t' H. bstep H as a t1 Ha.
  specialize (Hc _ _ _ Ha).
  destruct (Hk a (S (pending t1)) t1 ltac:(lia)) as [_ Hmono].
  specialize (Hmono _ _ H). lia.
Qed.

Create HintDb safe.

#[local] Hint Resolve safe_ret safe_next safe_peek safe_expectIdent
  safe_peekIdent safe_maybeIdent safe_expectKW safe_eatKW safe_tryKW
  safe_expectOp safe_eatOp : safe.

Ltac safe_tac := repeat first [ solve [auto with safe] | safe_step ].

(** What is [safe] under every bound is [ok] from every tokenizer. *)
Ltac ok_by_safe :=
  match goal with
  | |- ok ?p ?t =>
      let Hs := fresh "Hs" in
      assert (Hs : safe (S (pending t)) p) by safe_tac;
      apply Hs; lia
  end.

(** ** Termination: the loops of the parser *)

Lemma safe_commaList {A} n (item : P A) : safe n item -> safe n (commaList n item).
Proof.
  induction n as [|n IH]; intros Hitem t Ht; [lia|].
  cbn [commaList]. apply ok_bind; [apply Hitem; exact Ht|]. intros x t1 _ H1.
  apply ok_bind; [ok_by_safe|]. intros more t2 Hmore H2.
  destruct more; [|apply ok_ret].
  apply eatOp_true in Hmore.
  apply ok_bind.
  - apply IH; [apply (safe_weaken (S n)); [exact Hitem|lia]|lia].
  - intros xs t3 _ _. apply ok_ret.
Qed.

Lemma safe_binaryLoop n ops (operand : P expr) :
  safe n operand -> forall l, safe n (binaryLoop n ops operand l).
Proof.
  induction n as [|n IH]; intros Hop l t Ht; [lia|].
  cbn [binaryLoop]. apply ok_bind; [ok_by_safe|]. intros p t1 Hp H1.
  destruct p as [| | | | | |v]; try apply ok_ret.
  destruct (bool_decide (v ∈ ops)); [|apply ok_ret].
  apply ok_bind; [ok_by_safe|]. intros x t2 Hn H2.
  destruct (next_after_peek _ _ _ _ _ Hp Hn) as [_ Hlt].
  specialize (Hlt ltac:(discriminate)).
  apply ok_bind; [apply Hop; lia|]. intros r t3 _ H3.
  apply IH; [apply (safe_weaken (S n)); [exact Hop|lia]|lia].
Qed.

Lemma safe_keywordLoop n kw (operand : P expr) :
  safe n operand -> forall l, safe n (keywordLoop n kw operand l).
Proof.
  induction n as [|n IH]; intros Hop l t Ht; [lia|].
  cbn [keywordLoop]. apply ok_bind; [ok_by_safe|]. intros more t1 Hmore H1.
  destruct more; [|apply ok_ret].
  apply eatKW_true in Hmore.
  apply ok_bind; [apply Hop; lia|]. intros r t2 _ H2.
  apply IH; [apply (safe_weaken (S n)); [exact Hop|lia]|lia].
Qed.

#[local] Hint Resolve safe_commaList safe_binaryLoop safe_keywordLoop : safe.

Lemma safe_parseExprWith n (prim : P expr) :
  safe n prim -> safe n (parseExprWith n prim).
Proof.
  intros Hprim.
  assert (Hu : safe n (parseUnary prim)) by (unfold parseUnary; safe_tac).
  assert (Hm : safe n (parseMul n (parseUnary prim)))
    by (unfold parseMul; safe_tac).
  assert (Ha : safe n (parseAdd n (parseMul n (parseUnary prim))))
    by (unfold parseAdd; safe_tac).
  assert (Hc : safe n (parseComparison n
                         (parseAdd n (parseMul n (parseUnary prim))) prim))
    by (unfold parseComparison; safe_tac).
  assert (Hn : safe n (parseNot
                         (parseComparison n
                            (parseAdd n (parseMul n (parseUnary prim))) prim)))
    by (unfold parseNot; safe_tac).
  assert (Hand : safe n (parseAnd n
                           (parseNot
                              (parseComparison n
                                 (parseAdd n (parseMul n (parseUnary prim))) prim))))
    by (unfold parseAnd; safe_tac).
  unfold parseExprWith, parseOr. safe_tac.
Qed.

Lemma safe_parsePrimary n : safe n (parsePrimary n).
Proof.
  induction n as [|n IH]; intros t Ht; [lia|].
  pose proof (safe_parseExprWith n _ IH) as Hexpr.
  cbn [parsePrimary]. apply ok_bind; [ok_by_safe|]. intros p t1 Hp H1.
  assert (Hdefault :
            ok (paren <- _eatOp "(" ;;
                if paren then
                  e <- parseExprWith n (parsePrimary n) ;;
                  _ <- _expectOp ")" ;; ret e
                else
                  star <- _eatOp "*" ;;
                  if star then ret EAll
                  else throw (Error "Unexpected token in expression")) t1).
  { apply ok_bind; [ok_by_safe|]. intros paren t2 Hparen H2.
    destruct paren; [|ok_by_safe].
    apply eatOp_true in Hparen.
    assert (Hs : safe n (e <- parseExprWith n (parsePrimary n) ;;
                         _ <- _expectOp ")" ;; ret e)) by safe_tac.
    apply Hs. lia. }
  destruct p; try exact Hdefault; try ok_by_safe.
  apply ok_bind; [ok_by_safe|]. intros id t2 Hid H2.
  apply expectIdent_consumes in Hid.
  match goal with
  | |- ok ?p _ => assert (Hs : safe n p) by safe_tac
  end.
  apply Hs. lia.
Qed.

#[local] Hint Resolve safe_parseExprWith safe_parsePrimary : safe.

Lemma safe_parseExpr n : safe n (parseExpr n).
Proof. unfold parseExpr. auto with safe. Qed.

Lemma safe_parseValue n : safe n (parseValue n).
Proof. unfold parseValue. auto with safe. Qed.

Lemma safe_parseField n : safe n parseField.
Proof. unfold parseField. safe_tac. Qed.

Lemma safe_parseTableRef n : safe n parseTableRef.
Proof. unfold parseTableRef. safe_tac. Qed.

#[local] Hint Resolve safe_parseExpr safe_parseValue safe_parseField
  safe_parseTableRef : safe.

Lemma parseTableRef_consumes : consumes parseTableRef.
Proof.
  unfold parseTableRef. apply consumes_bind; [apply expectIdent_consumes|].
  intros name n. safe_tac.
Qed.

Lemma safe_parseJoinCondition n : safe n parseJoinCondition.
Proof. unfold parseJoinCondition. safe_tac. Qed.

#[local] Hint Resolve safe_parseJoinCondition : safe.

Lemma safe_parseJoins n : forall js, safe n (parseJoins n js).
Proof.
  induction n as [|n IH]; intros js t Ht; [lia|].
  cbn [parseJoins].
  apply ok_bind; [ok_by_safe|]. intros a t1 _ H1.
  apply ok_bind; [ok_by_safe|]. intros b t2 _ H2.
  apply ok_bind; [ok_by_safe|]. intros c t3 _ H3.
  apply ok_bind; [ok_by_safe|]. intros d t4 _ H4.
  destruct d; [|apply ok_ret].
  apply ok_bind; [ok_by_safe|]. intros l1 t5 _ H5.
  apply ok_bind; [ok_by_safe|]. intros l2 t6 _ H6.
  apply ok_bind; [ok_by_safe|]. intros ty t7 _ H7.
  apply ok_bind; [ok_by_safe|]. intros table t8 Htable H8.
  apply parseTableRef_consumes in Htable.
  apply ok_bind; [ok_by_safe|]. intros x t9 _ H9.
  apply ok_bind; [ok_by_safe|]. intros on t10 _ H10.
  apply IH. lia.
Qed.

#[local] Hint Resolve safe_parseJoins : safe.

Lemma safe_parseSelectList n : safe n (parseSelectList n).
Proof.
  unfold parseSelectList. apply safe_commaList.
  unfold parseSelectItem. safe_tac.
Qed.

Lemma safe_parseOrderByList n : safe n (parseOrderByList n).
Proof. unfold parseOrderByList. apply safe_commaList. safe_tac. Qed.

Lemma safe_parseFieldList n : safe n (parseFieldList n).
Proof. unfold parseFieldList. auto with safe. Qed.

Lemma safe_parseNumberLit n : safe n parseNumberLit.
Proof. unfold parseNumberLit. safe_tac. Qed.

Lemma safe_parseValueList n : safe n (parseValueList n).
Proof. unfold parseValueList. auto with safe. Qed.

Lemma safe_parseIdentList n : safe n (parseIdentList n).
Proof. unfold parseIdentList. auto with safe. Qed.

#[local] Hint Resolve safe_parseSelectList safe_parseOrderByList
  safe_parseFieldList safe_parseNumberLit safe_parseValueList
  safe_parseIdentList : safe.

Lemma safe_parseSelect n : safe n (parseSelect n).
Proof. unfold parseSelect. safe_tac. Qed.

#[local] Hint Resolve safe_parseSelect : safe.

Lemma safe_parseInsert n : safe n (parseInsert n).
Proof.
  unfold parseInsert, parseSelectAfterInitial, parseTableRefNoAlias.
  assert (Hrow : safe n (_ <- _expectOp "(" ;;
                         row <- parseValueList n ;;
                         _ <- _expectOp ")" ;;
                         ret row)) by safe_tac.
  pose proof (safe_commaList n _ Hrow) as Hrows.
  safe_tac.
Qed.

Lemma safe_parseUpdate n : safe n (parseUpdate n).
Proof.
  unfold parseUpdate, parseTableRefNoAlias.
  assert (Hset : safe n (col <- _expectIdent ;;
                         _ <- _expectOp "=" ;;
                         value <- parseValue n ;;
                         ret {| set_column := col; set_value := value |}))
    by safe_tac.
  pose proof (safe_commaList n _ Hset) as Hsets.
  safe_tac.
Qed.

Lemma safe_parseDelete n : safe n (parseDelete n).
Proof. unfold parseDelete, parseTableRefNoAlias. safe_tac. Qed.

#[local] Hint Resolve safe_parseInsert safe_parseUpdate safe_parseDelete : safe.

Lemma safe_parseStatement n : safe n (parseStatement n).
Proof. unfold parseStatement. safe_tac. Qed.

(** ** The bound of the parser does not matter *)

Lemma agree_refl {A} b (p : P A) : agree b p p.
Proof. intros t _. reflexivity. Qed.

Lemma agree_weaken {A} b b' (p q : P A) : agree b p q -> b' <= b -> agree b' p q.
Proof. intros H Hle t Ht. apply H. lia. Qed.

Lemma agree_bind {A B} b (p q : P A) (k k' : A -> P B) :
  agree b p q -> safe b p -> (forall a, agree b (k a) (k' a)) ->
  agree b (bind p k) (bind q k').
Proof.
  intros Hpq Hs Hk t Ht. unfold bind. rewrite <- (Hpq t Ht).
  destruct (p t) as [[a t1]|e] eqn:E; [|reflexivity].
  apply Hk. destruct (Hs t Ht) as [_ Hm]. specialize (Hm _ _ E). lia.
Qed.

Lemma safe_agree {A} b (p q : P A) : agree b p q -> safe b q -> safe b p.
Proof. intros Hpq Hq t Ht. unfold ok. rewrite (Hpq t Ht). apply Hq. exact Ht. Qed.

(** At one tokenizer. *)
Lemma bind_eq {A B} (p q : P A) (k k' : A -> P B) t :
  p t = q t ->
  (forall a t1, p t = Ok (a, t1) -> k a t1 = k' a t1) ->
  bind p k t = bind q k' t.
Proof.
  intros Hpq Hk. unfold bind. rewrite <- Hpq.
  destruct (p t) as [[a t1]|e] eqn:E; [|reflexivity]. apply Hk. reflexivity.
Qed.

Ltac agree_step :=
  first
    [ apply agree_refl
    | assumption
    | apply agree_bind; [|solve [safe_tac]|intros ?]
    | match goal with
      | |- agree _ (if ?c then _ else _) (if ?c then _ else _) => destruct c
      | |- agree _ (match ?x with _ => _ end) (match ?x with _ => _ end) =>
          destruct x
      end ].

Lemma agree_commaList {A} b :
  forall n m (item item' : P A),
  b <= n -> b <= m -> agree b item item' -> safe b item ->
  agree b (commaList n item) (commaList m item').
Proof.
  induction b as [|b IH]; intros n m item item' Hn Hm Hi Hs t Ht; [lia|].
  destruct n as [|n]; [lia|]. destruct m as [|m]; [lia|].
  cbn [commaList]. apply bind_eq; [apply Hi; exact Ht|]. intros x t1 Hx.
  destruct (Hs t Ht) as [_ Hmono]. specialize (Hmono _ _ Hx).
  apply bind_eq; [reflexivity|]. intros more t2 Hmore.
  destruct more; [|reflexivity]. apply eatOp_true in Hmore.
  apply bind_eq; [|reflexivity].
  apply IH; try lia.
  - apply (agree_weaken (S b)); [exact Hi|lia].
  - apply (safe_weaken (S b)); [exact Hs|lia].
Qed.

Lemma agree_binaryLoop b ops :
  forall n m (operand operand' : P expr) l,
  b <= n -> b <= m -> agree b operand operand' -> safe b operand ->
  agree b (binaryLoop n ops operand l) (binaryLoop m ops operand' l).
Proof.
  induction b as [|b IH]; intros n m operand operand' l Hn Hm Ho Hs t Ht; [lia|].
  destruct n as [|n]; [lia|]. destruct m as [|m]; [lia|].
  cbn [binaryLoop]. apply bind_eq; [reflexivity|]. intros p t1 Hp.
  pose proof (peek_progress _ _ _ Hp) as [_ H1].
  destruct p as [| | | | | |v]; try reflexivity.
  destruct (bool_decide (v ∈ ops)); [|reflexivity].
  apply bind_eq; [reflexivity|]. intros x t2 Hnx.
  destruct (next_after_peek _ _ _ _ _ Hp Hnx) as [_ Hlt].
  specialize (Hlt ltac:(discriminate)).
  apply bind_eq; [apply Ho; lia|]. intros r t3 Hr.
  destruct (Hs t2 ltac:(lia)) as [_ Hmono]. specialize (Hmono _ _ Hr).
  apply IH; try lia.
  - apply (agree_weaken (S b)); [exact Ho|lia].
  - apply (safe_weaken (S b)); [exact Hs|lia].
Qed.

Lemma agree_keywordLoop b kw :
  forall n m (operand operand' : P expr) l,
  b <= n -> b <= m -> agree b operand operand' -> safe b operand ->
  agree b (keywordLoop n kw operand l) (keywordLoop m kw operand' l).
Proof.
  induction b as [|b IH]; intros n m operand operand' l Hn Hm Ho Hs t Ht; [lia|].
  destruct n as [|n]; [lia|]. destruct m as [|m]; [lia|].
  cbn [keywordLoop]. apply bind_eq; [reflexivity|]. intros more t1 Hmore.
  destruct more; [|reflexivity]. apply eatKW_true in Hmore.
  apply bind_eq; [apply Ho; lia|]. intros r t2 Hr.
  destruct (Hs t1 ltac:(lia)) as [_ Hmono]. specialize (Hmono _ _ Hr).
  apply IH; try lia.
  - apply (agree_weaken (S b)); [exact Ho|lia].
  - apply (safe_weaken (S b)); [exact Hs|lia].
Qed.

(** A loop under a bound below its own is as safe as under its own. *)
Lemma safe_commaList_le {A} b n (item : P A) :
  b <= n -> safe b item -> safe b (commaList n item).
Proof.
  intros Hn Hs. apply (safe_agree b _ (commaList b item)).
  - apply agree_commaList; auto using agree_refl.
  - apply safe_commaList. exact Hs.
Qed.

Lemma safe_binaryLoop_le b n ops (operand : P expr) l :
  b <= n -> safe b operand -> safe b (binaryLoop n ops operand l).
Proof.
  intros Hn Hs. apply (safe_agree b _ (binaryLoop b ops operand l)).
  - apply agree_binaryLoop; auto using agree_refl.
  - apply safe_binaryLoop. exact Hs.
Qed.

Lemma safe_keywordLoop_le b n kw (operand : P expr) l :
  b <= n -> safe b operand -> safe b (keywordLoop n kw operand l).
Proof.
  intros Hn Hs. apply (safe_agree b _ (keywordLoop b kw operand l)).
  - apply agree_keywordLoop; auto using agree_refl.
  - apply safe_keywordLoop. exact Hs.
Qed.

Lemma agree_parseExprWith b n m (prim prim' : P expr) :
  b <= n -> b <= m -> agree b prim prim' -> safe b prim ->
  agree b (parseExprWith n prim) (parseExprWith m prim')
  /\ safe b (parseExprWith n prim).
Proof.
  intros Hn Hm Hp Hs.
  assert (Hu : agree b (parseUnary prim) (parseUnary prim'))
    by (unfold parseUnary; repeat agree_step).
  assert (Su : safe b (parseUnary prim)) by (unfold parseUnary; safe_tac).
  assert (Hmul : agree b (parseMul n (parseUnary prim))
                         (parseMul m (parseUnary prim'))).
  { unfold parseMul. apply agree_bind; [exact Hu|exact Su|]. intros l.
    apply agree_binaryLoop; assumption. }
  assert (Smul : safe b (parseMul n (parseUnary prim))).
  { unfold parseMul. apply safe_bind; [exact Su|]. intros l.
    apply safe_binaryLoop_le; assumption. }
  assert (Hadd : agree b (parseAdd n (parseMul n (parseUnary prim)))
                         (parseAdd m (parseMul m (parseUnary prim')))).
  { unfold parseAdd. apply agree_bind; [exact Hmul|exact Smul|]. intros l.
    apply agree_binaryLoop; assumption. }
  assert (Sadd : safe b (parseAdd n (parseMul n (parseUnary prim)))).
  { unfold parseAdd. apply safe_bind; [exact Smul|]. intros l.
    apply safe_binaryLoop_le; assumption. }
  assert (Hlist : agree b (commaList n prim) (commaList m prim'))
    by (apply agree_commaList; assumption).
  assert (Slist : safe b (commaList n prim))
    by (apply safe_commaList_le; assumption).
  assert (Hcmp : agree b
                   (parseComparison n (parseAdd n (parseMul n (parseUnary prim)))
                      prim)
                   (parseComparison m (parseAdd m (parseMul m (parseUnary prim')))
                      prim')).
  { unfold parseComparison. repeat agree_step. }
  assert (Scmp : safe b
                   (parseComparison n (parseAdd n (parseMul n (parseUnary prim)))
                      prim)).
  { unfold parseComparison. safe_tac. }
  assert (Hnot : agree b
                   (parseNot
                      (parseComparison n
                         (parseAdd n (parseMul n (parseUnary prim))) prim))
                   (parseNot
                      (parseComparison m
                         (parseAdd m (parseMul m (parseUnary prim'))) prim'))).
  { unfold parseNot. repeat agree_step. }
  assert (Snot : safe b
                   (parseNot
                      (parseComparison n
                         (parseAdd n (parseMul n (parseUnary prim))) prim))).
  { unfold parseNot. safe_tac. }
  assert (Hand : agree b
                   (parseAnd n
                      (parseNot
                         (parseComparison n
                            (parseAdd n (parseMul n (parseUnary prim))) prim)))
                   (parseAnd m
                      (parseNot
                         (parseComparison m
                            (parseAdd m (parseMul m (parseUnary prim'))) prim')))).
  { unfold parseAnd. apply agree_bind; [exact Hnot|exact Snot|]. intros l.
    apply agree_keywordLoop; assumption. }
  assert (Sand : safe b
                   (parseAnd n
                      (parseNot
                         (parseComparison n
                            (parseAdd n (parseMul n (parseUnary prim))) prim)))).
  { unfold parseAnd. apply safe_bind; [exact Snot|]. intros l.
    apply safe_keywordLoop_le; assumption. }
  split.
  - unfold parseExprWith, parseOr. apply agree_bind; [exact Hand|exact Sand|].
    intros l. apply agree_keywordLoop; assumption.
  - unfold parseExprWith, parseOr. apply safe_bind; [exact Sand|]. intros l.
    apply safe_keywordLoop_le; assumption.
Qed.

Lemma agree_parsePrimary b :
  forall n m, b <= n -> b <= m -> agree b (parsePrimary n) (parsePrimary m).
Proof.
  induction b as [|b IH]; intros n m Hn Hm t Ht; [lia|].
  destruct n as [|n]; [lia|]. destruct m as [|m]; [lia|].
  assert (Hprim : agree b (parsePrimary n) (parsePrimary m))
    by (apply IH; lia).
  assert (Sprim : safe b (parsePrimary n)).
  { apply (safe_agree b _ (parsePrimary b)); [apply IH; lia|].
    apply safe_parsePrimary. }
  destruct (agree_parseExprWith b n m _ _ ltac:(lia) ltac:(lia) Hprim Sprim)
    as [Hexpr Sexpr].
  assert (Hlist : agree b (commaList n (parseExprWith n (parsePrimary n)))
                          (commaList m (parseExprWith m (parsePrimary m))))
    by (apply agree_commaList; try lia; assumption).
  assert (Slist : safe b (commaList n (parseExprWith n (parsePrimary n))))
    by (apply safe_commaList_le; try lia; assumption).
  cbn [parsePrimary]. apply bind_eq; [reflexivity|]. intros p t1 Hp.
  pose proof (peek_progress _ _ _ Hp) as [_ H1].
  assert (Hdefault :
            (paren <- _eatOp "(" ;;
             if paren then
               e <- parseExprWith n (parsePrimary n) ;;
               _ <- _expectOp ")" ;; ret e
             else
               star <- _eatOp "*" ;;
               if star then ret EAll
               else throw (Error "Unexpected token in expression")) t1
            = (paren <- _eatOp "(" ;;
               if paren then
                 e <- parseExprWith m (parsePrimary m) ;;
                 _ <- _expectOp ")" ;; ret e
               else
                 star <- _eatOp "*" ;;
                 if star then ret EAll
                 else throw (Error "Unexpected token in expression")) t1).
  { apply bind_eq; [reflexivity|]. intros paren t2 Hparen.
    destruct paren; [|reflexivity]. apply eatOp_true in Hparen.
    assert (Ha : agree b (e <- parseExprWith n (parsePrimary n) ;;
                          _ <- _expectOp ")" ;; ret e)
                         (e <- parseExprWith m (parsePrimary m) ;;
                          _ <- _expectOp ")" ;; ret e))
      by (repeat agree_step).
    apply Ha. lia. }
  destruct p; try exact Hdefault; try reflexivity.
  apply bind_eq; [reflexivity|]. intros id t2 Hid.
  apply expectIdent_consumes in Hid.
  match goal with
  | |- ?p _ = ?q _ => assert (Ha : agree b p q) by (repeat agree_step)
  end.
  apply Ha. lia.
Qed.

Lemma safe_parsePrimary_le b n : b <= n -> safe b (parsePrimary n).
Proof.
  intros Hn. apply (safe_agree b _ (parsePrimary b)).
  - apply agree_parsePrimary; lia.
  - apply safe_parsePrimary.
Qed.

Lemma agree_parseExpr b n m :
  b <= n -> b <= m -> agree b (parseExpr n) (parseExpr m).
Proof.
  intros Hn Hm. unfold parseExpr.
  apply (agree_parseExprWith b n m _ _ Hn Hm
           (agree_parsePrimary b n m Hn Hm) (safe_parsePrimary_le b n Hn)).
Qed.

Lemma safe_parseExpr_le b n : b <= n -> safe b (parseExpr n).
Proof.
  intros Hn. unfold parseExpr.
  apply (agree_parseExprWith b n n _ _ Hn Hn
           (agree_refl b _) (safe_parsePrimary_le b n Hn)).
Qed.

Lemma agree_parseJoins b :
  forall n m js, b <= n -> b <= m -> agree b (parseJoins n js) (parseJoins m js).
Proof.
  induction b as [|b IH]; intros n m js Hn Hm t Ht; [lia|].
  destruct n as [|n]; [lia|]. destruct m as [|m]; [lia|].
  cbn [parseJoins].
  assert (Hok : forall {A} (p : P A) t0 a t1,
             (forall k, safe k p) -> p t0 = Ok (a, t1) -> pending t1 <= pending t0).
  { intros A p t0 a t1 Hp H. destruct (Hp (S (pending t0)) t0 ltac:(lia)) as [_ Hm0].
    exact (Hm0 _ _ H). }
  apply bind_eq; [reflexivity|]. intros a t1 Ha.
  apply Hok in Ha; [|intros; safe_tac].
  apply bind_eq; [reflexivity|]. intros b0 t2 Hb.
  apply Hok in Hb; [|intros; safe_tac].
  apply bind_eq; [reflexivity|]. intros c t3 Hc.
  apply Hok in Hc; [|intros; safe_tac].
  apply bind_eq; [reflexivity|]. intros d t4 Hd.
  apply Hok in Hd; [|intros; safe_tac].
  destruct d; [|reflexivity].
  apply bind_eq; [reflexivity|]. intros l1 t5 Hl1.
  apply Hok in Hl1; [|intros; safe_tac].
  apply bind_eq; [reflexivity|]. intros l2 t6 Hl2.
  apply Hok in Hl2; [|intros; safe_tac].
  apply bind_eq; [reflexivity|]. intros ty t7 Hty.
  apply Hok in Hty; [|intros; safe_tac].
  apply bind_eq; [reflexivity|]. intros table t8 Htable.
  apply parseTableRef_consumes in Htable.
  apply bind_eq; [reflexivity|]. intros x t9 Hx.
  apply Hok in Hx; [|intros; safe_tac].
  apply bind_eq; [reflexivity|]. intros on t10 Hon.
  apply Hok in Hon; [|intros; safe_tac].
  apply IH; lia.
Qed.

Lemma safe_parseJoins_le b n js : b <= n -> safe b (parseJoins n js).
Proof.
  intros Hn. apply (safe_agree b _ (parseJoins b js)).
  - apply agree_parseJoins; lia.
  - apply safe_parseJoins.
Qed.

#[local] Hint Resolve safe_parseExpr_le safe_parsePrimary_le safe_parseJoins_le
  safe_commaList_le : safe.

Section bounds.

Variables b n m : nat.
Hypothesis Hn : b <= n.
Hypothesis Hm : b <= m.

Lemma agree_parseValue : agree b (parseValue n) (parseValue m).
Proof. unfold parseValue. apply agree_parsePrimary; assumption. Qed.

Lemma safe_parseValue_le : safe b (parseValue n).
Proof. unfold parseValue. auto with safe. Qed.

Lemma agree_parseSelectItem : agree b (parseSelectItem n) (parseSelectItem m).
Proof.
  pose proof (agree_parseExpr b n m Hn Hm).
  unfold parseSelectItem. repeat agree_step.
Qed.

Lemma safe_parseSelectItem_le : safe b (parseSelectItem n).
Proof. unfold parseSelectItem. safe_tac. Qed.

Lemma agree_parseSelectList : agree b (parseSelectList n) (parseSelectList m).
Proof.
  unfold parseSelectList. apply agree_commaList; try assumption.
  - apply agree_parseSelectItem.
  - apply safe_parseSelectItem_le.
Qed.

Lemma safe_parseSelectList_le : safe b (parseSelectList n).
Proof.
  unfold parseSelectList. apply safe_commaList_le; [assumption|].
  apply safe_parseSelectItem_le.
Qed.

Lemma agree_parseOrderByList : agree b (parseOrderByList n) (parseOrderByList m).
Proof.
  pose proof (agree_parseExpr b n m Hn Hm).
  unfold parseOrderByList. apply agree_commaList; try assumption.
  - repeat agree_step.
  - safe_tac.
Qed.

Lemma safe_parseOrderByList_le : safe b (parseOrderByList n).
Proof.
  unfold parseOrderByList. apply safe_commaList_le; [assumption|]. safe_tac.
Qed.

Lemma agree_parseFieldList : agree b (parseFieldList n) (parseFieldList m).
Proof.
  unfold parseFieldList. apply agree_commaList; try assumption.
  - apply agree_refl.
  - safe_tac.
Qed.

Lemma safe_parseFieldList_le : safe b (parseFieldList n).
Proof. unfold parseFieldList. apply safe_commaList_le; [assumption|safe_tac]. Qed.

Lemma agree_parseValueList : agree b (parseValueList n) (parseValueList m).
Proof.
  unfold parseValueList. apply agree_commaList; try assumption.
  - apply agree_parseValue.
  - apply safe_parseValue_le.
Qed.

Lemma safe_parseValueList_le : safe b (parseValueList n).
Proof.
  unfold parseValueList. apply safe_commaList_le; [assumption|].
  apply safe_parseValue_le.
Qed.

Lemma agree_parseIdentList : agree b (parseIdentList n) (parseIdentList m).
Proof.
  unfold parseIdentList. apply agree_commaList; try assumption.
  - apply agree_refl.
  - safe_tac.
Qed.

Lemma safe_parseIdentList_le : safe b (parseIdentList n).
Proof. unfold parseIdentList. apply safe_commaList_le; [assumption|safe_tac]. Qed.

Lemma agree_parseSelect : agree b (parseSelect n) (parseSelect m).
Proof.
  pose proof (agree_parseExpr b n m Hn Hm).
  pose proof agree_parseSelectList. pose proof safe_parseSelectList_le.
  pose proof agree_parseOrderByList. pose proof safe_parseOrderByList_le.
  pose proof agree_parseFieldList. pose proof safe_parseFieldList_le.
  pose proof (agree_parseJoins b n m [] Hn Hm).
  unfold parseSelect. repeat agree_step.
Qed.

Lemma safe_parseSelect_le : safe b (parseSelect n).
Proof.
  pose proof safe_parseSelectList_le. pose proof safe_parseOrderByList_le.
  pose proof safe_parseFieldList_le.
  unfold parseSelect. safe_tac.
Qed.

Lemma agree_parseInsert : agree b (parseInsert n) (parseInsert m).
Proof.
  pose proof agree_parseSelect. pose proof safe_parseSelect_le.
  pose proof agree_parseIdentList. pose proof safe_parseIdentList_le.
  pose proof agree_parseValueList. pose proof safe_parseValueList_le.
  assert (Hrow : agree b (_ <- _expectOp "(" ;;
                          row <- parseValueList n ;;
                          _ <- _expectOp ")" ;;
                          ret row)
                         (_ <- _expectOp "(" ;;
                          row <- parseValueList m ;;
                          _ <- _expectOp ")" ;;
                          ret row)) by (repeat agree_step).
  assert (Srow : safe b (_ <- _expectOp "(" ;;
                         row <- parseValueList n ;;
                         _ <- _expectOp ")" ;;
                         ret row)) by safe_tac.
  pose proof (agree_commaList b n m _ _ Hn Hm Hrow Srow) as Hrows.
  pose proof (safe_commaList_le b n _ Hn Srow) as Srows.
  unfold parseInsert, parseSelectAfterInitial, parseTableRefNoAlias.
  repeat agree_step.
Qed.

Lemma agree_parseUpdate : agree b (parseUpdate n) (parseUpdate m).
Proof.
  pose proof (agree_parseExpr b n m Hn Hm).
  pose proof agree_parseValue. pose proof safe_parseValue_le.
  assert (Hset : agree b (col <- _expectIdent ;;
                          _ <- _expectOp "=" ;;
                          value <- parseValue n ;;
                          ret {| set_column := col; set_value := value |})
                         (col <- _expectIdent ;;
                          _ <- _expectOp "=" ;;
                          value <- parseValue m ;;
                          ret {| set_column := col; set_value := value |}))
    by (repeat agree_step).
  assert (Sset : safe b (col <- _expectIdent ;;
                         _ <- _expectOp "=" ;;
                         value <- parseValue n ;;
                         ret {| set_column := col; set_value := value |}))
    by safe_tac.
  pose proof (agree_commaList b n m _ _ Hn Hm Hset Sset) as Hsets.
  pose proof (safe_commaList_le b n _ Hn Sset) as Ssets.
  unfold parseUpdate, parseTableRefNoAlias. repeat agree_step.
Qed.

Lemma agree_parseDelete : agree b (parseDelete n) (parseDelete m).
Proof.
  pose proof (agree_parseExpr b n m Hn Hm).
  unfold parseDelete, parseTableRefNoAlias. repeat agree_step.
Qed.

Lemma agree_parseStatement : agree b (parseStatement n) (parseStatement m).
Proof.
  pose proof agree_parseSelect. pose proof safe_parseSelect_le.
  pose proof agree_parseInsert. pose proof agree_parseUpdate.
  pose proof agree_parseDelete.
  unfold parseStatement. repeat agree_step.
Qed.

End bounds.

(** ** Termination: compiling throws JavaScript exceptions only *)

Lemma jsOnly_ret {A} (a : A) : jsOnly (ret a).
Proof. intros b. discriminate. Qed.

Lemma jsOnly_throw {A} e : e <> OutOfFuel -> jsOnly (@throw ParamBinder A e).
Proof. intros He b. unfold throw. congruence. Qed.

Lemma jsOnly_lift {A} (r : result A) : r <> Throw OutOfFuel -> jsOnly (lift r).
Proof. intros Hr b. unfold lift. destruct r; congruence. Qed.

Lemma jsOnly_bind {A B} (c : M A) (k : A -> M B) :
  jsOnly c -> (forall a, jsOnly (k a)) -> jsOnly (bind c k).
Proof.
  intros Hc Hk b. unfold bind. specialize (Hc b).
  destruct (c b) as [[a b1]|e]; [apply Hk|congruence].
Qed.

Lemma jsOnly_forM {A T} (l : list A) (body : T -> A -> M T) :
  (forall acc x, jsOnly (body acc x)) -> forall acc, jsOnly (forM l body acc).
Proof.
  intros Hbody. induction l as [|x l IH]; intros acc; cbn [forM].
  - apply jsOnly_ret.
  - apply jsOnly_bind; auto.
Qed.

Lemma jsOnly_mapM {A B} (f : A -> M B) (l : list A) :
  (forall x, jsOnly (f x)) -> jsOnly (mapM f l).
Proof.
  intros Hf. induction l as [|x l IH]; cbn [mapM].
  - apply jsOnly_ret.
  - apply jsOnly_bind; [auto|]. intros v.
    apply jsOnly_bind; [auto|]. intros vs. apply jsOnly_ret.
Qed.

Lemma jsOnly_nextPositional : jsOnly nextPositional.
Proof.
  intros b. unfold nextPositional.
  destruct (decide (length (positional b) <= posIndex b)); discriminate.
Qed.

Lemma jsOnly_lookupNamed name : jsOnly (lookupNamed name).
Proof.
  intros b. unfold lookupNamed.
  destruct (default (inherited name) (named b !! name)); discriminate.
Qed.

Lemma qualifyField_js f dt : qualifyField f dt <> Throw OutOfFuel.
Proof. destruct f; discriminate. Qed.

Lemma getCollection_js this name : _getCollection this name <> Throw OutOfFuel.
Proof.
  unfold _getCollection. destruct (tables this !! toLowerCase name); discriminate.
Qed.

Ltac js_step :=
  first
    [ apply jsOnly_ret
    | apply jsOnly_throw; discriminate
    | apply jsOnly_lift; first [apply qualifyField_js | apply getCollection_js]
    | apply jsOnly_nextPositional
    | apply jsOnly_lookupNamed
    | assumption
    | apply jsOnly_bind; [|intros ?]
    | apply jsOnly_forM; intros ? ?
    | apply jsOnly_mapM; intros ?
    | match goal with
      | |- jsOnly (if ?c then _ else _) => destruct c
      | |- jsOnly (match ?x with _ => _ end) => destruct x
      | |- jsOnly (let '(_, _) := ?x in _) => destruct x
      end ].

Lemma jsOnly_bindValue e : jsOnly (bindValue e).
Proof.
  induction e as [| | | | | |vs IH|f t IHf IHt| | | | | |] using expr_ind;
    cbn [bindValue]; repeat js_step.
  induction IH as [|x xs Hx Hxs IH]; repeat js_step.
Qed.

Lemma jsOnly_bindValue' e : jsOnly (bindValue' e).
Proof. destruct e; [apply jsOnly_bindValue|apply jsOnly_ret]. Qed.

Lemma jsOnly_buildMatch dt e : jsOnly (buildMatch e dt).
Proof.
  induction e as [| | | | | |vs IH|f t IHf IHt| | |op l r IHl IHr|op x IHx| |]
    using expr_ind; cbn [buildMatch]; try (apply jsOnly_throw; discriminate).
  - destruct (bool_decide (op = "AND" \/ op = "OR")); [repeat js_step|].
    destruct (isField l); [|apply jsOnly_throw; discriminate].
    apply jsOnly_bind; [apply jsOnly_lift; apply qualifyField_js|]. intros q.
    apply jsOnly_bind; [apply jsOnly_bindValue|]. intros val.
    repeat match goal with
           | |- jsOnly (if ?c then _ else _) => destruct c
           end;
      try apply jsOnly_ret; try (apply jsOnly_throw; discriminate).
    + destruct r; first [apply jsOnly_ret | apply jsOnly_throw; discriminate].
    + destruct r; first [apply jsOnly_ret | apply jsOnly_throw; discriminate].
    + destruct (match r with
                | EBetween f t => (Some f, Some t)
                | _ => (None, None)
                end) as [from to].
      apply jsOnly_bind; [apply jsOnly_bindValue'|]. intros lo.
      apply jsOnly_bind; [apply jsOnly_bindValue'|]. intros hi.
      apply jsOnly_ret.
  - destruct (String.eqb op "NOT"); repeat js_step.
Qed.

Lemma jsOnly_toMongoExpr main js fns e : jsOnly (toMongoExpr e main js fns).
Proof.
  induction e as [| | | | | |vs IH|f t IHf IHt| |n args IH|op l r IHl IHr|op x IHx| |]
    using expr_ind; cbn [toMongoExpr bindValue]; try solve [repeat js_step].
  destruct fns as [fns|]; [|apply jsOnly_throw; discriminate].
  destruct (lookupFunction fns (toUpperCase n)); [|apply jsOnly_throw; discriminate].
  apply jsOnly_bind; [|intros; apply jsOnly_ret].
  induction IH as [|x xs Hx Hxs IH]; repeat js_step.
Qed.

Lemma jsOnly_toMongoAgg name args main js : jsOnly (toMongoAgg name args main js).
Proof.
  assert (H : jsOnly (toMongoExpr' (args !! 0) main js None)).
  { destruct (args !! 0);
      [apply jsOnly_toMongoExpr|apply jsOnly_throw; discriminate]. }
  unfold toMongoAgg. repeat js_step.
Qed.

Lemma jsOnly_buildHaving e : jsOnly (buildHaving e).
Proof.
  destruct e; cbn [buildHaving]; try (apply jsOnly_throw; discriminate).
  apply jsOnly_bind; [apply jsOnly_bindValue|]. intros v. repeat js_step.
Qed.

Lemma jsOnly_lowerJoin this main pipeline j : jsOnly (lowerJoin this main pipeline j).
Proof. unfold lowerJoin. repeat js_step. Qed.

Lemma jsOnly_execSelect this ast : jsOnly (_execSelect this ast).
Proof.
  unfold _execSelect.
  apply jsOnly_bind; [apply jsOnly_lift; apply getCollection_js|]. intros col.
  apply jsOnly_bind.
  { destruct (where_ ast); [|apply jsOnly_ret].
    apply jsOnly_bind; [apply jsOnly_buildMatch|intros; apply jsOnly_ret]. }
  intros p1. apply jsOnly_bind.
  { apply jsOnly_forM. intros acc j. apply jsOnly_lowerJoin. }
  intros p2. apply jsOnly_bind; [|intros; apply jsOnly_ret].
  destruct (groupBy ast).
  - destruct (isSelectAll (columns ast)); [apply jsOnly_ret|].
    apply jsOnly_bind; [|intros; apply jsOnly_ret].
    apply jsOnly_forM. intros acc sel.
    apply jsOnly_bind; [apply jsOnly_toMongoExpr|intros; apply jsOnly_ret].
  - apply jsOnly_bind.
    { apply jsOnly_forM. intros acc g.
      apply jsOnly_bind; [apply jsOnly_toMongoExpr|intros; apply jsOnly_ret]. }
    intros idExpr. apply jsOnly_bind.
    { apply jsOnly_forM. intros acc sel.
      destruct (sel_expr sel) as [| | | | | | | | |f fargs| | | |];
        try apply jsOnly_ret.
      destruct (isAggregate f); [|apply jsOnly_ret].
      apply jsOnly_bind; [apply jsOnly_toMongoAgg|intros; apply jsOnly_ret]. }
    intros group. apply jsOnly_bind; [|intros; apply jsOnly_ret].
    destruct (having ast); [|apply jsOnly_ret].
    apply jsOnly_bind; [apply jsOnly_buildHaving|intros; apply jsOnly_ret].
Qed.

Lemma jsOnly_execute this ast : jsOnly (execute this ast).
Proof.
  destruct ast as [s|into cols values|into cols sel|table set w|frm w| | |];
    cbn [execute]; try apply jsOnly_ret.
  - apply jsOnly_bind; [apply jsOnly_execSelect|].
    intros [col p]. apply jsOnly_ret.
  - apply jsOnly_bind; [|intros [col d]; apply jsOnly_ret].
    unfold _execInsert.
    apply jsOnly_bind; [apply jsOnly_lift; apply getCollection_js|]. intros col.
    apply jsOnly_bind; [|intros; apply jsOnly_ret].
    apply jsOnly_mapM. intros row.
    apply jsOnly_bind; [|intros; apply jsOnly_ret].
    apply jsOnly_forM. intros acc [i c].
    apply jsOnly_bind; [apply jsOnly_bindValue'|intros; apply jsOnly_ret].
  - apply jsOnly_bind; [apply jsOnly_lift; apply getCollection_js|]. intros col.
    apply jsOnly_bind; [apply jsOnly_execSelect|].
    intros [src p]. apply jsOnly_ret.
  - apply jsOnly_bind; [|intros [[col f] u]; apply jsOnly_ret].
    unfold _execUpdate.
    apply jsOnly_bind; [apply jsOnly_lift; apply getCollection_js|]. intros col.
    apply jsOnly_bind.
    { destruct w; [apply jsOnly_buildMatch|apply jsOnly_ret]. }
    intros f. apply jsOnly_bind; [|intros; apply jsOnly_ret].
    unfold buildUpdate. apply jsOnly_bind; [|intros; apply jsOnly_ret].
    apply jsOnly_forM. intros acc x.
    apply jsOnly_bind; [apply jsOnly_bindValue|intros; apply jsOnly_ret].
  - apply jsOnly_bind; [|intros [col f]; apply jsOnly_ret].
    unfold _execDelete.
    apply jsOnly_bind; [apply jsOnly_lift; apply getCollection_js|]. intros col.
    apply jsOnly_bind; [|intros; apply jsOnly_ret].
    destruct w; [apply jsOnly_buildMatch|apply jsOnly_ret].
Qed.

(** X25.  The parser makes progress.  [parseStatement n] is the parser
    with the bound [n] on the rounds of each of its loops and on the nesting
    of its calls.  Each round and each nested call reads at least one token,
    and a token other than the end of the input takes at least one
    character.  So with a bound above the number of characters left to
    read, the parser never stops at the bound, it gives no input back, and
    the bound does not matter: every such bound gives the same result.  No
    text makes the parser loop forever, and its calls nest at most as deep
    as the text is long.  The run of [query] in the model, whose bound is
    the length of the text plus one, never ends at that bound.  The stack
    of the engine is not part of the model: where the calls nest deeper
    than it allows, as with thousands of nested parentheses, the code
    throws a [RangeError]. *)
Theorem parsing_makes_progress n t this sql nm ps :
  (pending t < n ->
   parseStatement n t <> Throw OutOfFuel
   /\ (forall ast t', parseStatement n t = Ok (ast, t') -> pending t' <= pending t)
   /\ (forall m, pending t < m -> parseStatement m t = parseStatement n t))
  /\ query this sql nm ps <> Throw OutOfFuel.
Proof.
  split.
  - intros Ht. destruct (safe_parseStatement n t Ht) as [Hne Hmono].
    split; [exact Hne|]. split; [exact Hmono|].
    intros m Hm.
    apply (agree_parseStatement (S (pending t)) m n); lia.
  - unfold query.
    destruct (safe_parseStatement (S (String.length sql)) (newTokenizer sql))
      as [Hparse _].
    { unfold pending, newTokenizer. cbn [peeked rest]. lia. }
    destruct (parseStatement (S (String.length sql)) (newTokenizer sql))
      as [[ast t0]|e]; [|congruence].
    pose proof (jsOnly_execute this ast (newParamBinder nm ps)) as Hexec.
    destruct (execute this ast (newParamBinder nm ps)) as [[cmd b]|e];
      [discriminate|congruence].
Qed.

Lemma parsing_makes_progress_witness :
  let sql := "SELECT ((a)) AS x FROM t, u" in
  let t1 := {| rest := " u"; peeked := Some (Top ",") |} in
  pending (newTokenizer sql) = 27
  /\ (exists ast, parseStatement 28 (newTokenizer sql) = Ok (ast, t1))
  /\ pending t1 <= 27
  /\ parseStatement 1000 (newTokenizer sql) = parseStatement 28 (newTokenizer sql)
  /\ parseStatement 2 (newTokenizer sql) = Throw OutOfFuel.
Proof.
  intros sql t1.
  destruct (parsing_makes_progress 28 (newTokenizer sql) db sql ∅ []) as [H _].
  destruct (H ltac:(vm_compute; lia)) as (Hne & Hle & Hsame).
  destruct (parseStatement 28 (newTokenizer sql)) as [[ast t']|e] eqn:E;
    [|vm_compute in E; discriminate].
  specialize (Hle _ _ eq_refl).
  assert (Et : t' = t1).
  { vm_compute in E. injection E as _ <-. reflexivity. }
  subst t'.
  split; [reflexivity|]. split; [eauto|]. split; [exact Hle|].
  split; [apply Hsame; vm_compute; lia|].
  vm_compute. reflexivity.
Defined.

(** ** Joins: what lowering a parsed join can throw *)

Lemma lowerJoin_parsed this main pipeline j b :
  parsedJoin j = true ->
  lowerJoin this main pipeline j b
  = match tables this !! toLowerCase (t_name (j_table j)) with
    | Some collection =>
        Ok (pipeline
              ++ [match j_on j with
                  | Some (EBinary _ (EField _ ln _) (EField _ rn _)) =>
                      lookupStage collection ln rn (joinName j)
                  | _ => VUndefined
                  end;
                  unwindStage (joinName j) false], b)
    | None => Throw (Error ("Unknown table: " +:+ t_name (j_table j)))
    end.
Proof.
  unfold parsedJoin. intros H. apply andb_prop in H as [Hty Hon].
  apply String.eqb_eq in Hty.
  destruct (j_on j) as [[| | | | | | | | |? ?|op l r| | |]|] eqn:Eon;
    try discriminate.
  destruct l; try discriminate. destruct r; try discriminate.
  cbn [equalityOfFields] in Hon. apply String.eqb_eq in Hon. subst op.
  destruct (tables this !! toLowerCase (t_name (j_table j))) as [c|] eqn:Hc.
  - rewrite (lowerJoin_emits this main pipeline j b _ _ _ _ _ _ c Eon Hc)
      by (left; exact Hty).
    rewrite Hty. reflexivity.
  - unfold lowerJoin. rewrite Hty, Eon.
    cbn [String.eqb Ascii.eqb Bool.eqb negb andb orb isField].
    unfold bind at 1. cbn [qualifyField lift]. unfold bind at 1. cbn [lift].
    unfold bind at 1. unfold _getCollection. rewrite Hc. reflexivity.
Qed.

(** X26.  A join that the parser built is lowered without an error unless its
    table is not registered: the errors of an unsupported join type and of a
    condition that is no equality of two fields cannot be raised for a parsed
    statement. *)
Theorem parsed_join_fails_only_on_its_table fuel t s t' this :
  parseSelect fuel t = Ok (s, t') ->
  Forall (fun j =>
            forall main pipeline b,
              (exists stages,
                 lowerJoin this main pipeline j b = Ok (pipeline ++ stages, b)
                 /\ length stages = 2)
              \/ lowerJoin this main pipeline j b
                 = Throw (Error ("Unknown table: " +:+ t_name (j_table j))))
         (joins s).
Proof.
  intros H. apply parseSelect_parsed in H.
  eapply Forall_impl; [exact H|]. intros j Hj main pipeline b.
  rewrite (lowerJoin_parsed this main pipeline j b Hj).
  destruct (tables this !! toLowerCase (t_name (j_table j))); [left|right; reflexivity].
  eexists. split; reflexivity.
Qed.

Lemma parsed_join_fails_only_on_its_table_witness :
  exists s t',
    parseSelect 200 (newTokenizer "* FROM users u JOIN logs l ON l.user = u._id")
    = Ok (s, t')
    /\ length (joins s) = 1
    /\ query db "SELECT * FROM users u JOIN logs l ON l.user = u._id" ∅ []
       = Throw (Error "Unknown table: logs").
Proof.
  destruct (parseSelect 200
              (newTokenizer "* FROM users u JOIN logs l ON l.user = u._id"))
    as [[s t']|e] eqn:H; [|vm_compute in H; discriminate].
  pose proof (parsed_join_fails_only_on_its_table _ _ _ _ db H) as Hj.
  exists s, t'. split; [reflexivity|].
  split; [vm_compute in H; injection H as <- _; reflexivity|].
  vm_compute. reflexivity.
Defined.

(** ** HAVING on an aggregate *)

Lemma buildHaving_call op name args rhs b h b' :
  op ∈ comparisonOps ->
  buildHaving (EBinary op (ECall name args) rhs) b = Ok (h, b') ->
  exists v,
    bindValue rhs b = Ok (v, b')
    /\ h = obj1 (toLowerCase name) (leafFilter op v).
Proof.
  intros Hop H. cbn [buildHaving] in H. bstep H as v b1 Hv.
  exists v. apply list_elem_of_In in Hop. simpl in Hop.
  destruct Hop as [<-|[<-|[<-|[<-|[<-|[<-|[<-|[]]]]]]]];
    apply ret_Ok in H; injection H as -> ->; auto.
Qed.

(** The keys of the group stage: [_id] and the keys of the aggregates of
    the select list. *)
Lemma group_loop_keys main js cols :
  forall group b group' b',
  forM cols
    (fun group sel =>
       match sel_expr sel with
       | ECall name args =>
           if isAggregate name then
             a <- toMongoAgg name args main js ;;
             ret (objSet group (selectKey sel) a)
           else ret group
       | _ => ret group
       end) group b = Ok (group', b') ->
  forall k,
    k ∈ map fst group'
    <-> k ∈ map fst group
        \/ (k <> "__proto__"
            /\ exists sel, sel ∈ cols /\ isAggregateCall (sel_expr sel) = true
                           /\ selectKey sel = k).
Proof.
  induction cols as [|sel cols IH]; intros group b group' b' H k.
  - apply ret_Ok in H. injection H as -> ->. split; [auto|].
    intros [Hk|(_ & sel & Hsel & _)]; [exact Hk|].
    apply elem_of_nil in Hsel. contradiction.
  - cbn [forM] in H. bstep H as g1 b1 Hsel.
    rewrite (IH _ _ _ _ H k). clear IH H.
    assert (Hg1 : (isAggregateCall (sel_expr sel) = true
                   /\ exists a, g1 = objSet group (selectKey sel) a)
                  \/ (isAggregateCall (sel_expr sel) = false /\ g1 = group)).
    { unfold isAggregateCall.
      destruct (sel_expr sel) as [| | | | | | | | |f fargs| | | |];
        try (apply ret_Ok in Hsel; injection Hsel as -> ->; right; auto).
      destruct (isAggregate f).
      - bstep Hsel as a b2 Ha. apply ret_Ok in Hsel. injection Hsel as -> ->.
        left. eauto.
      - apply ret_Ok in Hsel. injection Hsel as -> ->. right. auto. }
    destruct Hg1 as [[Hagg [a ->]]|[Hagg ->]].
    + rewrite objSet_keys. split.
      * intros [[[-> Hp]|Hk]|(Hp & s0 & Hs0 & Ha0 & Hk0)].
        -- right. split; [exact Hp|]. exists sel.
           split; [apply list_elem_of_here|auto].
        -- auto.
        -- right. split; [exact Hp|]. exists s0.
           split; [apply list_elem_of_further; exact Hs0|auto].
      * intros [Hk|(Hp & s0 & Hs0 & Ha0 & Hk0)]; [auto|].
        apply elem_of_cons in Hs0 as [->|Hs0].
        -- left. left. split; [auto|]. congruence.
        -- right. split; [exact Hp|]. eauto.
    + split.
      * intros [Hk|(Hp & s0 & Hs0 & Ha0 & Hk0)]; [auto|].
        right. split; [exact Hp|]. exists s0.
        split; [apply list_elem_of_further; exact Hs0|auto].
      * intros [Hk|(Hp & s0 & Hs0 & Ha0 & Hk0)]; [auto|].
        apply elem_of_cons in Hs0 as [->|Hs0]; [congruence|].
        right. split; [exact Hp|]. eauto.
Qed.

(** The group stage of a grouped SELECT and the stage of HAVING after
    it. *)
Lemma execSelect_group_stage this ast b col pipeline b' hx :
  groupBy ast <> [] ->
  having ast = Some hx ->
  _execSelect this ast b = Ok ((col, pipeline), b') ->
  exists before group h b2 b3 after,
    pipeline = before ++ [obj1 "$group" (VObj group); obj1 "$match" h] ++ after
    /\ buildHaving hx b2 = Ok (h, b3)
    /\ forall k,
         k ∈ map fst group
         <-> k = "_id"
             \/ (k <> "__proto__"
                 /\ exists sel, sel ∈ columns ast
                                /\ isAggregateCall (sel_expr sel) = true
                                /\ selectKey sel = k).
Proof.
  intros Hg Hh H. unfold _execSelect in H.
  bstep H as c0 s0 Hcol. bstep H as wh s1 Hwh. bstep H as p2 s2 Hjoins.
  bstep H as p3 s3 Hbody.
  apply ret_Ok in H. injection H as _ Hp _.
  destruct (groupBy ast) as [|g0 gs]; [contradiction|].
  bstep Hbody as idExpr s4 Hid. bstep Hbody as group s5 Hgroup.
  bstep Hbody as p4 s6 Hhaving.
  apply ret_Ok in Hbody. injection Hbody as -> _.
  rewrite Hh in Hhaving. bstep Hhaving as h s7 Hbuild.
  apply ret_Ok in Hhaving. injection Hhaving as -> _.
  pose proof (group_loop_keys _ _ _ _ _ _ _ Hgroup) as Hkeys.
  assert (Hk : forall k,
             k ∈ map fst group
             <-> k = "_id"
                 \/ (k <> "__proto__"
                     /\ exists sel, sel ∈ columns ast
                                    /\ isAggregateCall (sel_expr sel) = true
                                    /\ selectKey sel = k)).
  { intros k. rewrite (Hkeys k). cbn [map fst]. rewrite list_elem_of_singleton.
    reflexivity. }
  rewrite Hp. clear Hp. unfold push.
  destruct (orderBy ast); destruct (Number_isFinite (offset ast));
    destruct (Number_isFinite (limit ast));
    (eexists p2, group, h, _, _, _;
     split; [rewrite <- ?app_assoc; cbn [app]; reflexivity|];
     split; [exact Hbuild|exact Hk]).
Qed.

(** X27.  HAVING on an aggregate call filters the groups on the field named
    after the function, in lower case, whatever the arguments of the call.
    The stage of the filter follows the group stage, whose keys are [_id]
    and, for each aggregate of the select list, its alias or without one the
    name of its function in lower case ([__proto__] leaves no key).  So the
    filter reads an aggregate of the select list only when one has no alias
    and this function, or has this very name as its alias. *)
Theorem having_on_a_call_reads_the_function_name
    this ast b col pipeline b' op name args rhs :
  op ∈ comparisonOps ->
  groupBy ast <> [] ->
  having ast = Some (EBinary op (ECall name args) rhs) ->
  _execSelect this ast b = Ok ((col, pipeline), b') ->
  exists before group v after,
    pipeline
    = before
        ++ [obj1 "$group" (VObj group);
            obj1 "$match" (obj1 (toLowerCase name) (leafFilter op v))]
        ++ after
    /\ (forall k,
          k ∈ map fst group
          <-> k = "_id"
              \/ (k <> "__proto__"
                  /\ exists sel f fargs,
                       sel ∈ columns ast
                       /\ sel_expr sel = ECall f fargs
                       /\ isAggregate f = true
                       /\ or_default (sel_alias sel) (toLowerCase f) = k)).
Proof.
  intros Hop Hg Hh H.
  destruct (execSelect_group_stage _ _ _ _ _ _ _ Hg Hh H)
    as (before & group & h & b2 & b3 & after & -> & Hbuild & Hkeys).
  destruct (buildHaving_call _ _ _ _ _ _ _ Hop Hbuild) as (v & _ & ->).
  exists before, group, v, after. split; [reflexivity|].
  intros k. rewrite (Hkeys k). split.
  - intros [Hk|(Hp & sel & Hsel & Hagg & Hkey)]; [auto|].
    right. split; [exact Hp|]. unfold isAggregateCall in Hagg.
    unfold selectKey in Hkey.
    destruct (sel_expr sel) as [| | | | | | | | |f fargs| | | |] eqn:E;
      try discriminate.
    exists sel, f, fargs. auto.
  - intros [Hk|(Hp & sel & f & fargs & Hsel & E & Hagg & Hkey)]; [auto|].
    right. split; [exact Hp|]. exists sel. split; [exact Hsel|].
    unfold isAggregateCall, selectKey. rewrite E. auto.
Qed.

Lemma having_on_a_call_reads_the_function_name_witness :
  parseSelectText header_join_sql = Some header_select
  /\ exists g m rest,
       _execSelect db header_select
         (newParamBinder {[ "country" := VStr "NG" ]} [VInt 3])
       = Ok (("users",
              [obj1 "$match" (obj1 "u.country" (VStr "NG"));
               lookupStage "orders" "userId" "_id" "o"; unwindStage "o" false]
              ++ [obj1 "$group" (VObj [("_id", g); ("orders", m)]);
                  obj1 "$match" (obj1 "count" (obj1 "$gt" (VInt 3)))] ++ rest),
             advance (newParamBinder {[ "country" := VStr "NG" ]} [VInt 3]) 1)
       /\ "count" ∉ map fst [("_id", g); ("orders", m)].
Proof.
  split; [vm_compute; reflexivity|].
  destruct (_execSelect db header_select
              (newParamBinder {[ "country" := VStr "NG" ]} [VInt 3]))
    as [[[col pipeline] b']|e] eqn:H; [|vm_compute in H; discriminate].
  assert (Hop : ">" ∈ comparisonOps) by (apply list_elem_of_In; simpl; tauto).
  assert (Hg : groupBy header_select <> []) by (vm_compute; discriminate).
  destruct (having_on_a_call_reads_the_function_name db header_select _ _ _ _
              ">" "COUNT" [EField (Some "o") "_id" None] EParamPos
              Hop Hg ltac:(vm_compute; reflexivity) H)
    as (before & group & v & after & Hpipe & Hkeys).
  vm_compute in H. injection H as <- <- <-.
  eexists _, _, _. split; [vm_compute; reflexivity|].
  intros Hin. apply list_elem_of_In in Hin. simpl in Hin.
  destruct Hin as [Hin|[Hin|[]]]; discriminate.
Defined.

(** ** Values that are not scalars *)

(** X28.  A parameter is bound as it is given: a value that is an operator
    document, given for [column = ?], yields the very filter of the comparison
    that the operator stands for.  The compiler does not check that the value
    of a parameter is a scalar. *)
Theorem operator_values_pass_as_operators op l dt nm v :
  isField l = true ->
  op ∈ leafOps ->
  exists filter,
    buildMatch (EBinary "=" l EParamPos) dt (newParamBinder nm [leafFilter op v])
    = Ok (filter, advance (newParamBinder nm [leafFilter op v]) 1)
    /\ buildMatch (EBinary op l EParamPos) dt (newParamBinder nm [v])
       = Ok (filter, advance (newParamBinder nm [v]) 1).
Proof.
  intros Hl Hop.
  assert (Heq : "=" ∈ leafOps) by (apply list_elem_of_In; simpl; tauto).
  exists (obj1 (fieldPath l dt) (leafFilter op v)). split.
  - rewrite (buildMatch_leaf "=" l EParamPos dt _ Hl Heq eq_refl)
      by (simpl; lia).
    reflexivity.
  - rewrite (buildMatch_leaf op l EParamPos dt _ Hl Hop eq_refl)
      by (simpl; lia).
    reflexivity.
Qed.

Lemma operator_values_pass_as_operators_witness :
  ">" ∈ leafOps
  /\ query db "DELETE FROM users WHERE password = ?" ∅ [obj1 "$gt" (VStr EmptyString)]
     = Ok (DeleteMany "users" (obj1 "users.password" (obj1 "$gt" (VStr EmptyString))))
  /\ query db "DELETE FROM users WHERE password > ?" ∅ [VStr EmptyString]
     = Ok (DeleteMany "users" (obj1 "users.password" (obj1 "$gt" (VStr EmptyString)))).
Proof.
  assert (Hop : ">" ∈ leafOps) by (apply list_elem_of_In; simpl; tauto).
  destruct (operator_values_pass_as_operators ">" (EField None "password" None)
              "users" ∅ (VStr EmptyString) eq_refl Hop) as (filter & H1 & H2).
  split; [exact Hop|]. split; vm_compute; reflexivity.
Defined.

(** ** ORDER BY: the sort keys *)

Lemma fold_left_map_ext {A T} (f : T -> A -> T) (g : A -> A) (l : list A) :
  (forall acc x, f acc (g x) = f acc x) ->
  forall acc, fold_left f (map g l) acc = fold_left f l acc.
Proof.
  intros Hext. induction l as [|x l IH]; intros acc; [reflexivity|].
  cbn [map fold_left]. rewrite Hext. apply IH.
Qed.

(** X29.  The sort stage names a column without its table: an ORDER BY item
    [u.name] sorts on the key [name], the key of the bare column, while
    filters and projections address the same column as [u.name].  A statement
    compiles to the same command with the qualifiers of its ORDER BY columns
    removed. *)
Theorem order_by_drops_the_qualifier this ast b :
  _execSelect this ast b
  = _execSelect this
      {| columns := columns ast; from := from ast; joins := joins ast;
         where_ := where_ ast; groupBy := groupBy ast; having := having ast;
         orderBy := map unqualified (orderBy ast);
         limit := limit ast; offset := offset ast |} b.
Proof.
  unfold _execSelect.
  cbn [columns from joins where_ groupBy having orderBy limit offset].
  apply bind_ext; [reflexivity|]. intros col b0.
  apply bind_ext; [reflexivity|]. intros p1 b1.
  apply bind_ext; [reflexivity|]. intros p2 b2.
  apply bind_ext; [reflexivity|]. intros p3 b3.
  rewrite (fold_left_map_ext _ unqualified (orderBy ast)).
  - destruct (orderBy ast); reflexivity.
  - intros acc [e d]. destruct e; reflexivity.
Qed.

Lemma order_by_drops_the_qualifier_witness :
  parseSelectText sorted_sql = Some sorted_select
  /\ map ob_expr (orderBy sorted_select)
     = [EField (Some "u") "age" None; EField None "name" None]
  /\ _execSelect db sorted_select (newParamBinder ∅ [])
     = Ok (("users",
            [obj1 "$match" (obj1 "u.age" (obj1 "$gt" (VInt 1)));
             obj1 "$sort" (VObj [("age", VInt (-1)); ("name", VInt 1)])]),
           newParamBinder ∅ []).
Proof.
  split; [vm_compute; reflexivity|]. split; [vm_compute; reflexivity|].
  rewrite (order_by_drops_the_qualifier db sorted_select (newParamBinder ∅ [])).
  vm_compute. reflexivity.
Defined.

(** ** Numbers and inherited names *)

(** A number literal denotes the double nearest to it: past 2^53 not every
    integer is one, and a decimal of more than seventeen digits is cut to
    the digits of its double. *)
Lemma number_literals_are_doubles :
  Number_ "9007199254740993" = Fin 9007199254740992 0
  /\ Number_ "0.1" = Fin 1 (-1)
  /\ Number_ "0.300000000000000044" = Fin 30000000000000004 (-17)
  /\ Number_ "123456789012345678" = Fin 123456789012345680 0
  /\ query db "SELECT * FROM users u LIMIT 9007199254740993" ∅ []
     = Ok (Aggregate "users" [obj1 "$limit" (VInt 9007199254740992)]).
Proof. repeat split; vm_compute; reflexivity. Qed.

(** A named parameter that the caller did not give is still found when
    [Object.prototype] has a property of that name. *)
Lemma inherited_names_are_found :
  query db "SELECT * FROM users u WHERE a = :constructor" ∅ []
  = Ok (Aggregate "users"
          [obj1 "$match" (obj1 "u.a" (VBuiltin (NativeFunction "Object")))])
  /\ query db "SELECT * FROM users u WHERE a = :__proto__" ∅ []
     = Ok (Aggregate "users"
             [obj1 "$match" (obj1 "u.a" (VBuiltin ObjectPrototype))])
  /\ query db "SELECT * FROM users u WHERE a = :tostring" ∅ []
     = Throw (Error "Missing named param :tostring").
Proof. repeat split; vm_compute; reflexivity. Qed.
